(** * uniqstr.c: a string-deduplicating, occurrence-counting hash table

    Shallow embedding of [src/uniqstr.c] and the properties of its
    open-addressed table (hash, create, grow, insert) and of its two
    helpers (the string validator and the character look-up table).

    The table is described twice: by what it holds (the strings and counts
    of its slots), and, in [Mem], by the blocks of memory that the code
    allocates and frees; the second description is shown to compute the
    first.

    Platform model (LP64, x86-64 System V): [int] is 32 bits, two's
    complement; [char] is a signed byte; a pointer is 8 bytes wide;
    [float] is IEEE-754 binary32 and [double] binary64. *)

From Stdlib Require Import ZArith Lia List String Ascii Bool Permutation.
From Stdlib Require Import Floats.SpecFloat.
From stdpp Require Import base tactics list.

Local Open Scope Z_scope.

(** ** Outcomes of running a piece of C code *)

(** A call either returns a value, or runs into undefined behaviour (a read or
    write through NULL or outside an array, a division by zero), or never
    leaves a loop. *)
Inductive result (A : Type) : Type :=
| Ret (a : A)
| Fault
| Diverge.
Arguments Ret {A} a.
Arguments Fault {A}.
Arguments Diverge {A}.

Definition bind {A B : Type} (r : result A) (k : A -> result B) : result B :=
  match r with
  | Ret a => k a
  | Fault => Fault
  | Diverge => Diverge
  end.

Notation "x <- e ;; k" := (bind e (fun x => k))
  (at level 100, e at next level, right associativity).

(** ** C [int] arithmetic *)

Module Int.
Definition MIN : Z := - 2 ^ 31.
Definition MAX : Z := 2 ^ 31 - 1.

(** Reduction of a mathematical integer to the 32-bit two's complement
    range. *)
Definition wrap (z : Z) : Z := (z + 2 ^ 31) mod 2 ^ 32 - 2 ^ 31.

Definition add (a b : Z) : Z := wrap (a + b).
Definition mul (a b : Z) : Z := wrap (a * b).

(** [a % b]: the remainder has the sign of the dividend; a zero divisor
    traps, and so does [INT_MIN % -1]. *)
Definition rem (a b : Z) : result Z :=
  if b =? 0 then Fault
  else if (a =? MIN) && (b =? -1) then Fault
  else Ret (Z.rem a b).

Definition in_range (z : Z) : Prop := MIN <= z <= MAX.
End Int.

(** ** Characters and NUL-terminated strings *)

(** A [string] stands for the bytes found at a [char *]; the terminating NUL
    is the end of the Rocq string, and a NUL byte inside it ends the C string
    early, as it would in memory. *)

Definition uchar (c : ascii) : Z := Z.of_N (N_of_ascii c).

(** The value of a [char] in an [int] expression: [char] is signed. *)
Definition char_val (c : ascii) : Z :=
  if uchar c <? 128 then uchar c else uchar c - 256.

Definition is_nul (c : ascii) : bool := uchar c =? 0.

(** The contents of the C string: everything before the first NUL. *)
Fixpoint cstr (s : string) : string :=
  match s with
  | EmptyString => EmptyString
  | String c rest => if is_nul c then EmptyString else String c (cstr rest)
  end.

Fixpoint strlen (s : string) : Z :=
  match s with
  | EmptyString => 0
  | String c rest => if is_nul c then 0 else 1 + strlen rest
  end.

(** The byte read at the head of a string (0 at its end). *)
Definition head_byte (s : string) : Z :=
  match s with
  | EmptyString => 0
  | String c _ => uchar c
  end.

Fixpoint strcmp (a b : string) : Z :=
  match a with
  | EmptyString => 0 - head_byte b
  | String x a' =>
      if is_nul x then 0 - head_byte b
      else match b with
           | EmptyString => uchar x
           | String y b' =>
               if uchar x =? uchar y then strcmp a' b' else uchar x - uchar y
           end
  end.

(** ** Constants of the program *)

Definition ASCII_SIZE : Z := 128.
Definition HASH_SIZE : Z := 11.
Definition HASH_MAGIC : Z := 37.
Definition HASH_GROWTH_FACTOR : Z := 2.
Definition MAX_STRING_SIZE : Z := 64.
Definition MIN_STRING_SIZE : Z := 1.

(** [sizeof(const unsigned char * )] *)
Definition SIZEOF_POINTER : Z := 8.

(** ** [hash] *)

Fixpoint hash_loop (str : string) (size : Z) (h : Z) : result Z :=
  match str with
  | EmptyString => Ret h
  | String c rest =>
      if is_nul c then Ret h
      else
        h' <- Int.rem (Int.add (Int.mul h HASH_MAGIC) (char_val c)) size ;;
        hash_loop rest size h'
  end.

Definition hash (str : string) (size : Z) : result Z := hash_loop str size 0.

(** The rolling hash as the specification words it: the accumulator starts
    at 0 and each character code is folded in modulo the capacity. *)
Definition poly_hash (str : string) (capacity : Z) : Z :=
  fold_left (fun acc c => (acc * 37 + uchar c) mod capacity)
            (list_ascii_of_string str) 0.

(** ** [checkString] *)

(** [const int SIZE = strlen(str)] converts a [size_t] to [int]. *)
Definition checkString (str : option string) : Z :=
  match str with
  | None => -1
  | Some s =>
      let SIZE := Int.wrap (strlen s) in
      if (SIZE <? MIN_STRING_SIZE) || (SIZE >? MAX_STRING_SIZE) then -1 else 0
  end.

Definition checkSize (size : Z) : Z := if size <? 1 then -1 else size.


(** ** Floating point: the load factor *)

(** [float] arithmetic at binary32 precision and its promotion to [double]
    for the comparison with the [double] constant 0.75. *)
Module Float.
Definition prec32 : Z := 24.
Definition emax32 : Z := 128.
Definition prec64 : Z := 53.
Definition emax64 : Z := 1024.

(** [(float) n] for an [int] n *)
Definition of_int (n : Z) : spec_float :=
  binary_normalize prec32 emax32 n 0 false.

Definition div (x y : spec_float) : spec_float := SFdiv prec32 emax32 x y.

(** [(double) x] for a [float] x *)
Definition to_double (x : spec_float) : spec_float :=
  match x with
  | S754_finite s m e => binary_round prec64 emax64 s m e
  | _ => x
  end.

(** [x > y] on doubles *)
Definition gt (x y : spec_float) : bool := SFltb y x.

(** The [double] constant 0.75 = 3 * 2^51 * 2^-53. *)
Definition c0_75 : spec_float := S754_finite false (3 * 2 ^ 51) (-53).
End Float.

Definition HASH_LOAD_FACTOR : spec_float := Float.c0_75.

(** ** The table *)

(** A [Word]: [w_str] is the [char *] (NULL when the slot is empty), pointing
    to the table's own copy of the string. *)
Record Word : Type := mkWord { w_str : option string; w_count : Z }.

(** A [HashTable]: [ht_dict] is the [Word *] (NULL, or an array of slots). *)
Record HashTable : Type :=
  mkHashTable { ht_dict : option (list Word); ht_size : Z; ht_count : Z }.

Definition zero_word : Word := mkWord None 0.

(** What the allocator answers during one call: whether [malloc], [calloc]
    and [strdup] find memory. *)
Record allocator : Type :=
  mkAllocator { malloc_ok : bool; calloc_ok : bool; strdup_ok : bool }.

Definition heap_ok : allocator := mkAllocator true true true.

(** [calloc(n, sizeof(T))]: zero-filled array, or NULL. A negative [int]
    converts to a [size_t] too large to be served. *)
Definition calloc {A : Type} (ok : bool) (zero : A) (n : Z) : option (list A) :=
  if ok && (0 <=? n) then Some (repeat zero (Z.to_nat n)) else None.

Definition strdup (ok : bool) (s : string) : option string :=
  if ok then Some (cstr s) else None.

(** Pointer dereference and array indexing. *)
Definition deref {A : Type} (p : option A) : result A :=
  match p with
  | Some a => Ret a
  | None => Fault
  end.

Definition slot {A : Type} (a : list A) (i : Z) : option A :=
  if 0 <=? i then a !! Z.to_nat i else None.

Definition get {A : Type} (a : list A) (i : Z) : result A := deref (slot a i).

Definition set {A : Type} (a : list A) (i : Z) (x : A) : result (list A) :=
  match slot a i with
  | Some _ => Ret (<[Z.to_nat i := x]> a)
  | None => Fault
  end.

(** ** [createHashTable] *)

Definition createHashTable (m : allocator) (size : Z)
  : option HashTable * list string :=
  if negb (malloc_ok m) then
    (None, ["Error: Could not allocate memory for hash table."%string])
  else
    match calloc (calloc_ok m) zero_word size with
    | None => (None, ["Error: Could not allocate memory for dictionary."%string])
    | Some d => (Some (mkHashTable (Some d) size 0), [])
    end.

(** ** [recalcLoadFactor] *)

Definition recalcLoadFactor (ht : option HashTable) : spec_float * list string :=
  match ht with
  | None => (Float.of_int (-1), ["Error: Null hash table."%string])
  | Some t =>
      (Float.div (Float.of_int (Int.add (ht_count t) 1)) (Float.of_int (ht_size t)),
       [])
  end.

(** ** [growHashTable] *)

(** [while (new_dict[index].str != NULL) index = (index + 1) % new_size;] *)
Fixpoint grow_probe (fuel : nat) (new_dict : list Word) (new_size index : Z)
  : result Z :=
  match fuel with
  | O => Diverge
  | S fuel' =>
      w <- get new_dict index ;;
      match w_str w with
      | None => Ret index
      | Some _ =>
          index' <- Int.rem (Int.add index 1) new_size ;;
          grow_probe fuel' new_dict new_size index'
      end
  end.

(** A probe that has looked at every residue of [new_size] without leaving
    will look at the same slots for ever. *)
Definition probe_fuel (size : Z) : nat := S (Z.to_nat (Z.abs size)).
Arguments probe_fuel : simpl never.

(** The [for] loop over the old slots [i, i + n). *)
Fixpoint grow_loop (n : nat) (i : Z) (dict : option (list Word))
    (new_size : Z) (new_dict : option (list Word)) : result (option (list Word)) :=
  match n with
  | O => Ret new_dict
  | S n' =>
      d <- deref dict ;;
      w <- get d i ;;
      match w_str w with
      | None => grow_loop n' (i + 1) dict new_size new_dict
      | Some s =>
          index <- hash s new_size ;;
          nd <- deref new_dict ;;
          index <- grow_probe (probe_fuel new_size) nd new_size index ;;
          nd' <- set nd index (mkWord (Some s) (w_count w)) ;;
          grow_loop n' (i + 1) dict new_size (Some nd')
      end
  end.

(** Returns the [int] result and the table as the call leaves it. *)
Definition growHashTable (m : allocator) (ht : HashTable) : result (Z * HashTable) :=
  let new_size := Int.mul (ht_size ht) HASH_GROWTH_FACTOR in
  let new_dict := calloc (calloc_ok m) zero_word new_size in
  nd <- grow_loop (Z.to_nat (ht_size ht)) 0 (ht_dict ht) new_size new_dict ;;
  Ret (0, mkHashTable nd new_size (ht_count ht)).

(** ** [addString] *)

Definition full_message : string := "Error: Could not add string to hash table.".

(** The [do ... while (index != start_index)] loop. The result is the table
    and what was written to [stderr]. *)
Fixpoint add_loop (fuel : nat) (m : allocator) (ht : HashTable) (str : string)
    (start_index index : Z) : result (HashTable * list string) :=
  match fuel with
  | O => Diverge
  | S fuel' =>
      d <- deref (ht_dict ht) ;;
      w <- get d index ;;
      match w_str w with
      | None =>
          d' <- set d index (mkWord (strdup (strdup_ok m) str) 1) ;;
          Ret (mkHashTable (Some d') (ht_size ht) (Int.add (ht_count ht) 1), [])
      | Some t =>
          if strcmp t str =? 0 then
            d' <- set d index (mkWord (Some t) (Int.add (w_count w) 1)) ;;
            Ret (mkHashTable (Some d') (ht_size ht) (ht_count ht), [])
          else
            index' <- Int.rem (Int.add index 1) (ht_size ht) ;;
            if index' =? start_index then Ret (ht, [full_message])
            else add_loop fuel' m ht str start_index index'
      end
  end.

Definition load_exceeds (ht : HashTable) : bool :=
  Float.gt (Float.to_double (fst (recalcLoadFactor (Some ht)))) HASH_LOAD_FACTOR.

Definition addString (m : allocator) (ht : HashTable) (str : option string)
  : result (HashTable * list string) :=
  ht1 <- (if load_exceeds ht
          then r <- growHashTable m ht ;; Ret (snd r)
          else Ret ht) ;;
  s <- deref str ;;
  index <- hash s (ht_size ht1) ;;
  add_loop (probe_fuel (ht_size ht1)) m ht1 s index index.

(** Inserting a sequence of strings, one call after the other, with an
    allocator that always finds memory. *)
Fixpoint addStrings (ht : HashTable) (strs : list string)
  : result (HashTable * list string) :=
  match strs with
  | [] => Ret (ht, [])
  | s :: rest =>
      r <- addString heap_ok ht (Some s) ;;
      r' <- addStrings (fst r) rest ;;
      Ret (fst r', snd r ++ snd r')
  end.

(** The slots in use, in slot order. *)
Fixpoint entries (d : list Word) : list (string * Z) :=
  match d with
  | [] => []
  | w :: d' =>
      match w_str w with
      | Some s => (s, w_count w) :: entries d'
      | None => entries d'
      end
  end.

(** ** [createLookupTable] *)

(** The [for] loop: [n] more rounds from index [i]. [illegal] is the array
    that the pointer refers to; a read past its end is a fault. *)
Fixpoint lookup_loop (n : nat) (i : Z) (illegal : list ascii) (lookup : list Z)
  : result (list Z) :=
  match n with
  | O => Ret lookup
  | S n' =>
      c <- get illegal i ;;
      lookup' <- set lookup (uchar c) 1 ;;
      lookup_loop n' (i + 1) illegal lookup'
  end.

(** The loop runs while [i <= sizeof(illegal)], the size of a pointer. *)
Definition createLookupTable (m : allocator) (illegal : list ascii)
  : result (option (list Z) * list string) :=
  match calloc (calloc_ok m) 0 ASCII_SIZE with
  | None =>
      Ret (None, ["Error: Could not allocate memory for look-up table."%string])
  | Some lookup =>
      l <- lookup_loop (Z.to_nat (SIZEOF_POINTER + 1)) 0 illegal lookup ;;
      Ret (Some l, [])
  end.

(** ** The count query *)



(** ** [handleError] *)

(** [fprintf(stderr, "%s\n", message)]: what is written to [stderr] is kept
    as a list of lines. *)
Definition handleError (message : option string) : list string :=
  match message with
  | Some s => [cstr s]
  | None => []
  end.

(** ** Memory: blocks, allocation and release

    The functions above describe what the table holds. The functions of
    this part describe the same code with the memory it allocates and
    frees: every [malloc], [calloc], [strdup] and [free] of the source is
    a step on a heap of blocks. *)

Module Mem.

(** A pointer is NULL or the address of a block. *)
Abbreviation ptr := (option nat).

(** What a block holds: the bytes of a string, an array of [Word]s (the
    [str] pointer and the [count] of each), a [HashTable], an array of
    [int]s. *)
Inductive block : Type :=
| Chars (s : string)
| Words (ws : list (ptr * Z))
| Table (dict : ptr) (size count : Z)
| Ints (l : list Z).

(** The heap: the block at every address that was ever handed out, [None]
    once it has been freed. An address is not handed out twice, so that a
    pointer to a freed block stays recognisable. *)
Abbreviation heap := (list (option block)).

(** A read through a pointer: a fault for NULL and for a freed block. *)
Definition load (h : heap) (p : ptr) : result block :=
  match p with
  | Some a =>
      match h !! a with
      | Some (Some b) => Ret b
      | _ => Fault
      end
  | None => Fault
  end.

(** A write through a pointer. *)
Definition store (h : heap) (p : ptr) (b : block) : result heap :=
  match p with
  | Some a => _ <- load h p ;; Ret (<[a := Some b]> h)
  | None => Fault
  end.

(** [free(p)]: nothing for NULL, a fault for a block that is not live. *)
Definition free (h : heap) (p : ptr) : result heap :=
  match p with
  | Some a => _ <- load h p ;; Ret (<[a := None]> h)
  | None => Ret h
  end.

(** An allocation: a new block, or NULL. *)
Definition alloc (ok : bool) (h : heap) (b : block) : ptr * heap :=
  if ok then (Some (length h), h ++ [Some b]) else (None, h).

Definition load_chars (h : heap) (p : ptr) : result string :=
  b <- load h p ;;
  match b with
  | Chars s => Ret s
  | _ => Fault
  end.

Definition load_words (h : heap) (p : ptr) : result (list (ptr * Z)) :=
  b <- load h p ;;
  match b with
  | Words ws => Ret ws
  | _ => Fault
  end.

(** The fields [dict], [size] and [count] of the [HashTable] at [p]. *)
Definition load_table (h : heap) (p : ptr) : result (ptr * Z * Z) :=
  b <- load h p ;;
  match b with
  | Table dict size count => Ret (dict, size, count)
  | _ => Fault
  end.

(** [(Word * )calloc(n, sizeof(Word))] *)
Definition calloc_words (ok : bool) (h : heap) (n : Z) : ptr * heap :=
  match calloc ok (None : ptr, 0) n with
  | Some ws => alloc true h (Words ws)
  | None => (None, h)
  end.

(** *** [createHashTable] *)

(** The fields of the new [HashTable] are written before they are read, so
    the block is allocated with the values that the function gives them
    first. *)
Definition createHashTable (m : allocator) (h : heap) (size : Z)
  : result (ptr * heap * list string) :=
  match alloc (malloc_ok m) h (Table None size 0) with
  | (None, h1) =>
      Ret (None, h1,
           handleError (Some "Error: Could not allocate memory for hash table."%string))
  | (Some a, h1) =>
      let r := calloc_words (calloc_ok m) h1 size in
      h2 <- store (snd r) (Some a) (Table (fst r) size 0) ;;
      match fst r with
      | None =>
          Ret (None, h2,
               handleError (Some "Error: Could not allocate memory for dictionary."%string))
      | Some _ => Ret (Some a, h2, [])
      end
  end.

(** *** [freeLookupTable], [freeHashTable], [freeDictionary] *)

Definition freeLookupTable (h : heap) (lookup : ptr) : result (Z * heap * list string) :=
  match lookup with
  | Some _ => h' <- free h lookup ;; Ret (0, h', [])
  | None => Ret (-1, h, handleError (Some "Error: Null look-up table."%string))
  end.

(** [for (int i = 0; i < ht->size; i++) free(ht->dict[i].str);] with
    [ht->size] and [ht->dict] read from memory in every round. *)
Fixpoint free_loop (fuel : nat) (h : heap) (ht : ptr) (i : Z) : result heap :=
  match fuel with
  | O => Diverge
  | S fuel' =>
      t <- load_table h ht ;;
      if i <? snd (fst t) then
        ws <- load_words h (fst (fst t)) ;;
        w <- get ws i ;;
        h' <- free h (fst w) ;;
        free_loop fuel' h' ht (Int.add i 1)
      else Ret h
  end.

Definition freeHashTable (h : heap) (ht : ptr) : result (Z * heap * list string) :=
  match ht with
  | Some _ =>
      t <- load_table h ht ;;
      h1 <- free_loop (S (Z.to_nat (snd (fst t)))) h ht 0 ;;
      t1 <- load_table h1 ht ;;
      h2 <- free h1 (fst (fst t1)) ;;
      h3 <- free h2 ht ;;
      Ret (0, h3, [])
  | None => Ret (-1, h, handleError (Some "Error: Null hash table."%string))
  end.

(** [for (int i = 0; i < size; i++) free(dict[i].str);], [n] more rounds
    from index [i]. *)
Fixpoint dict_loop (n : nat) (h : heap) (dict : ptr) (i : Z) : result heap :=
  match n with
  | O => Ret h
  | S n' =>
      ws <- load_words h dict ;;
      w <- get ws i ;;
      h' <- free h (fst w) ;;
      dict_loop n' h' dict (Int.add i 1)
  end.

Definition freeDictionary (h : heap) (dict : ptr) (size : Z)
  : result (Z * heap * list string) :=
  match dict with
  | Some _ =>
      h1 <- dict_loop (Z.to_nat size) h dict 0 ;;
      h2 <- free h1 dict ;;
      Ret (0, h2, [])
  | None => Ret (-1, h, handleError (Some "Error: Null dictionary."%string))
  end.

(** *** [createLookupTable] *)

Definition load_ints (h : heap) (p : ptr) : result (list Z) :=
  b <- load h p ;;
  match b with
  | Ints l => Ret l
  | _ => Fault
  end.

Fixpoint lookup_loop (n : nat) (i : Z) (illegal : list ascii) (h : heap)
    (lookup : ptr) : result heap :=
  match n with
  | O => Ret h
  | S n' =>
      c <- get illegal i ;;
      l <- load_ints h lookup ;;
      l' <- set l (uchar c) 1 ;;
      h' <- store h lookup (Ints l') ;;
      lookup_loop n' (i + 1) illegal h' lookup
  end.

Definition createLookupTable (m : allocator) (h : heap) (illegal : list ascii)
  : result (ptr * heap * list string) :=
  match calloc (calloc_ok m) 0 ASCII_SIZE with
  | None =>
      Ret (None, h,
           handleError (Some "Error: Could not allocate memory for look-up table."%string))
  | Some l =>
      let r := alloc true h (Ints l) in
      h' <- lookup_loop (Z.to_nat (SIZEOF_POINTER + 1)) 0 illegal (snd r) (fst r) ;;
      Ret (fst r, h', [])
  end.

(** *** [growHashTable] *)

Fixpoint grow_probe (fuel : nat) (h : heap) (new_dict : ptr) (new_size index : Z)
  : result Z :=
  match fuel with
  | O => Diverge
  | S fuel' =>
      nd <- load_words h new_dict ;;
      w <- get nd index ;;
      match fst w with
      | None => Ret index
      | Some _ =>
          index' <- Int.rem (Int.add index 1) new_size ;;
          grow_probe fuel' h new_dict new_size index'
      end
  end.

(** The [for] loop over the old slots [i, i + n); the old array and the
    size are those that [ht] holds throughout the loop. *)
Fixpoint grow_loop (n : nat) (i : Z) (h : heap) (dict : ptr) (new_size : Z)
    (new_dict : ptr) : result heap :=
  match n with
  | O => Ret h
  | S n' =>
      ws <- load_words h dict ;;
      w <- get ws i ;;
      match fst w with
      | None => grow_loop n' (i + 1) h dict new_size new_dict
      | Some _ =>
          s <- load_chars h (fst w) ;;
          index <- hash s new_size ;;
          index <- grow_probe (probe_fuel new_size) h new_dict new_size index ;;
          nd <- load_words h new_dict ;;
          nd' <- set nd index w ;;
          h' <- store h new_dict (Words nd') ;;
          grow_loop n' (i + 1) h' dict new_size new_dict
      end
  end.

Definition growHashTable (m : allocator) (h : heap) (ht : ptr) : result (Z * heap) :=
  t <- load_table h ht ;;
  let new_size := Int.mul (snd (fst t)) HASH_GROWTH_FACTOR in
  let r := calloc_words (calloc_ok m) h new_size in
  h1 <- grow_loop (Z.to_nat (snd (fst t))) 0 (snd r) (fst (fst t)) new_size (fst r) ;;
  h2 <- free h1 (fst (fst t)) ;;
  h3 <- store h2 ht (Table (fst r) new_size (snd t)) ;;
  Ret (0, h3).

(** *** [addString] *)

(** [strdup(str)] *)
Definition strdup (ok : bool) (h : heap) (s : string) : ptr * heap :=
  alloc ok h (Chars (cstr s)).

Fixpoint add_loop (fuel : nat) (m : allocator) (h : heap) (ht : ptr) (str : string)
    (start_index index : Z) : result (heap * list string) :=
  match fuel with
  | O => Diverge
  | S fuel' =>
      t <- load_table h ht ;;
      ws <- load_words h (fst (fst t)) ;;
      w <- get ws index ;;
      match fst w with
      | None =>
          let r := strdup (strdup_ok m) h str in
          ws' <- set ws index (fst r, 1) ;;
          h1 <- store (snd r) (fst (fst t)) (Words ws') ;;
          h2 <- store h1 ht (Table (fst (fst t)) (snd (fst t)) (Int.add (snd t) 1)) ;;
          Ret (h2, [])
      | Some _ =>
          s <- load_chars h (fst w) ;;
          if strcmp s str =? 0 then
            ws' <- set ws index (fst w, Int.add (snd w) 1) ;;
            h1 <- store h (fst (fst t)) (Words ws') ;;
            Ret (h1, [])
          else
            index' <- Int.rem (Int.add index 1) (snd (fst t)) ;;
            if index' =? start_index then Ret (h, [full_message])
            else add_loop fuel' m h ht str start_index index'
      end
  end.

(** [recalcLoadFactor(ht)] reads [ht->count] and [ht->size]. For a null
    [ht] it writes its message and returns -1, which is not above the load
    factor, and [addString] then reads [ht->size] through the null pointer:
    the call is a fault either way. *)
Definition addString (m : allocator) (h : heap) (ht : ptr) (str : option string)
  : result (heap * list string) :=
  t <- load_table h ht ;;
  h1 <- (if load_exceeds (mkHashTable None (snd (fst t)) (snd t))
         then r <- growHashTable m h ht ;; Ret (snd r)
         else Ret h) ;;
  s <- deref str ;;
  t1 <- load_table h1 ht ;;
  index <- hash s (snd (fst t1)) ;;
  add_loop (probe_fuel (snd (fst t1))) m h1 ht s index index.

(** Inserting a sequence of strings, one call after the other, with an
    allocator that always finds memory. *)
Fixpoint addStrings (h : heap) (ht : ptr) (strs : list string)
  : result (heap * list string) :=
  match strs with
  | [] => Ret (h, [])
  | s :: rest =>
      r <- addString heap_ok h ht (Some s) ;;
      r' <- addStrings (fst r) ht rest ;;
      Ret (fst r', snd r ++ snd r')
  end.

(** *** [main] *)

(** What the driver prints: the text before a [%d] with the [int] that is
    formatted, an entry of the table, a character of the look-up table. What
    the functions write to [stderr] is not kept here. *)
Inductive printed : Type :=
| OutInt (text : string) (n : Z)
| OutEntry (s : string) (count : Z)
| OutChar (code : Z).

(** The strings of the fourteen calls of [addString], in order. *)
Definition driver_words : list string :=
  ["hello"; "world"; "hello"; "world"; "aaaaa"; "bbbbb"; "ccccc"; "ddddd";
   "eeeee"; "fffff"; "ggggg"; "hhhhh"; "iiiii"; "jjjjj"]%string.

Definition COMMON_PUNCTUATION : list ascii :=
  [","; "*"; ";"; "."; ":"; "("; "["; "]"; ")"]%char.

(** The calls of [addString]; [ms k] is what the allocator answers during
    the call number [k] of the driver. *)
Fixpoint add_all (ms : nat -> allocator) (k : nat) (h : heap) (ht : ptr)
    (strs : list string) : result heap :=
  match strs with
  | [] => Ret h
  | s :: rest =>
      r <- addString (ms k) h ht (Some s) ;;
      add_all ms (S k) (fst r) ht rest
  end.

(** [for (int i = 0; i < ht->size; i++) if (ht->dict[i].str != NULL)
    printf("%s: %d\n", ...);] *)
Fixpoint print_table (fuel : nat) (h : heap) (ht : ptr) (i : Z)
  : result (list printed) :=
  match fuel with
  | O => Diverge
  | S fuel' =>
      t <- load_table h ht ;;
      if i <? snd (fst t) then
        ws <- load_words h (fst (fst t)) ;;
        w <- get ws i ;;
        match fst w with
        | None => print_table fuel' h ht (Int.add i 1)
        | Some _ =>
            s <- load_chars h (fst w) ;;
            out <- print_table fuel' h ht (Int.add i 1) ;;
            Ret (OutEntry s (snd w) :: out)
        end
      else Ret []
  end.

(** [for (int i = 0; i < ASCII_SIZE; i++) if (lookup[i] != 0) printf(...);],
    [n] more rounds from index [i]. *)
Fixpoint print_lookup (n : nat) (h : heap) (lookup : ptr) (i : Z)
  : result (list printed) :=
  match n with
  | O => Ret []
  | S n' =>
      l <- load_ints h lookup ;;
      v <- get l i ;;
      out <- print_lookup n' h lookup (Int.add i 1) ;;
      Ret (if v =? 0 then out else OutChar i :: out)
  end.

(** The driver, on an empty heap. The result is the exit status and what
    was printed. *)
Definition main (ms : nat -> allocator) : result (Z * list printed) :=
  r <- createHashTable (ms 0%nat) [] HASH_SIZE ;;
  let ht := fst (fst r) in
  t <- load_table (snd (fst r)) ht ;;
  let out1 := [OutInt "Total number of strings: " (snd t);
               OutInt "Current size of the hash table: " (snd (fst t))] in
  h1 <- add_all ms 1 (snd (fst r)) ht driver_words ;;
  t1 <- load_table h1 ht ;;
  out2 <- print_table (S (Z.to_nat (snd (fst t1)))) h1 ht 0 ;;
  let out3 := [OutInt "Total number of strings: " (snd t1);
               OutInt "Current size of the hash table: " (snd (fst t1))] in
  r1 <- freeHashTable h1 ht ;;
  let h2 := snd (fst r1) in
  t2 <- load_table h2 ht ;;
  let out4 := [OutInt "Hash table status: " (snd (fst t2))] in
  r2 <- createLookupTable (ms 15%nat) h2 COMMON_PUNCTUATION ;;
  let lookup := fst (fst r2) in
  l <- load_ints (snd (fst r2)) lookup ;;
  v <- get l (uchar ",") ;;
  let out5 := [OutInt "Lookup table status: " v] in
  out6 <- print_lookup (Z.to_nat ASCII_SIZE) (snd (fst r2)) lookup 0 ;;
  r3 <- freeLookupTable (snd (fst r2)) lookup ;;
  l' <- load_ints (snd (fst r3)) lookup ;;
  v' <- get l' (uchar ",") ;;
  let out7 := [OutInt "Lookup table status: " v'] in
  Ret (0, out1 ++ out2 ++ out3 ++ out4 ++ out5 ++ out6 ++ out7).

End Mem.

(** * Vocabulary of the properties *)

(** ** Inputs *)

(** The number of times [s] occurs in [strs]. *)
Definition multiplicity (strs : list string) (s : string) : Z :=
  Z.of_nat (count_occ string_dec strs s).

(** Strings of 7-bit characters: every byte is in 1..127. *)
Fixpoint is_text (s : string) : bool :=
  match s with
  | EmptyString => true
  | String c rest => (1 <=? uchar c) && (uchar c <=? 127) && is_text rest
  end.

Definition all_text (strs : list string) : Prop :=
  Forall (fun s => is_text s = true) strs.

(** The inputs that the validator is to reject: a null pointer, or a string
    whose length is outside [[MIN_STRING_SIZE, MAX_STRING_SIZE]]. *)
Definition malformed (str : option string) : Prop :=
  match str with
  | None => True
  | Some s => strlen s < MIN_STRING_SIZE \/ MAX_STRING_SIZE < strlen s
  end.

(** The length of the string fits the [int] that [checkString] stores it
    in. *)
Definition length_fits (str : option string) : Prop :=
  match str with
  | None => True
  | Some s => strlen s <= Int.MAX
  end.

(** ** Machine limits *)

(** The largest table size for which [hash] stays within [int] on 7-bit
    text: [(size - 1) * 37 + 127 <= INT_MAX]. *)
Definition HASH_SIZE_MAX : Z := 58040096.

(** The largest table size at which the binary32 quotient of
    [recalcLoadFactor] compares with 0.75 as the exact quotient does. *)
Definition TABLE_SIZE_MAX : Z := 2 ^ 23.

(** A number of insertions that keeps the table within [TABLE_SIZE_MAX]. *)
Definition INSERTIONS_MAX : Z := 3 * 2 ^ 20.

(** The machine limits under which the table is studied: the initial
    capacity and the number of insertions keep every capacity within
    [TABLE_SIZE_MAX], where [int] arithmetic does not wrap around and the
    [float] load factor test is exact. *)
Definition within_limits (size0 : Z) (n : nat) : Prop :=
  0 < size0 <= TABLE_SIZE_MAX /\ Z.of_nat n <= INSERTIONS_MAX.

(** ** Tables *)

(** The table that [createHashTable] returned for [size0] has received the
    strings [seen], in this order. *)
Definition reached (size0 : Z) (seen : list string) (ht : HashTable) : Prop :=
  exists ht0,
    createHashTable heap_ok size0 = (Some ht0, []) /\
    addStrings ht0 seen = Ret (ht, []).

(** A table whose slot array is allocated with [ht_size] slots and holds
    7-bit text only. *)
Record shaped (ht : HashTable) (d : list Word) : Prop := {
  shaped_dict : ht_dict ht = Some d;
  shaped_len : Z.of_nat (length d) = ht_size ht;
  shaped_size : 0 < ht_size ht;
  shaped_text : forall s c, In (s, c) (entries d) -> is_text s = true
}.

Definition is_free (w : Word) : bool :=
  match w_str w with
  | None => true
  | Some _ => false
  end.

Definition occupied (d : list Word) (i : Z) : Prop :=
  exists w, slot d i = Some w /\ is_free w = false.

(** The probe that starts at index [h] looks at the slots [(h + k) mod n] for
    k = 0, 1, 2, ...; [k] is the offset of that slot from [h]. With [stop]
    the slots at which the probe stops: the probe from [h] stops at offset
    [k], having passed every slot before it. *)
Definition stops_at (stop : Word -> bool) (d : list Word) (n h k : Z) : Prop :=
  0 <= k < n /\
  (exists w, slot d ((h + k) mod n) = Some w /\ stop w = true) /\
  (forall j, 0 <= j < k ->
     exists w, slot d ((h + j) mod n) = Some w /\ stop w = false).

(** The slots at which the probe for [s] stops: a free slot, or one that
    holds a string equal to [s]. *)
Definition stops_probe (s : string) (w : Word) : bool :=
  match w_str w with
  | None => true
  | Some t => strcmp t s =? 0
  end.

(** Every slot between the hash index of a stored string and the slot that
    holds it is in use: the probe for a stored string reaches it before it
    meets a free slot. *)
Definition chained (d : list Word) (n : Z) : Prop :=
  forall i s c, slot d i = Some (mkWord (Some s) c) ->
  forall k, 0 <= k < (i - poly_hash s n) mod n ->
            occupied d ((poly_hash s n + k) mod n).

(** The new slot array as the rehash builds it: starting from an array of [n]
    free slots, the entries are taken one after the other and each is put
    in the first free slot that the probe from its hash index (against the
    new capacity [n]) meets. *)
Inductive rehash_into (n : Z) : list (string * Z) -> list Word -> Prop :=
| rehash_nil : rehash_into n [] (repeat zero_word (Z.to_nat n))
| rehash_snoc l nd s c k :
    rehash_into n l nd ->
    stops_at is_free nd n (poly_hash s n) k ->
    rehash_into n (l ++ [(s, c)])
      (<[Z.to_nat ((poly_hash s n + k) mod n) := mkWord (Some s) c]> nd).

(** What [addString] does to the table at the slot where its probe stops. *)
Definition place (m : allocator) (ht : HashTable) (d : list Word) (s : string)
    (index : Z) (w : Word) : HashTable :=
  match w_str w with
  | None =>
      mkHashTable (Some (<[Z.to_nat index := mkWord (strdup (strdup_ok m) s) 1]> d))
                  (ht_size ht) (Int.add (ht_count ht) 1)
  | Some t =>
      mkHashTable (Some (<[Z.to_nat index := mkWord (Some t) (Int.add (w_count w) 1)]> d))
                  (ht_size ht) (ht_count ht)
  end.

(** The two outcomes of the probe of [addString] on a table with slot array
    [d] that has received [seen]: the count of the slot that holds [s] goes
    up by one, or [s] goes into a free slot with count 1 and the live count
    goes up by one. *)
Definition add_effect (seen : list string) (s : string) (ht ht' : HashTable)
    (d : list Word) : Prop :=
  (In s seen /\
   exists i, slot d i = Some (mkWord (Some s) (multiplicity seen s)) /\
     ht' = mkHashTable
             (Some (<[Z.to_nat i := mkWord (Some s) (multiplicity seen s + 1)]> d))
             (ht_size ht) (ht_count ht)) \/
  (~ In s seen /\
   exists i w, slot d i = Some w /\ w_str w = None /\
     ht' = mkHashTable (Some (<[Z.to_nat i := mkWord (Some s) 1]> d))
                       (ht_size ht) (ht_count ht + 1)).

(** The invariant of a table, with slot array [d], that started with [size0]
    slots and has received the strings [seen]. *)
Record table_ok (size0 : Z) (seen : list string) (ht : HashTable)
    (d : list Word) : Prop := {
  ok_dict : ht_dict ht = Some d;
  ok_len : Z.of_nat (length d) = ht_size ht;
  ok_size : 0 < ht_size ht;
  ok_count : ht_count ht = Z.of_nat (length (entries d));
  ok_load : 4 * ht_count ht <= 3 * ht_size ht;
  ok_grown : ht_size ht = size0 \/ 3 * ht_size ht < 8 * (ht_count ht + 1);
  ok_seen : ht_count ht <= Z.of_nat (length seen);
  ok_nodup : List.NoDup (map fst (entries d));
  ok_mult : forall s c, In (s, c) (entries d) ->
              is_text s = true /\ c = multiplicity seen s /\ In s seen;
  ok_mem : forall s, In s seen -> In s (map fst (entries d));
  ok_chain : chained d (ht_size ht)
}.

(** ** Rounding to binary32 *)

(** The last step of a rounding: a mantissa that the rounding has carried
    to [2^24] is renormalised to [2^23] with the exponent one higher. *)
Definition finish (m e : Z) : spec_float :=
  if m <? 2 ^ 24 then S754_finite false (Z.to_pos m) e
  else S754_finite false (2 ^ 23)%positive (e + 1).

(** The position of the exact quotient between two neighbours, from the
    remainder [r] of the division by [Y]. *)
Definition loc_of (Y r : Z) : location :=
  if r =? 0 then loc_Exact else loc_Inexact (2 * r ?= Y).

(** The same after one more bit of the quotient is shifted out. *)
Definition loc_half (odd sticky : bool) : location :=
  match odd, sticky with
  | false, false => loc_Exact
  | false, true => loc_Inexact Lt
  | true, false => loc_Inexact Eq
  | true, true => loc_Inexact Gt
  end.

Definition inexact (l : location) : bool :=
  match l with loc_Exact => false | _ => true end.

(** ** Concrete runs *)

(** The table that a run of create-then-insert leaves. *)
Definition built (size0 : Z) (strs : list string) : HashTable :=
  match createHashTable heap_ok size0 with
  | (Some ht0, _) =>
      match addStrings ht0 strs with
      | Ret (ht, _) => ht
      | _ => ht0
      end
  | (None, _) => mkHashTable None 0 0
  end.

Definition dict_of (ht : HashTable) : list Word :=
  match ht_dict ht with
  | Some d => d
  | None => []
  end.

(** Eight distinct words, as in the driver: they fill a table of 11 slots up
    to the point where the next new entry makes it grow. *)
Definition eight_words : list string :=
  ["aaaaa"; "bbbbb"; "ccccc"; "ddddd"; "eeeee"; "fffff"; "ggggg"; "hhhhh"]%string.

(** Seven of them: one more entry fits before the table grows. *)
Definition seven_words : list string :=
  ["aaaaa"; "bbbbb"; "ccccc"; "ddddd"; "eeeee"; "fffff"; "ggggg"]%string.

(** A string of one byte above 127: the Latin-1 code of an e with an acute
    accent. *)
Definition high_byte : string := String "233" EmptyString.

(** The UTF-8 bytes of an e with an acute accent (195, 169), and a t. *)
Definition accented : string :=
  String "195" (String "169" (String "t" EmptyString)).

(** A string of [n] letters. *)
Fixpoint letters (n : nat) : string :=
  match n with
  | O => EmptyString
  | S n' => String "a" (letters n')
  end.

(** A string whose length, 2^32 + 5, does not fit an [int]. *)
Definition long_string : string := letters (Z.to_nat (2 ^ 32 + 5)).

(** An allocator whose [calloc] finds no memory. *)
Definition calloc_fails : allocator := mkAllocator true false true.

(** [COMMON_PUNCTUATION] of the driver. *)
Definition nine_marks : list ascii :=
  [","; "*"; ";"; "."; ":"; "("; "["; "]"; ")"]%char.

(** ** Tables in memory *)

(** The addresses of the strings that a slot array points to. *)
Definition addrs (ws : list (Mem.ptr * Z)) : list nat := omap fst ws.

(** The slot [w] of an array in memory holds what the slot [v] of the table
    holds: the same count, and a pointer that is NULL when [v] is free and
    otherwise points to a live block with the string of [v]. *)
Definition word_at (h : Mem.heap) (w : Mem.ptr * Z) (v : Word) : Prop :=
  w_count v = snd w /\
  match fst w with
  | None => w_str v = None
  | Some a => exists s, h !! a = Some (Some (Mem.Chars s)) /\ w_str v = Some s
  end.

(** The heap [h] holds the table [ht] at address [a]; the slot array, when
    there is one, has [ht_size] slots. [owned] are the addresses of the
    blocks that make up the table, in this order: the [HashTable], the slot
    array, the strings in slot order. No address occurs twice: no two slots
    share a string. *)
Definition table_at (h : Mem.heap) (a : nat) (ht : HashTable) (owned : list nat)
  : Prop :=
  exists dict,
    h !! a = Some (Some (Mem.Table dict (ht_size ht) (ht_count ht))) /\
    NoDup owned /\
    match dict with
    | None => ht_dict ht = None /\ owned = [a]
    | Some da =>
        exists ws d,
          h !! da = Some (Some (Mem.Words ws)) /\ ht_dict ht = Some d /\
          Z.of_nat (length d) = ht_size ht /\
          Forall2 (word_at h) ws d /\ owned = a :: da :: addrs ws
    end.

(** The heap after the blocks at the addresses [l] are freed. *)
Fixpoint release (l : list nat) (h : Mem.heap) : Mem.heap :=
  match l with
  | [] => h
  | x :: l' => release l' (<[x := None]> h)
  end.

(** Since the heap was [h0], nothing of [h0] has changed, and the blocks
    that are live beyond it are the [owned] ones. *)
Definition tidy (h0 h : Mem.heap) (owned : list nat) : Prop :=
  take (length h0) h = h0 /\
  (forall x, x ∈ owned -> (length h0 <= x)%nat) /\
  (forall x b, (length h0 <= x)%nat -> h !! x = Some (Some b) -> x ∈ owned).

(** * Properties *)

(** ** Integers, characters, strings *)

Lemma wrap_small z : Int.in_range z -> Int.wrap z = z.
Proof.
  unfold Int.in_range, Int.wrap, Int.MIN, Int.MAX. intros H.
  rewrite Z.mod_small; lia.
Qed.

Lemma add_small a b : Int.in_range (a + b) -> Int.add a b = a + b.
Proof. apply wrap_small. Qed.

Lemma mul_small a b : Int.in_range (a * b) -> Int.mul a b = a * b.
Proof. apply wrap_small. Qed.

Lemma rem_nonneg a b : 0 <= a -> 0 < b -> Int.rem a b = Ret (a mod b).
Proof.
  intros Ha Hb. unfold Int.rem.
  destruct (Z.eqb_spec b 0); [lia|].
  destruct (Z.eqb_spec b (-1)); [lia|]. rewrite andb_false_r.
  rewrite Z.rem_mod_nonneg by lia. reflexivity.
Qed.

Lemma uchar_range c : 0 <= uchar c < 256.
Proof.
  unfold uchar. pose proof (N_ascii_bounded c). lia.
Qed.

Lemma uchar_inj x y : uchar x = uchar y -> x = y.
Proof.
  unfold uchar. intros H. apply N2Z.inj in H.
  rewrite <- (ascii_N_embedding x), <- (ascii_N_embedding y). congruence.
Qed.

Lemma is_text_cons c rest :
  is_text (String c rest) = true <-> 1 <= uchar c <= 127 /\ is_text rest = true.
Proof. simpl. rewrite !andb_true_iff, !Z.leb_le. tauto. Qed.

Lemma text_not_nul c : 1 <= uchar c -> is_nul c = false.
Proof. unfold is_nul. intros H. apply Z.eqb_neq. lia. Qed.

Lemma cstr_text s : is_text s = true -> cstr s = s.
Proof.
  induction s as [|c rest IH]; [reflexivity|].
  rewrite is_text_cons. intros [Hc Hr]. simpl.
  rewrite text_not_nul by lia. f_equal. auto.
Qed.

Lemma strlen_text s : is_text s = true -> strlen s = Z.of_nat (String.length s).
Proof.
  induction s as [|c rest IH]; [reflexivity|].
  rewrite is_text_cons. intros [Hc Hr]. simpl strlen.
  rewrite text_not_nul by lia. rewrite IH by assumption.
  simpl String.length. lia.
Qed.

Lemma strcmp_text a : forall b,
  is_text a = true -> is_text b = true -> (strcmp a b = 0 <-> a = b).
Proof.
  induction a as [|x a IH]; intros [|y b] Ha Hb; simpl.
  - tauto.
  - apply is_text_cons in Hb as [Hy _]. split; [lia|discriminate].
  - apply is_text_cons in Ha as [Hx _]. rewrite text_not_nul by lia.
    split; [lia|discriminate].
  - apply is_text_cons in Ha as [Hx Ha]. apply is_text_cons in Hb as [Hy Hb].
    rewrite text_not_nul by lia.
    destruct (Z.eqb_spec (uchar x) (uchar y)) as [E|E].
    + apply uchar_inj in E. subst y. rewrite IH by assumption.
      split; [congruence|]. intros [= ->]. reflexivity.
    + split; [lia|]. intros [= -> _]. congruence.
Qed.

Lemma strcmp_refl s : is_text s = true -> (strcmp s s =? 0) = true.
Proof. intros H. apply Z.eqb_eq. apply strcmp_text; auto. Qed.

(** ** [hash] on 7-bit text *)

Lemma poly_hash_step acc l n :
  0 < n -> 0 <= acc < n ->
  0 <= fold_left (fun a c => (a * 37 + uchar c) mod n) l acc < n.
Proof.
  intros Hn. revert acc. induction l as [|c l IH]; intros acc Hacc; simpl.
  - assumption.
  - apply IH. apply Z.mod_pos_bound. assumption.
Qed.

Lemma poly_hash_range s n : 0 < n -> 0 <= poly_hash s n < n.
Proof. intros Hn. apply poly_hash_step; lia. Qed.

Lemma hash_loop_text s : forall n h,
  is_text s = true -> 0 < n <= HASH_SIZE_MAX -> 0 <= h < n ->
  hash_loop s n h =
  Ret (fold_left (fun a c => (a * 37 + uchar c) mod n) (list_ascii_of_string s) h).
Proof.
  unfold HASH_SIZE_MAX.
  induction s as [|c rest IH]; intros n h Ht Hn Hh; [reflexivity|].
  apply is_text_cons in Ht as [Hc Hr]. simpl.
  rewrite text_not_nul by lia. unfold HASH_MAGIC, char_val.
  destruct (Z.ltb_spec (uchar c) 128); [|lia].
  rewrite mul_small by (unfold Int.in_range, Int.MIN, Int.MAX; lia).
  rewrite add_small by (unfold Int.in_range, Int.MIN, Int.MAX; lia).
  rewrite rem_nonneg by lia. simpl.
  apply IH; auto. apply Z.mod_pos_bound. lia.
Qed.

Lemma hash_text s n :
  is_text s = true -> 0 < n <= HASH_SIZE_MAX -> hash s n = Ret (poly_hash s n).
Proof. intros Ht Hn. apply hash_loop_text; auto. lia. Qed.

(** ** Arrays *)

Lemma slot_Some {A} (a : list A) i x :
  slot a i = Some x <-> 0 <= i /\ a !! Z.to_nat i = Some x.
Proof.
  unfold slot. destruct (Z.leb_spec 0 i); split.
  - auto.
  - tauto.
  - discriminate.
  - lia.
Qed.

Lemma slot_range {A} (a : list A) i x :
  slot a i = Some x -> 0 <= i < Z.of_nat (length a).
Proof.
  rewrite slot_Some. intros [Hi Hx]. apply lookup_lt_Some in Hx. lia.
Qed.

Lemma slot_in_range {A} (a : list A) i :
  0 <= i < Z.of_nat (length a) -> exists x, slot a i = Some x.
Proof.
  intros Hi. destruct (lookup_lt_is_Some_2 a (Z.to_nat i)) as [x Hx]; [lia|].
  exists x. apply slot_Some. split; [lia|assumption].
Qed.

Lemma slot_of_nat {A} (a : list A) (i : nat) : slot a (Z.of_nat i) = a !! i.
Proof.
  unfold slot. destruct (Z.leb_spec 0 (Z.of_nat i)); [|lia].
  rewrite Nat2Z.id. reflexivity.
Qed.

Lemma get_Some {A} (a : list A) i x : slot a i = Some x -> get a i = Ret x.
Proof. unfold get. intros ->. reflexivity. Qed.

Lemma set_Some {A} (a : list A) i x y :
  slot a i = Some x -> set a i y = Ret (<[Z.to_nat i := y]> a).
Proof. unfold set. intros ->. reflexivity. Qed.

Lemma slot_insert_eq {A} (a : list A) i x y :
  slot a i = Some x -> slot (<[Z.to_nat i := y]> a) i = Some y.
Proof.
  rewrite !slot_Some. intros [Hi Hx]. split; [assumption|].
  apply list_lookup_insert_eq. eapply lookup_lt_Some; eauto.
Qed.

Lemma slot_insert_ne {A} (a : list A) i j y :
  0 <= i -> i <> j -> slot (<[Z.to_nat i := y]> a) j = slot a j.
Proof.
  intros Hi Hne. unfold slot. destruct (Z.leb_spec 0 j); [|reflexivity].
  apply list_lookup_insert_ne. lia.
Qed.

Lemma slot_repeat {A} (x : A) n i :
  0 <= i < Z.of_nat n -> slot (repeat x n) i = Some x.
Proof.
  intros Hi. apply slot_Some. split; [lia|].
  assert (Hr : forall m k, (k < m)%nat -> repeat x m !! k = Some x).
  { induction m as [|m IH]; intros [|k] Hk; simpl; try lia; auto.
    apply IH. lia. }
  apply Hr. lia.
Qed.

(** ** The entries of a slot array *)

Lemma entries_app d1 d2 : entries (d1 ++ d2) = entries d1 ++ entries d2.
Proof.
  induction d1 as [|w d1 IH]; simpl; [reflexivity|].
  destruct (w_str w); simpl; rewrite IH; reflexivity.
Qed.

Lemma entries_repeat n : entries (repeat zero_word n) = [].
Proof. induction n; simpl; auto. Qed.

Lemma entries_length d : (length (entries d) <= length d)%nat.
Proof.
  induction d as [|w d IH]; simpl; [lia|]. destruct (w_str w); simpl; lia.
Qed.

Lemma In_entries d s c :
  In (s, c) (entries d) <-> exists i : nat, d !! i = Some (mkWord (Some s) c).
Proof.
  induction d as [|w d IH]; simpl.
  - split; [tauto|]. intros [i Hi]. rewrite lookup_nil in Hi. discriminate.
  - destruct w as [[t|] k]; simpl.
    + split.
      * intros [[= -> ->]|H]; [exists 0%nat; reflexivity|].
        apply IH in H as [i Hi]. exists (S i). exact Hi.
      * intros [[|i] Hi]; simpl in Hi.
        -- left. congruence.
        -- right. apply IH. eauto.
    + rewrite IH. split.
      * intros [i Hi]. exists (S i). exact Hi.
      * intros [[|i] Hi]; simpl in Hi; [discriminate|eauto].
Qed.

Lemma In_entries_slot d s c :
  In (s, c) (entries d) <-> exists i, slot d i = Some (mkWord (Some s) c).
Proof.
  rewrite In_entries. split.
  - intros [i Hi]. exists (Z.of_nat i). rewrite slot_of_nat. exact Hi.
  - intros [i Hi]. apply slot_Some in Hi as [_ Hi]. eauto.
Qed.

(** Some slot is free as long as fewer entries than slots are in use. *)
Lemma free_slot_exists d :
  (length (entries d) < length d)%nat ->
  exists i w, slot d i = Some w /\ is_free w = true.
Proof.
  induction d as [|w d IH]; simpl; [lia|].
  destruct w as [[t|] k]; simpl.
  - intros H. destruct IH as (i & w & Hi & Hw); [lia|].
    apply slot_Some in Hi as [Hi0 Hi].
    exists (Z.of_nat (S (Z.to_nat i))), w. rewrite slot_of_nat. auto.
  - intros _. exists 0, (mkWord None k). split; reflexivity.
Qed.

Lemma entries_fill d (i : nat) w s c :
  d !! i = Some w -> w_str w = None ->
  entries (<[i := mkWord (Some s) c]> d) ≡ₚ (s, c) :: entries d.
Proof.
  intros Hi Hw.
  rewrite insert_take_drop by (eapply lookup_lt_Some; eauto).
  rewrite <- (take_drop_middle d i w Hi) at 3.
  rewrite !entries_app. simpl. rewrite Hw.
  symmetry. apply Permutation_middle.
Qed.

Lemma entries_bump d (i : nat) s c c' :
  d !! i = Some (mkWord (Some s) c) ->
  exists l1 l2, entries d = l1 ++ (s, c) :: l2 /\
                entries (<[i := mkWord (Some s) c']> d) = l1 ++ (s, c') :: l2.
Proof.
  intros Hi.
  exists (entries (take i d)), (entries (drop (S i) d)). split.
  - rewrite <- (take_drop_middle d i _ Hi) at 1. rewrite entries_app. reflexivity.
  - rewrite insert_take_drop by (eapply lookup_lt_Some; eauto).
    rewrite entries_app. reflexivity.
Qed.

(** ** Linear probing *)

(** The probe that starts at index [h] looks at the slots [(h + k) mod n] for
    k = 0, 1, 2, ...; [k] is the offset of that slot from [h]. *)

Lemma mod_wrap x n :
  0 < n -> 0 <= x < 2 * n -> x mod n = if x <? n then x else x - n.
Proof.
  intros Hn Hx. destruct (Z.ltb_spec x n).
  - apply Z.mod_small. lia.
  - replace x with ((x - n) + 1 * n) at 1 by lia.
    rewrite Z.mod_add by lia. apply Z.mod_small. lia.
Qed.

Lemma offset_index h i n :
  0 <= h < n -> 0 <= i < n -> (h + (i - h) mod n) mod n = i.
Proof.
  intros Hh Hi. rewrite Z.add_mod_idemp_r by lia.
  replace (h + (i - h)) with i by lia. apply Z.mod_small. lia.
Qed.

Lemma offset_range h i n : 0 < n -> 0 <= (i - h) mod n < n.
Proof. intros Hn. apply Z.mod_pos_bound. lia. Qed.

Lemma index_offset h k n :
  0 <= h < n -> 0 <= k < n -> ((h + k) mod n - h) mod n = k.
Proof.
  intros Hh Hk. rewrite Zminus_mod_idemp_l.
  replace (h + k - h) with k by lia. apply Z.mod_small. lia.
Qed.

Lemma index_range h k n : 0 < n -> 0 <= (h + k) mod n < n.
Proof. intros Hn. apply Z.mod_pos_bound. lia. Qed.

Lemma step_index h j n :
  0 < n <= Int.MAX ->
  Int.rem (Int.add ((h + j) mod n) 1) n = Ret ((h + (j + 1)) mod n).
Proof.
  intros Hn. pose proof (index_range h j n ltac:(lia)) as Hr.
  rewrite add_small by (unfold Int.in_range, Int.MIN, Int.MAX in *; lia).
  rewrite rem_nonneg by lia. rewrite Z.add_mod_idemp_l by lia.
  do 2 f_equal. lia.
Qed.

Lemma no_return h j n :
  0 <= h < n -> 0 <= j -> j + 1 < n -> (h + (j + 1)) mod n <> h.
Proof.
  intros Hh Hj Hlt. rewrite mod_wrap by lia.
  destruct (Z.ltb_spec (h + (j + 1)) n); lia.
Qed.

Lemma index_zero h n : 0 <= h < n -> (h + 0) mod n = h.
Proof. intros Hh. rewrite Z.add_0_r. apply Z.mod_small. lia. Qed.

Section Probing.
(** The slots at which the probe stops. *)
Variable stop : Word -> bool.
Variable d : list Word.
Variable n : Z.
Hypothesis n_pos : 0 < n.
Hypothesis d_len : Z.of_nat (length d) = n.

Lemma probe_slot h k : exists w, slot d ((h + k) mod n) = Some w.
Proof. apply slot_in_range. rewrite d_len. apply index_range. exact n_pos. Qed.

Lemma stops_below h (m : nat) :
  Z.of_nat m <= n ->
  (exists k, k < Z.of_nat m /\ stops_at stop d n h k) \/
  (forall j, 0 <= j < Z.of_nat m ->
     exists w, slot d ((h + j) mod n) = Some w /\ stop w = false).
Proof.
  induction m as [|m IH]; intros Hm.
  - right. intros j Hj. lia.
  - destruct IH as [(k & Hk & Hs)|Hall]; [lia| |].
    + left. exists k. split; [lia|assumption].
    + destruct (probe_slot h (Z.of_nat m)) as [w Hw].
      destruct (stop w) eqn:Ew.
      * left. exists (Z.of_nat m). split; [lia|].
        split; [lia|]. split; [eauto|]. exact Hall.
      * right. intros j Hj.
        destruct (Z.eq_dec j (Z.of_nat m)) as [->|Hne]; [eauto|].
        apply Hall. lia.
Qed.

(** A probe stops somewhere as soon as some slot of the array stops it. *)
Lemma stops_exists h :
  0 <= h < n ->
  (exists i w, slot d i = Some w /\ stop w = true) ->
  exists k, stops_at stop d n h k.
Proof.
  intros Hh (i & w & Hi & Hw).
  destruct (stops_below h (Z.to_nat n)) as [(k & _ & Hs)|Hall]; [lia|eauto|].
  exfalso. pose proof (slot_range _ _ _ Hi) as Hr. rewrite d_len in Hr.
  destruct (Hall ((i - h) mod n)) as (w' & Hw' & Hstop).
  { pose proof (offset_range h i n n_pos). lia. }
  rewrite offset_index in Hw' by lia. congruence.
Qed.

Lemma stops_at_unique h k k' :
  stops_at stop d n h k -> stops_at stop d n h k' -> k = k'.
Proof.
  intros (Hk & (w & Hw & Hs) & Hb) (Hk' & (w' & Hw' & Hs') & Hb').
  destruct (Z.lt_trichotomy k k') as [Hlt|[->|Hlt]]; [|reflexivity|].
  - destruct (Hb' k) as (w1 & Hw1 & Hs1); [lia|]. congruence.
  - destruct (Hb k') as (w1 & Hw1 & Hs1); [lia|]. congruence.
Qed.
End Probing.

(** [grow_probe] returns the first free slot after the start index. *)
Lemma grow_probe_from d n h k : forall fuel j,
  0 < n <= Int.MAX -> stops_at is_free d n h k ->
  0 <= j <= k -> (Z.to_nat (k - j) < fuel)%nat ->
  grow_probe fuel d n ((h + j) mod n) = Ret ((h + k) mod n).
Proof.
  induction fuel as [|fuel IH]; intros j Hn Hs Hj Hfuel; [lia|].
  destruct Hs as (Hk & (w & Hw & Hfree) & Hbefore). simpl.
  destruct (Z.eq_dec j k) as [->|Hne].
  - rewrite (get_Some _ _ _ Hw). simpl. unfold is_free in Hfree.
    destruct (w_str w); [discriminate|reflexivity].
  - destruct (Hbefore j) as (w' & Hw' & Hocc); [lia|].
    rewrite (get_Some _ _ _ Hw'). simpl. unfold is_free in Hocc.
    destruct (w_str w'); [|discriminate].
    rewrite step_index by lia. simpl.
    apply IH; [lia| |lia|lia]. split; [lia|]. split; eauto.
Qed.

Lemma grow_probe_spec d n h k :
  0 < n <= Int.MAX -> 0 <= h < n -> stops_at is_free d n h k ->
  grow_probe (probe_fuel n) d n h = Ret ((h + k) mod n).
Proof.
  intros Hn Hh Hs. rewrite <- (index_zero h n Hh) at 1.
  apply grow_probe_from; auto.
  - destruct Hs as (Hk & _). lia.
  - destruct Hs as (Hk & _). unfold probe_fuel. lia.
Qed.

(** ** The probing invariant *)

Lemma occupied_insert d i j s c :
  0 <= i -> occupied d j -> occupied (<[Z.to_nat i := mkWord (Some s) c]> d) j.
Proof.
  intros Hi (w & Hw & Hocc). destruct (Z.eq_dec i j) as [->|Hne].
  - exists (mkWord (Some s) c). split; [|reflexivity].
    eapply slot_insert_eq; eauto.
  - exists w. rewrite slot_insert_ne by assumption. auto.
Qed.

Lemma chained_repeat m n : chained (repeat zero_word m) n.
Proof.
  intros i s c Hi. pose proof (slot_range _ _ _ Hi) as Hr.
  rewrite repeat_length in Hr. rewrite slot_repeat in Hi by lia. discriminate.
Qed.

Lemma chained_fill d n s c k :
  0 < n -> Z.of_nat (length d) = n ->
  chained d n -> stops_at is_free d n (poly_hash s n) k ->
  chained (<[Z.to_nat ((poly_hash s n + k) mod n) := mkWord (Some s) c]> d) n.
Proof.
  intros Hn Hlen Hch (Hk & (w & Hw & Hfree) & Hbefore) i s' c' Hi k' Hk'.
  pose proof (index_range (poly_hash s n) k n Hn) as Hidx.
  apply occupied_insert; [lia|].
  destruct (Z.eq_dec i ((poly_hash s n + k) mod n)) as [->|Hne].
  - rewrite (slot_insert_eq _ _ _ _ Hw) in Hi. injection Hi as <- <-.
    rewrite index_offset in Hk' by (auto using poly_hash_range).
    destruct (Hbefore k' Hk') as (w' & Hw' & Hocc). exists w'. auto.
  - rewrite slot_insert_ne in Hi by lia. eapply Hch; eauto.
Qed.

Lemma chained_bump d n i s c c' :
  chained d n -> slot d i = Some (mkWord (Some s) c) ->
  chained (<[Z.to_nat i := mkWord (Some s) c']> d) n.
Proof.
  intros Hch Hi j t e Hj k Hk.
  pose proof (slot_range _ _ _ Hi) as Hr.
  apply occupied_insert; [lia|].
  destruct (Z.eq_dec j i) as [->|Hne].
  - rewrite (slot_insert_eq _ _ _ _ Hi) in Hj. injection Hj as <- <-.
    eapply Hch; eauto.
  - rewrite slot_insert_ne in Hj by lia. eapply Hch; eauto.
Qed.

(** ** Growth *)

Lemma entries_take_free d (i : nat) w :
  d !! i = Some w -> w_str w = None -> entries (take (S i) d) = entries (take i d).
Proof.
  intros Hi Hw. rewrite (take_S_r _ _ _ Hi), entries_app. simpl.
  rewrite Hw. apply app_nil_r.
Qed.

Lemma entries_take_used d (i : nat) s c :
  d !! i = Some (mkWord (Some s) c) ->
  entries (take (S i) d) = entries (take i d) ++ [(s, c)].
Proof. intros Hi. rewrite (take_S_r _ _ _ Hi), entries_app. reflexivity. Qed.

Lemma rehash_length n l nd :
  0 <= n -> rehash_into n l nd -> Z.of_nat (length nd) = n.
Proof.
  intros Hn H. induction H.
  - rewrite repeat_length. lia.
  - rewrite length_insert. assumption.
Qed.

Lemma rehash_entries n l nd : rehash_into n l nd -> entries nd ≡ₚ l.
Proof.
  intros H. induction H as [|l nd s c k H IH (Hk & (w & Hw & Hfree) & _)].
  - rewrite entries_repeat. reflexivity.
  - apply slot_Some in Hw as [_ Hw].
    rewrite (entries_fill _ _ w) by
      (auto; unfold is_free in Hfree; destruct (w_str w); congruence).
    rewrite IH. apply Permutation_cons_append.
Qed.

Lemma rehash_chained n l nd : 0 < n -> rehash_into n l nd -> chained nd n.
Proof.
  intros Hn H. induction H.
  - apply chained_repeat.
  - apply chained_fill; auto.
    apply (rehash_length n l nd); [lia|assumption].
Qed.

Lemma grow_loop_spec d new_size :
  0 < new_size <= HASH_SIZE_MAX ->
  Z.of_nat (length d) < new_size ->
  (forall s c, In (s, c) (entries d) -> is_text s = true) ->
  forall (n i : nat) nd,
    (i + n = length d)%nat ->
    rehash_into new_size (entries (take i d)) nd ->
    exists nd',
      grow_loop n (Z.of_nat i) (Some d) new_size (Some nd) = Ret (Some nd') /\
      rehash_into new_size (entries d) nd'.
Proof.
  intros Hns Hlt Htext.
  induction n as [|n IH]; intros i nd Hin Hre.
  - exists nd. simpl. rewrite firstn_all2 in Hre by lia. auto.
  - destruct (lookup_lt_is_Some_2 d i) as [w Hw]; [lia|].
    cbn [grow_loop bind deref]. unfold get. rewrite slot_of_nat, Hw. cbn [deref bind].
    replace (Z.of_nat i + 1) with (Z.of_nat (S i)) by lia.
    destruct w as [[s|] c]; cbn [w_str w_count].
    + assert (Hs : is_text s = true).
      { apply (Htext s c). apply In_entries. eauto. }
      rewrite hash_text by assumption. cbn [bind deref].
      pose proof (poly_hash_range s new_size ltac:(lia)) as Hh.
      pose proof (rehash_length new_size _ _ ltac:(lia) Hre) as Hlen.
      pose proof (rehash_entries _ _ _ Hre) as Hperm.
      destruct (stops_exists is_free nd new_size ltac:(lia) Hlen
                  (poly_hash s new_size) Hh) as [k Hk].
      { apply free_slot_exists. apply Permutation_length in Hperm.
        rewrite Hperm. pose proof (entries_length (take i d)) as Hle.
        rewrite length_take in Hle. lia. }
      rewrite (grow_probe_spec nd new_size _ k) by
        (unfold HASH_SIZE_MAX, Int.MAX in *; auto; lia).
      cbn [bind]. pose proof Hk as (Hk0 & (w & Hslot & Hfree) & Hbefore).
      rewrite (set_Some _ _ _ _ Hslot). cbn [bind].
      apply IH; [lia|].
      rewrite (entries_take_used _ _ _ _ Hw). constructor; assumption.
    + apply IH; [lia|].
      rewrite (entries_take_free _ _ _ Hw) by reflexivity. assumption.
Qed.

Lemma growHashTable_spec ht d :
  shaped ht d -> 2 * ht_size ht <= HASH_SIZE_MAX ->
  exists d',
    growHashTable heap_ok ht =
      Ret (0, mkHashTable (Some d') (2 * ht_size ht) (ht_count ht)) /\
    rehash_into (2 * ht_size ht) (entries d) d'.
Proof.
  intros [Hd Hlen Hsz Htext] Hmax. unfold growHashTable, HASH_GROWTH_FACTOR.
  rewrite mul_small by
    (unfold Int.in_range, Int.MIN, Int.MAX, HASH_SIZE_MAX in *; lia).
  replace (ht_size ht * 2) with (2 * ht_size ht) by lia.
  unfold calloc. simpl calloc_ok.
  destruct (Z.leb_spec 0 (2 * ht_size ht)); [|lia]. simpl andb. cbv iota.
  rewrite Hd.
  destruct (grow_loop_spec d (2 * ht_size ht)) with
    (n := Z.to_nat (ht_size ht)) (i := 0%nat)
    (nd := repeat zero_word (Z.to_nat (2 * ht_size ht)))
    as (nd' & Hrun & Hre); try lia; auto.
  - constructor.
  - change (Z.of_nat 0) with 0 in Hrun. rewrite Hrun. cbn [bind]. eauto.
Qed.

(** ** The probe of [addString] *)

Lemma add_loop_from m ht d s h k w : forall fuel j,
  ht_dict ht = Some d ->
  0 < ht_size ht <= Int.MAX -> 0 <= h < ht_size ht ->
  stops_at (stops_probe s) d (ht_size ht) h k ->
  slot d ((h + k) mod ht_size ht) = Some w ->
  0 <= j <= k -> (Z.to_nat (k - j) < fuel)%nat ->
  add_loop fuel m ht s h ((h + j) mod ht_size ht) =
  Ret (place m ht d s ((h + k) mod ht_size ht) w, []).
Proof.
  induction fuel as [|fuel IH]; intros j Hd Hn Hh Hs Hw Hj Hfuel; [lia|].
  pose proof Hs as (Hk & (w0 & Hw0 & Hstop) & Hbefore).
  assert (w0 = w) as -> by congruence.
  cbn [add_loop]. rewrite Hd. cbn [deref bind].
  destruct (Z.eq_dec j k) as [->|Hne].
  - rewrite (get_Some _ _ _ Hw). cbn [bind]. unfold place, stops_probe in *.
    destruct (w_str w) as [t|].
    + rewrite Hstop. rewrite (set_Some _ _ _ _ Hw). reflexivity.
    + rewrite (set_Some _ _ _ _ Hw). reflexivity.
  - destruct (Hbefore j) as (w' & Hw' & Hpass); [lia|].
    rewrite (get_Some _ _ _ Hw'). cbn [bind]. unfold stops_probe in Hpass.
    destruct (w_str w') as [t|]; [|discriminate]. rewrite Hpass.
    rewrite step_index by lia. cbn [bind].
    destruct (Z.eqb_spec ((h + (j + 1)) mod ht_size ht) h) as [E|_].
    + exfalso. revert E. apply no_return; lia.
    + apply IH; auto; lia.
Qed.

Lemma add_loop_spec m ht d s h k w :
  ht_dict ht = Some d ->
  0 < ht_size ht <= Int.MAX -> 0 <= h < ht_size ht ->
  stops_at (stops_probe s) d (ht_size ht) h k ->
  slot d ((h + k) mod ht_size ht) = Some w ->
  add_loop (probe_fuel (ht_size ht)) m ht s h h =
  Ret (place m ht d s ((h + k) mod ht_size ht) w, []).
Proof.
  intros Hd Hn Hh Hs Hw.
  rewrite <- (index_zero h (ht_size ht) Hh) at 2.
  destruct Hs as (Hk & Hs).
  eapply add_loop_from; eauto; [split; eauto|lia|unfold probe_fuel; lia].
Qed.

(** ** The invariant of the table *)

Lemma multiplicity_snoc strs s t :
  multiplicity (strs ++ [s]) t =
  multiplicity strs t + (if string_dec s t then 1 else 0).
Proof.
  unfold multiplicity. rewrite count_occ_app. simpl.
  destruct (string_dec s t); lia.
Qed.

Lemma multiplicity_le strs s : 0 <= multiplicity strs s <= Z.of_nat (length strs).
Proof.
  unfold multiplicity. pose proof (count_occ_bound string_dec s strs). lia.
Qed.

Lemma multiplicity_pos strs s : In s strs <-> 0 < multiplicity strs s.
Proof.
  unfold multiplicity. rewrite (count_occ_In string_dec). lia.
Qed.

Lemma table_ok_new size0 :
  0 < size0 -> table_ok size0 [] (mkHashTable (Some (repeat zero_word (Z.to_nat size0))) size0 0)
                         (repeat zero_word (Z.to_nat size0)).
Proof.
  intros H. split; cbn [ht_dict ht_size ht_count];
    rewrite ?entries_repeat, ?repeat_length; cbn [length map];
    auto using chained_repeat; try lia.
  - constructor.
  - intros s c [].
Qed.

Lemma table_ok_shaped size0 seen ht d : table_ok size0 seen ht d -> shaped ht d.
Proof.
  intros H. split; try apply H.
Qed.

Section Insertion.
Variables (size0 : Z) (seen : list string) (ht : HashTable) (d : list Word).
Variable s : string.
Hypothesis ok : table_ok size0 seen ht d.
Hypothesis s_text : is_text s = true.

Local Abbreviation n := (ht_size ht).
Local Abbreviation h := (poly_hash s (ht_size ht)).

Lemma hash_index_range : 0 <= h < n.
Proof. apply poly_hash_range. apply ok. Qed.

Lemma stored_slot t c :
  In (t, c) (entries d) <-> exists i, slot d i = Some (mkWord (Some t) c).
Proof. apply In_entries_slot. Qed.

(** The probe for [s] stops within the array while a slot is free. *)
Lemma probe_stops :
  ht_count ht < n ->
  exists k w, stops_at (stops_probe s) d n h k /\
              slot d ((h + k) mod n) = Some w /\ stops_probe s w = true.
Proof.
  intros Hfree. destruct ok as [Hd Hlen Hsz Hcnt _ _ _ _ _ _ _].
  destruct (stops_exists (stops_probe s) d n Hsz Hlen h hash_index_range)
    as [k Hk].
  - destruct (free_slot_exists d) as (i & w & Hi & Hw); [lia|].
    exists i, w. split; [assumption|]. unfold stops_probe, is_free in *.
    destruct (w_str w); [discriminate|reflexivity].
  - pose proof Hk as (_ & (w & Hw & Hstop) & _). eauto.
Qed.

(** When [s] is stored, the probe stops at its slot. *)
Lemma probe_finds k w :
  In s seen ->
  stops_at (stops_probe s) d n h k -> slot d ((h + k) mod n) = Some w ->
  w = mkWord (Some s) (multiplicity seen s).
Proof.
  intros Hin (Hk & (w0 & Hw0 & Hstop) & Hbefore) Hw.
  assert (w0 = w) as -> by congruence.
  destruct w as [[t|] c].
  - assert (Hent : In (t, c) (entries d)) by (apply stored_slot; eauto).
    apply (ok_mult _ _ _ _ ok) in Hent as (Ht & -> & _).
    unfold stops_probe in Hstop. cbn [w_str] in Hstop.
    apply Z.eqb_eq in Hstop. apply strcmp_text in Hstop; auto. congruence.
  - exfalso. apply (ok_mem _ _ _ _ ok) in Hin.
    apply in_map_iff in Hin as ([t e] & Ht & Hent). cbn [fst] in Ht. subst t.
    apply stored_slot in Hent as [i Hi].
    pose proof (slot_range _ _ _ Hi) as Hr. rewrite (ok_len _ _ _ _ ok) in Hr.
    pose proof hash_index_range as Hh.
    pose proof (offset_range h i n ltac:(lia)) as Hoff.
    pose proof (offset_index h i n Hh Hr) as Hidx.
    destruct (Z.lt_trichotomy k ((i - h) mod n)) as [Hlt|[Heq|Hgt]].
    + destruct (ok_chain _ _ _ _ ok i s e Hi k) as (w' & Hw' & Hocc);
        [lia|].
      rewrite Hw in Hw'.
      injection Hw' as <-. discriminate.
    + subst k. rewrite Hidx in Hw. congruence.
    + destruct (Hbefore ((i - h) mod n)) as (w' & Hw' & Hpass); [lia|].
      rewrite Hidx, Hi in Hw'. injection Hw' as <-.
      unfold stops_probe in Hpass. cbn [w_str] in Hpass.
      rewrite strcmp_refl in Hpass by assumption. discriminate.
Qed.

(** When [s] is not stored, the probe stops at a free slot. *)
Lemma probe_misses k w :
  ~ In s seen ->
  stops_at (stops_probe s) d n h k -> slot d ((h + k) mod n) = Some w ->
  w_str w = None.
Proof.
  intros Hnin (Hk & (w0 & Hw0 & Hstop) & Hbefore) Hw.
  assert (w0 = w) as -> by congruence.
  destruct w as [[t|] c]; [exfalso|reflexivity].
  assert (Hent : In (t, c) (entries d)) by (apply stored_slot; eauto).
  apply (ok_mult _ _ _ _ ok) in Hent as (Ht & _ & Hin).
  unfold stops_probe in Hstop. cbn [w_str] in Hstop.
  apply Z.eqb_eq in Hstop. apply strcmp_text in Hstop; auto. congruence.
Qed.

Lemma not_stored : ~ In s seen -> ~ In s (map fst (entries d)).
Proof.
  intros Hnin Hin. apply in_map_iff in Hin as ([t c] & Ht & Hent).
  cbn [fst] in Ht. subst t. apply (ok_mult _ _ _ _ ok) in Hent. tauto.
Qed.

(** The insert path keeps the invariant. *)
Lemma insert_keeps_ok k w :
  ~ In s seen ->
  stops_at (stops_probe s) d n h k -> slot d ((h + k) mod n) = Some w ->
  4 * (ht_count ht + 1) <= 3 * n -> n <= Int.MAX ->
  table_ok size0 (seen ++ [s]) (place heap_ok ht d s ((h + k) mod n) w)
           (<[Z.to_nat ((h + k) mod n) := mkWord (Some s) 1]> d).
Proof.
  intros Hnin Hs Hw Hload Hmax.
  pose proof (probe_misses k w Hnin Hs Hw) as Hfree.
  pose proof (not_stored Hnin) as Hfresh.
  pose proof ok as [Hd Hlen Hsz Hcnt Hld Hgr Hsn Hnd Hmu Hme Hch].
  pose proof Hw as Hw'. apply slot_Some in Hw' as [Hidx Hw'].
  pose proof (entries_fill d _ w s 1 Hw' Hfree) as Hperm.
  unfold place. rewrite Hfree. cbn [strdup strdup_ok heap_ok].
  rewrite cstr_text by assumption.
  rewrite add_small by
    (unfold Int.in_range, Int.MIN, Int.MAX in *; lia).
  split; cbn [ht_dict ht_size ht_count].
  - reflexivity.
  - rewrite length_insert. assumption.
  - assumption.
  - rewrite (Permutation_length Hperm). cbn [length]. lia.
  - assumption.
  - destruct Hgr; [left; assumption|right; lia].
  - rewrite length_app. cbn [length]. lia.
  - rewrite Hperm. cbn [map fst]. constructor; assumption.
  - intros t c Hin. rewrite Hperm in Hin. rewrite multiplicity_snoc, in_app_iff.
    destruct Hin as [[= <- <-]|Hin].
    + destruct (string_dec s s); [|congruence].
      assert (multiplicity seen s = 0).
      { pose proof (multiplicity_pos seen s). pose proof (multiplicity_le seen s).
        destruct (Z.eq_dec (multiplicity seen s) 0); [assumption|].
        exfalso. apply Hnin. apply H. lia. }
      cbn [In]. intuition lia.
    + destruct (Hmu t c Hin) as (Ht & Hc & Hin').
      destruct (string_dec s t) as [->|_]; [tauto|]. intuition lia.
  - intros t Hin. rewrite Hperm. cbn [map fst In].
    apply in_app_iff in Hin as [Hin|[->|[]]]; auto.
  - apply chained_fill; auto.
    destruct Hs as (Hk & _ & Hbefore). split; [assumption|]. split.
    + exists w. split; [assumption|]. unfold is_free. rewrite Hfree. reflexivity.
    + intros j Hj. destruct (Hbefore j Hj) as (w1 & Hw1 & Hpass).
      exists w1. split; [assumption|]. unfold stops_probe, is_free in *.
      destruct (w_str w1); [reflexivity|discriminate].
Qed.

(** The update path keeps the invariant. *)
Lemma update_keeps_ok k :
  In s seen ->
  stops_at (stops_probe s) d n h k ->
  slot d ((h + k) mod n) = Some (mkWord (Some s) (multiplicity seen s)) ->
  Z.of_nat (length seen) < Int.MAX ->
  table_ok size0 (seen ++ [s])
    (place heap_ok ht d s ((h + k) mod n) (mkWord (Some s) (multiplicity seen s)))
    (<[Z.to_nat ((h + k) mod n) := mkWord (Some s) (multiplicity seen s + 1)]> d).
Proof.
  intros Hin Hs Hw Hmax.
  pose proof ok as [Hd Hlen Hsz Hcnt Hld Hgr Hsn Hnd Hmu Hme Hch].
  pose proof Hw as Hw'. apply slot_Some in Hw' as [Hidx Hw'].
  destruct (entries_bump d _ s _ (multiplicity seen s + 1) Hw')
    as (l1 & l2 & He & He').
  pose proof (multiplicity_le seen s) as Hm.
  unfold place. cbn [w_str w_count].
  rewrite add_small by (unfold Int.in_range, Int.MIN, Int.MAX in *; lia).
  assert (Hfst : map fst (entries (<[Z.to_nat ((h + k) mod n) :=
                   mkWord (Some s) (multiplicity seen s + 1)]> d))
                 = map fst (entries d)).
  { rewrite He, He', !map_app. reflexivity. }
  split; cbn [ht_dict ht_size ht_count].
  - reflexivity.
  - rewrite length_insert. assumption.
  - assumption.
  - rewrite Hcnt. rewrite <- (length_map fst (entries d)), <- Hfst, length_map.
    reflexivity.
  - assumption.
  - assumption.
  - rewrite length_app. cbn [length]. lia.
  - rewrite Hfst. assumption.
  - intros t c Hent. rewrite multiplicity_snoc, in_app_iff.
    rewrite He' in Hent. apply in_app_iff in Hent as [Hent|[[= <- <-]|Hent]].
    + assert (Hold : In (t, c) (entries d)).
      { rewrite He. apply in_app_iff. auto. }
      destruct (Hmu t c Hold) as (Ht & Hc & Hin').
      destruct (string_dec s t) as [->|_]; [exfalso|intuition lia].
      rewrite He, map_app in Hnd. cbn [map fst] in Hnd.
      apply NoDup_remove_2 in Hnd. apply Hnd. apply in_app_iff. left.
      apply in_map_iff. exists (t, c). auto.
    + destruct (string_dec s s); [|congruence]. intuition lia.
    + assert (Hold : In (t, c) (entries d)).
      { rewrite He. apply in_app_iff. right. right. assumption. }
      destruct (Hmu t c Hold) as (Ht & Hc & Hin').
      destruct (string_dec s t) as [->|_]; [exfalso|intuition lia].
      rewrite He, map_app in Hnd. cbn [map fst] in Hnd.
      apply NoDup_remove_2 in Hnd. apply Hnd. apply in_app_iff. right.
      apply in_map_iff. exists (t, c). auto.
  - intros t Ht. rewrite Hfst. apply Hme.
    apply in_app_iff in Ht as [Ht|[->|[]]]; assumption.
  - eapply chained_bump; eauto.
Qed.
End Insertion.

(** ** The load-factor test

    [recalcLoadFactor] divides two [int]s converted to [float]; the quotient
    is rounded to 24 bits and then compared with 0.75. The comparison agrees
    with the exact one, [3 * size < 4 * (count + 1)], as long as the operands
    convert exactly and the gap between the exact quotient and 0.75, at least
    [1 / (4 * size)], is wider than half a unit in the last place. *)

(** The number of binary digits of a mantissa. *)
Lemma digits_spec p :
  2 ^ (Zpos (digits2_pos p) - 1) <= Zpos p < 2 ^ Zpos (digits2_pos p).
Proof.
  induction p as [p IH|p IH|]; cbn [digits2_pos].
  - rewrite Pos2Z.inj_succ.
    replace (Z.succ (Zpos (digits2_pos p)) - 1)
      with (Z.succ (Zpos (digits2_pos p) - 1)) by lia.
    rewrite !Z.pow_succ_r by lia. lia.
  - rewrite Pos2Z.inj_succ.
    replace (Z.succ (Zpos (digits2_pos p)) - 1)
      with (Z.succ (Zpos (digits2_pos p) - 1)) by lia.
    rewrite !Z.pow_succ_r by lia. lia.
  - simpl. lia.
Qed.

Lemma digits_bounds p k :
  2 ^ (k - 1) <= Zpos p < 2 ^ k -> Zpos (digits2_pos p) = k.
Proof.
  intros Hk. pose proof (digits_spec p) as Hd.
  assert (0 < k).
  { destruct (Z.ltb_spec 0 k); [assumption|].
    destruct (Z.eq_dec k 0) as [->|]; [simpl in Hk; lia|].
    rewrite (Z.pow_neg_r 2 k) in Hk by lia. lia. }
  assert (Zpos (digits2_pos p) - 1 < k).
  { apply (Z.pow_lt_mono_r_iff 2); lia. }
  assert (k - 1 < Zpos (digits2_pos p)).
  { apply (Z.pow_lt_mono_r_iff 2); lia. }
  lia.
Qed.

Lemma iter_xO m d : Zpos (Pos.iter xO m d) = Zpos m * 2 ^ Zpos d.
Proof.
  induction d as [|d IH] using Pos.peano_ind.
  - simpl. lia.
  - rewrite Pos.iter_succ, Pos2Z.inj_succ, Z.pow_succ_r by lia.
    rewrite Pos2Z.inj_xO, IH. lia.
Qed.

Lemma fexp32 k : -149 <= k - 24 -> fexp 24 128 k = k - 24.
Proof. intros H. unfold fexp, emin. lia. Qed.

(** A mantissa of 24 bits is kept as it is; one of 25 bits loses its last
    bit to the rounding. *)
Lemma shr_fexp_24 m e l :
  2 ^ 23 <= Zpos m < 2 ^ 24 -> -149 <= e ->
  shr_fexp 24 128 (Zpos m) e l = (shr_record_of_loc (Zpos m) l, e).
Proof.
  intros Hm He. unfold shr_fexp. cbn [Zdigits2].
  rewrite (digits_bounds m 24) by (simpl; lia).
  rewrite fexp32 by lia. replace (24 + e - 24 - e) with 0 by lia. reflexivity.
Qed.

Lemma shr_fexp_25 m e l :
  2 ^ 24 <= Zpos m < 2 ^ 25 -> -149 <= e ->
  shr_fexp 24 128 (Zpos m) e l = (shr_1 (shr_record_of_loc (Zpos m) l), e + 1).
Proof.
  intros Hm He. unfold shr_fexp. cbn [Zdigits2].
  rewrite (digits_bounds m 25) by (simpl; lia).
  rewrite fexp32 by lia. replace (25 + e - 24 - e) with 1 by lia. reflexivity.
Qed.

Lemma loc_of_record m l : loc_of_shr_record (shr_record_of_loc m l) = l.
Proof. destruct l as [|[]]; reflexivity. Qed.

Lemma shr_m_record m l : shr_m (shr_record_of_loc m l) = m.
Proof. destruct l as [|[]]; reflexivity. Qed.

Lemma finish_spec m e :
  2 ^ 23 <= m <= 2 ^ 24 -> -149 <= e <= 103 ->
  (let '(mrs, e') := shr_fexp 24 128 m e loc_Exact in
   match shr_m mrs with
   | Z0 => S754_zero false
   | Zpos p =>
       if Z.leb e' (128 - 24) then S754_finite false p e'
       else S754_infinity false
   | Zneg _ => S754_nan
   end) = finish m e.
Proof.
  intros Hm He. unfold finish. destruct (Z.ltb_spec m (2 ^ 24)).
  - destruct m as [|p|p]; try lia.
    rewrite shr_fexp_24 by lia. cbn [shr_record_of_loc shr_m Z.to_pos].
    destruct (Z.leb_spec e (128 - 24)); [reflexivity|lia].
  - assert (m = 2 ^ 24) as -> by lia.
    change (2 ^ 24) with (Zpos 16777216).
    rewrite shr_fexp_25 by (simpl; lia).
    cbn [shr_record_of_loc shr_1 shr_m orb].
    change (128 - 24) with 104.
    destruct (Z.leb_spec (e + 1) 104); [reflexivity|lia].
Qed.

Lemma rne_bounds m l : m <= round_nearest_even m l <= m + 1.
Proof.
  unfold round_nearest_even. destruct l as [|[]]; try lia.
  destruct (Z.even m); lia.
Qed.

(** [binary_round_aux] on a quotient of 24 bits, and on one of 25 bits. *)
Lemma round_aux_24 q e l :
  2 ^ 23 <= Zpos q < 2 ^ 24 -> -149 <= e <= 103 ->
  binary_round_aux 24 128 false (Zpos q) e l =
  finish (round_nearest_even (Zpos q) l) e.
Proof.
  intros Hq He. unfold binary_round_aux.
  rewrite shr_fexp_24 by lia. rewrite loc_of_record, shr_m_record.
  apply finish_spec; [|lia]. pose proof (rne_bounds (Zpos q) l). lia.
Qed.

Lemma shr_1_record q l :
  shr_1 (shr_record_of_loc (Zpos q) l) =
  Build_shr_record (Zpos q / 2) (Z.odd (Zpos q)) (inexact l) \/ q = xH.
Proof.
  destruct q as [q|q|]; [left|left|right; reflexivity].
  - replace (Zpos q~1 / 2) with (Zpos q)
      by (apply (Z.div_unique _ _ _ 1); lia).
    destruct l as [|[]]; reflexivity.
  - replace (Zpos q~0 / 2) with (Zpos q)
      by (apply (Z.div_unique _ _ _ 0); lia).
    destruct l as [|[]]; reflexivity.
Qed.

Lemma round_aux_25 q e l :
  2 ^ 24 <= Zpos q < 2 ^ 25 -> -149 <= e <= 102 ->
  binary_round_aux 24 128 false (Zpos q) e l =
  finish (round_nearest_even (Zpos q / 2) (loc_half (Z.odd (Zpos q)) (inexact l)))
         (e + 1).
Proof.
  intros Hq He. unfold binary_round_aux.
  rewrite shr_fexp_25 by lia.
  destruct (shr_1_record q l) as [->| ->]; [|simpl in Hq; lia].
  cbn [shr_m].
  assert (Hloc : forall m o t,
             loc_of_shr_record (Build_shr_record m o t) = loc_half o t)
    by (intros m [] []; reflexivity).
  rewrite Hloc.
  apply finish_spec; [|lia].
  pose proof (rne_bounds (Zpos q / 2) (loc_half (Z.odd (Zpos q)) (inexact l))).
  assert (2 ^ 23 <= Zpos q / 2 < 2 ^ 24).
  { split; [apply Z.div_le_lower_bound; lia|apply Z.div_lt_upper_bound; lia]. }
  lia.
Qed.

Lemma pow2_pos k : 0 <= k -> 0 < 2 ^ k.
Proof. intros. apply Z.pow_pos_nonneg; lia. Qed.

(** [(float) a] is exact for 0 < a < 2^24: the mantissa is [a] shifted left
    until it has 24 bits. *)
Lemma of_int_exact a :
  0 < a < 2 ^ 24 ->
  exists X sa,
    Float.of_int a = S754_finite false X (- sa) /\
    0 <= sa <= 23 /\ Zpos X = a * 2 ^ sa /\ 2 ^ 23 <= Zpos X < 2 ^ 24.
Proof.
  intros Ha. destruct a as [|p|p]; try lia.
  pose proof (digits_spec p) as Hd.
  set (dp := Zpos (digits2_pos p)) in *.
  assert (Hdp : 1 <= dp <= 24).
  { split; [unfold dp; lia|].
    assert (dp - 1 < 24); [|lia]. apply (Z.pow_lt_mono_r_iff 2); lia. }
  unfold Float.of_int, Float.prec32, Float.emax32, binary_normalize, binary_round.
  fold dp. rewrite Z.add_0_r, fexp32 by lia. unfold shl_align.
  rewrite Z.sub_0_r.
  destruct (dp - 24) as [|d|d] eqn:Ed; try lia.
  - exists p, 0. assert (dp = 24) by lia.
    replace (Z.pos p * 2 ^ 0) with (Z.pos p) by (simpl; lia).
    replace (dp - 1) with 23 in Hd by lia. replace dp with 24 in Hd by lia.
    rewrite round_aux_24 by lia. cbn [round_nearest_even]. unfold finish.
    destruct (Z.ltb_spec (Z.pos p) (2 ^ 24)); [|lia]. cbn [Z.to_pos Z.opp].
    repeat split; try lia.
  - exists (Pos.iter xO p d), (Zpos d).
    assert (Hsa : Zpos d = 24 - dp) by lia.
    assert (Hx : 2 ^ 23 <= Zpos (Pos.iter xO p d) < 2 ^ 24).
    { rewrite iter_xO, Hsa.
      assert (E23 : 2 ^ 23 = 2 ^ (dp - 1) * 2 ^ (24 - dp)).
      { rewrite <- Z.pow_add_r by lia. f_equal. lia. }
      assert (E24 : 2 ^ 24 = 2 ^ dp * 2 ^ (24 - dp)).
      { rewrite <- Z.pow_add_r by lia. f_equal. lia. }
      rewrite E23, E24.
      pose proof (pow2_pos (24 - dp) ltac:(lia)). split.
      - apply Z.mul_le_mono_nonneg_r; lia.
      - apply Z.mul_lt_mono_pos_r; lia. }
    rewrite round_aux_24 by lia. cbn [round_nearest_even]. unfold finish.
    destruct (Z.ltb_spec (Zpos (Pos.iter xO p d)) (2 ^ 24)); [|lia].
    cbn [Z.to_pos]. repeat split; try lia. apply iter_xO.
Qed.

(** The promotion of a normal [float] to [double] is exact. *)
Lemma to_double_exact m e :
  2 ^ 23 <= Zpos m < 2 ^ 24 -> -149 <= e <= 104 ->
  Float.to_double (S754_finite false m e) =
  S754_finite false (Pos.iter xO m 29) (e - 29).
Proof.
  intros Hm He. unfold Float.to_double, Float.prec64, Float.emax64, binary_round.
  rewrite (digits_bounds m 24) by (simpl; lia).
  assert (Hf : fexp 53 1024 (24 + e) = e - 29) by (unfold fexp, emin; lia).
  rewrite Hf. unfold shl_align. replace (e - 29 - e) with (Zneg 29) by lia.
  assert (Hx : 2 ^ 52 <= Zpos (Pos.iter xO m 29) < 2 ^ 53).
  { rewrite iter_xO. change (2 ^ 52) with (2 ^ 23 * 2 ^ 29).
    change (2 ^ 53) with (2 ^ 24 * 2 ^ 29). lia. }
  unfold binary_round_aux, shr_fexp. cbn [Zdigits2 shr_record_of_loc].
  rewrite (digits_bounds _ 53) by (simpl; lia).
  assert (Hf' : fexp 53 1024 (53 + (e - 29)) = e - 29) by (unfold fexp, emin; lia).
  rewrite Hf'. rewrite Z.sub_diag. cbn [shr shr_m loc_of_shr_record round_nearest_even].
  cbn [Zdigits2]. rewrite (digits_bounds _ 53) by (simpl; lia).
  rewrite Hf', Z.sub_diag. cbn [shr shr_m].
  destruct (Z.leb_spec (e - 29) (1024 - 53)); [reflexivity|lia].
Qed.

(** The comparison with 0.75 reads the exponent first and then the
    mantissa. *)
Lemma gt_0_75 m e :
  Float.gt (S754_finite false (Pos.iter xO m 29) (e - 29)) Float.c0_75 =
  (-24 <? e) || ((e =? -24) && (3 * 2 ^ 22 <? Zpos m)).
Proof.
  unfold Float.gt, Float.c0_75, SFltb, SFcompare.
  destruct (Z.compare_spec (-53) (e - 29)) as [E|E|E].
  - destruct (Z.ltb_spec (-24) e); [lia|].
    destruct (Z.eqb_spec e (-24)); [|lia]. cbn [orb andb].
    rewrite Pos.compare_cont_spec.
    rewrite Pos2Z.inj_compare, iter_xO.
    change (Z.pos (3 * 2 ^ 51)) with (3 * 2 ^ 22 * 2 ^ 29).
    change (Zpos 29) with 29.
    destruct (Z.compare_spec (3 * 2 ^ 22 * 2 ^ 29) (Z.pos m * 2 ^ 29));
    destruct (Z.ltb_spec (3 * 2 ^ 22) (Zpos m)); cbn [Pos.switch_Eq];
      try reflexivity; lia.
  - destruct (Z.ltb_spec (-24) e); [reflexivity|lia].
  - destruct (Z.ltb_spec (-24) e); [lia|].
    destruct (Z.eqb_spec e (-24)); [lia|]. reflexivity.
Qed.

Lemma gt_finish m e :
  2 ^ 23 <= m <= 2 ^ 24 -> -149 <= e <= 103 ->
  Float.gt (Float.to_double (finish m e)) Float.c0_75 =
  (-24 <? e) || ((e =? -24) && (3 * 2 ^ 22 <? m)).
Proof.
  intros Hm He. unfold finish. destruct (Z.ltb_spec m (2 ^ 24)).
  - destruct m as [|p|p]; try lia. cbn [Z.to_pos].
    rewrite to_double_exact by lia. apply gt_0_75.
  - rewrite to_double_exact by (simpl; lia). rewrite gt_0_75.
    change (Z.pos (2 ^ 23)) with (2 ^ 23).
    destruct (Z.ltb_spec (-24) (e + 1)), (Z.ltb_spec (-24) e),
      (Z.eqb_spec (e + 1) (-24)), (Z.eqb_spec e (-24)),
      (Z.ltb_spec (3 * 2 ^ 22) (2 ^ 23)), (Z.ltb_spec (3 * 2 ^ 22) m);
      cbn [orb andb]; try reflexivity; lia.
Qed.

(** The division of two normal [float]s: the mantissa of the dividend is
    shifted left by 24 bits and divided by that of the divisor. *)
Lemma new_location_spec Y r :
  0 <= r < Y ->
  new_location Y r = if r =? 0 then loc_Exact else loc_Inexact (2 * r ?= Y).
Proof.
  intros Hr. unfold new_location.
  destruct (Z.even Y) eqn:Ev; unfold new_location_even, new_location_odd;
    destruct (Z.eqb_spec r 0) as [->|Hne]; try reflexivity.
  - assert (Hodd : Z.odd Y = true) by (rewrite <- Z.negb_even, Ev; reflexivity).
    apply Z.odd_spec in Hodd as [k Hk]. f_equal.
    destruct (Z.compare_spec (2 * r + 1) Y), (Z.compare_spec (2 * r) Y);
      try reflexivity; lia.
Qed.

Lemma div_normal X ex Y ey :
  2 ^ 23 <= Zpos X < 2 ^ 24 -> 2 ^ 23 <= Zpos Y < 2 ^ 24 ->
  -149 <= ex - ey - 24 ->
  SFdiv 24 128 (S754_finite false X ex) (S754_finite false Y ey) =
  binary_round_aux 24 128 false
    (Zpos X * 2 ^ 24 / Zpos Y) (ex - ey - 24)
    (new_location (Zpos Y) ((Zpos X * 2 ^ 24) mod Zpos Y)).
Proof.
  intros HX HY He. unfold SFdiv, SFdiv_core_binary. cbn [xorb Zdigits2].
  rewrite (digits_bounds X 24), (digits_bounds Y 24) by (simpl; lia).
  rewrite fexp32 by lia.
  replace (Z.min (24 + ex - (24 + ey) - 24) (ex - ey)) with (ex - ey - 24) by lia.
  replace (ex - ey - (ex - ey - 24)) with 24 by lia.
  rewrite Z.shiftl_mul_pow2 by lia.
  unfold Z.div, Z.modulo.
  destruct (Z.div_eucl (Zpos X * 2 ^ 24) (Zpos Y)) as [q r]. reflexivity.
Qed.

Lemma pow2_split i j : 0 <= i <= j -> 2 ^ j = 2 ^ i * 2 ^ (j - i).
Proof. intros H. rewrite <- Z.pow_add_r by lia. f_equal. lia. Qed.

Lemma pow2_ge k n : 0 <= n <= k -> 2 ^ n <= 2 ^ k.
Proof. intros H. apply Z.pow_le_mono_r; lia. Qed.

(** The rounded quotient of the mantissas [X] and [Y] against the mantissa
    [3 * 2^22] of 0.75. A quotient that is above 0.75 by less than half a
    unit in the last place would round down to 0.75; the last hypothesis
    excludes it. *)
Lemma round_24 X Y q r :
  2 ^ 23 <= X -> X < Y -> Y < 2 ^ 24 ->
  X * 2 ^ 24 = Y * q + r -> 0 <= r < Y ->
  (4 * X - 3 * Y = 1 -> Y <= 2 ^ 23) ->
  (3 * 2 ^ 22 <? round_nearest_even q (loc_of Y r)) = (3 * Y <? 4 * X).
Proof.
  intros HX HXY HY Hq Hr HK.
  change (2 ^ 24) with 16777216 in *. change (2 ^ 23) with 8388608 in *.
  change (3 * 2 ^ 22) with 12582912.
  pose proof (rne_bounds q (loc_of Y r)) as Hb.
  destruct (Z.lt_trichotomy q 12582912) as [Hlt|[->|Hgt]].
  - destruct (Z.ltb_spec 12582912 (round_nearest_even q (loc_of Y r))); [lia|].
    destruct (Z.ltb_spec (3 * Y) (4 * X)); [nia|reflexivity].
  - unfold loc_of, round_nearest_even.
    destruct (Z.eqb_spec r 0) as [->|Hne].
    + destruct (Z.ltb_spec (3 * Y) (4 * X)); [lia|reflexivity].
    + destruct (Z.compare_spec (2 * r) Y); cbn [Z.even];
        destruct (Z.ltb_spec (3 * Y) (4 * X)); try reflexivity; try lia.
  - destruct (Z.ltb_spec 12582912 (round_nearest_even q (loc_of Y r))); [|lia].
    destruct (Z.ltb_spec (3 * Y) (4 * X)); [reflexivity|nia].
Qed.

Lemma round_25 X Y q r l :
  2 ^ 23 <= Y -> Y <= X -> X < 2 ^ 24 ->
  X * 2 ^ 24 = Y * q + r -> 0 <= r < Y ->
  (2 * X - 3 * Y = 1 -> Y <= 2 ^ 23) ->
  l = loc_of Y r ->
  (3 * 2 ^ 22 <? round_nearest_even (q / 2) (loc_half (Z.odd q) (inexact l)))
  = (3 * Y <? 2 * X).
Proof.
  intros HY HXY HX Hq Hr HK ->.
  change (2 ^ 24) with 16777216 in *. change (2 ^ 23) with 8388608 in *.
  change (3 * 2 ^ 22) with 12582912.
  pose proof (rne_bounds (q / 2) (loc_half (Z.odd q) (inexact (loc_of Y r)))) as Hb.
  pose proof (Z.div_mod q 2 ltac:(lia)) as Hdm. rewrite Zmod_odd in Hdm.
  set (m := q / 2) in *.
  destruct (Z.lt_trichotomy m 12582912) as [Hlt|[Heq|Hgt]].
  - destruct (Z.ltb_spec 12582912
               (round_nearest_even m (loc_half (Z.odd q) (inexact (loc_of Y r)))));
      [lia|].
    destruct (Z.ltb_spec (3 * Y) (2 * X)); [|reflexivity].
    destruct (Z.odd q); nia.
  - rewrite Heq in *. unfold loc_of, round_nearest_even, loc_half, inexact in *.
    destruct (Z.odd q), (Z.eqb_spec r 0) as [->|Hne]; cbn [Z.even];
      destruct (Z.ltb_spec (3 * Y) (2 * X)); try reflexivity; try lia.
  - destruct (Z.ltb_spec 12582912
               (round_nearest_even m (loc_half (Z.odd q) (inexact (loc_of Y r)))));
      [|lia].
    destruct (Z.ltb_spec (3 * Y) (2 * X)); [reflexivity|].
    destruct (Z.odd q); nia.
Qed.

(** Arithmetic of the scaled operands: [X = a * A] and [Y = b * B] with
    [A], [B] powers of two. *)

Lemma scaled_lt A a b : 0 < A -> (3 * (b * A) <? 4 * (a * A)) = (3 * b <? 4 * a).
Proof.
  intros HA.
  destruct (Z.ltb_spec (3 * (b * A)) (4 * (a * A))), (Z.ltb_spec (3 * b) (4 * a));
    try reflexivity; nia.
Qed.

Lemma scaled_tie A a b c :
  0 < A -> 0 < b <= 8388608 -> c * (a * A) - 3 * (b * A) = 1 -> b * A <= 8388608.
Proof.
  intros HA Hb H. assert (A * (c * a - 3 * b) = 1) by lia.
  assert (0 < c * a - 3 * b) by nia.
  assert (A = 1) by nia. subst A. lia.
Qed.

Lemma ratio_above A P a b :
  0 < A -> 2 <= P -> 0 < b ->
  8388608 <= a * A -> b * (A * P) < 16777216 -> 3 * b < 4 * a.
Proof.
  intros HA HP Hb HX HY.
  assert (2 * (b * A) <= b * (A * P)) by nia.
  destruct (Z.lt_ge_cases (3 * b) (4 * a)); [assumption|].
  assert (4 * (a * A) <= 3 * (b * A)) by nia. lia.
Qed.

Lemma ratio_below B P a b :
  0 < B -> 2 <= P -> 0 < a -> a * (B * P) < b * B -> ~ 3 * b < 4 * a.
Proof.
  intros HB HP Ha H Hlt.
  assert (a * P < b) by nia.
  assert (2 * a <= a * P) by nia. lia.
Qed.

Lemma ratio_at_least A P a b :
  0 < A -> 1 <= P -> 0 < b -> b * (A * P) <= a * A -> 3 * b < 4 * a.
Proof.
  intros HA HP Hb H.
  assert (b * P <= a) by nia.
  assert (b <= b * P) by nia. lia.
Qed.

Lemma ratio_below_half B P a b :
  0 < B -> 4 <= P -> 0 < a ->
  a * (B * P) < 16777216 -> 8388608 <= b * B -> ~ 3 * b < 4 * a.
Proof.
  intros HB HP Ha HX HY Hlt.
  assert (a * (B * P) < 2 * (b * B)) by lia.
  assert (a * P < 2 * b) by nia.
  assert (4 * a <= a * P) by nia. lia.
Qed.

(** The quotient of two mantissas of 24 bits has 24 or 25 bits. *)
Lemma quot_24 X Y q r :
  8388608 <= X -> X < Y -> Y < 16777216 ->
  X * 16777216 = Y * q + r -> 0 <= r < Y -> 8388608 <= q < 16777216.
Proof.
  intros HX HXY HY Hq Hr. split.
  - destruct (Z.le_gt_cases 8388608 q); [assumption|].
    assert (Y * (q + 1) <= Y * 8388608) by nia. nia.
  - destruct (Z.lt_ge_cases q 16777216); [assumption|].
    assert (Y * 16777216 <= Y * q) by nia. nia.
Qed.

Lemma quot_25 X Y q r :
  8388608 <= Y -> Y <= X -> X < 16777216 ->
  X * 16777216 = Y * q + r -> 0 <= r < Y -> 16777216 <= q < 33554432.
Proof.
  intros HY HXY HX Hq Hr. split.
  - destruct (Z.le_gt_cases 16777216 q); [assumption|].
    assert (Y * (q + 1) <= Y * 16777216) by nia. nia.
  - destruct (Z.lt_ge_cases q 33554432); [assumption|].
    assert (Y * 33554432 <= Y * q) by nia. nia.
Qed.

(** The test of [addString], on the operands of the division. *)
Lemma load_test a b :
  0 < a < 2 ^ 24 -> 0 < b <= 2 ^ 23 ->
  Float.gt (Float.to_double (Float.div (Float.of_int a) (Float.of_int b))) Float.c0_75
  = (3 * b <? 4 * a).
Proof.
  intros Ha Hb.
  destruct (of_int_exact a Ha) as (X & sa & -> & Hsa & HXa & HX).
  destruct (of_int_exact b) as (Y & sb & -> & Hsb & HYb & HY); [lia|].
  unfold Float.div, Float.prec32, Float.emax32. rewrite div_normal by lia.
  pose proof (Z.div_mod (Zpos X * 2 ^ 24) (Zpos Y) ltac:(lia)) as Hdiv.
  pose proof (Z.mod_pos_bound (Zpos X * 2 ^ 24) (Zpos Y) ltac:(lia)) as Hrem.
  rewrite new_location_spec by assumption.
  fold (loc_of (Zpos Y) ((Zpos X * 2 ^ 24) mod Zpos Y)).
  set (q := Zpos X * 2 ^ 24 / Zpos Y) in *.
  set (r := (Zpos X * 2 ^ 24) mod Zpos Y) in *.
  pose proof (pow2_pos sa ltac:(lia)) as HA.
  pose proof (pow2_pos sb ltac:(lia)) as HB.
  replace (- sa - - sb - 24) with (sb - sa - 24) by lia.
  destruct (Z.lt_ge_cases (Zpos X) (Zpos Y)) as [Hlt|Hge].
  - pose proof (quot_24 (Zpos X) (Zpos Y) q r) as Hq.
    change (2 ^ 24) with 16777216 in *. change (2 ^ 23) with 8388608 in *.
    specialize (Hq ltac:(lia) Hlt ltac:(lia) Hdiv Hrem).
    destruct q as [|qp|qp]; try lia.
    rewrite round_aux_24 by
      (change (2 ^ 24) with 16777216; change (2 ^ 23) with 8388608; lia).
    pose proof (rne_bounds (Zpos qp) (loc_of (Zpos Y) r)) as Hrb.
    rewrite gt_finish by
      (change (2 ^ 24) with 16777216; change (2 ^ 23) with 8388608; lia).
    destruct (Z.lt_trichotomy sa sb) as [Hs|[Hs|Hs]].
    + rewrite (pow2_split sa sb) in HYb by lia.
      pose proof (pow2_ge (sb - sa) 1 ltac:(lia)) as HP. change (2 ^ 1) with 2 in HP.
      destruct (Z.ltb_spec (-24) (sb - sa - 24)); [|lia]. cbn [orb].
      symmetry. apply Z.ltb_lt.
      apply (ratio_above (2 ^ sa) (2 ^ (sb - sa))); lia.
    + subst sb. destruct (Z.ltb_spec (-24) (sa - sa - 24)); [lia|].
      destruct (Z.eqb_spec (sa - sa - 24) (-24)); [|lia]. cbn [orb andb].
      rewrite (round_24 (Zpos X) (Zpos Y)); try assumption;
        try (change (2 ^ 24) with 16777216; change (2 ^ 23) with 8388608; lia).
      * rewrite HXa, HYb. apply scaled_lt. assumption.
      * change (2 ^ 23) with 8388608. rewrite HXa, HYb.
        apply scaled_tie; assumption.
    + rewrite (pow2_split sb sa) in HXa by lia.
      pose proof (pow2_ge (sa - sb) 1 ltac:(lia)) as HP. change (2 ^ 1) with 2 in HP.
      destruct (Z.ltb_spec (-24) (sb - sa - 24)); [lia|].
      destruct (Z.eqb_spec (sb - sa - 24) (-24)); [lia|]. cbn [orb andb].
      symmetry. apply Z.ltb_ge. apply Z.nlt_ge.
      apply (ratio_below (2 ^ sb) (2 ^ (sa - sb))); lia.
  - pose proof (quot_25 (Zpos X) (Zpos Y) q r) as Hq.
    change (2 ^ 24) with 16777216 in *. change (2 ^ 23) with 8388608 in *.
    specialize (Hq ltac:(lia) ltac:(lia) ltac:(lia) Hdiv Hrem).
    destruct q as [|qp|qp]; try lia.
    rewrite round_aux_25 by
      (change (2 ^ 24) with 16777216; change (2 ^ 25) with 33554432; lia).
    pose proof (rne_bounds (Zpos qp / 2)
                  (loc_half (Z.odd (Zpos qp)) (inexact (loc_of (Zpos Y) r)))) as Hrb.
    assert (Hhalf : 8388608 <= Zpos qp / 2 < 16777216).
    { split; [apply Z.div_le_lower_bound; lia|apply Z.div_lt_upper_bound; lia]. }
    rewrite gt_finish by
      (change (2 ^ 24) with 16777216; change (2 ^ 23) with 8388608; lia).
    destruct (Z.lt_trichotomy sa (sb + 1)) as [Hs|[Hs|Hs]].
    + rewrite (pow2_split sa sb) in HYb by lia.
      pose proof (pow2_pos (sb - sa) ltac:(lia)) as HP.
      destruct (Z.ltb_spec (-24) (sb - sa - 24 + 1)); [|lia]. cbn [orb].
      symmetry. apply Z.ltb_lt.
      apply (ratio_at_least (2 ^ sa) (2 ^ (sb - sa))); lia.
    + subst sa. destruct (Z.ltb_spec (-24) (sb - (sb + 1) - 24 + 1)); [lia|].
      destruct (Z.eqb_spec (sb - (sb + 1) - 24 + 1) (-24)); [|lia]. cbn [orb andb].
      rewrite Z.pow_add_r in HXa by lia. change (2 ^ 1) with 2 in HXa.
      rewrite (round_25 (Zpos X) (Zpos Y) _ r); try reflexivity; try assumption;
        try (change (2 ^ 24) with 16777216; change (2 ^ 23) with 8388608; lia).
      * replace (2 * Zpos X) with (4 * (a * 2 ^ sb)) by lia. rewrite HYb.
        apply scaled_lt. assumption.
      * change (2 ^ 23) with 8388608.
        replace (2 * Zpos X) with (4 * (a * 2 ^ sb)) by lia. rewrite HYb.
        apply scaled_tie; assumption.
    + rewrite (pow2_split sb sa) in HXa by lia.
      pose proof (pow2_ge (sa - sb) 2 ltac:(lia)) as HP. change (2 ^ 2) with 4 in HP.
      destruct (Z.ltb_spec (-24) (sb - sa - 24 + 1)); [lia|].
      destruct (Z.eqb_spec (sb - sa - 24 + 1) (-24)); [lia|]. cbn [orb andb].
      symmetry. apply Z.ltb_ge. apply Z.nlt_ge.
      apply (ratio_below_half (2 ^ sb) (2 ^ (sa - sb))); lia.
Qed.

(** Above [TABLE_SIZE_MAX] the rounding can hide an excess: with 8388609
    slots and 6291456 entries the exact quotient 6291457 / 8388609 is above
    0.75 by less than half a unit in the last place, and the test of
    [addString] does not fire. *)
Lemma load_test_rounds_down :
  load_exceeds (mkHashTable None (2 ^ 23 + 1) (3 * 2 ^ 21)) = false /\
  3 * (2 ^ 23 + 1) < 4 * (3 * 2 ^ 21 + 1).
Proof. split; [vm_compute; reflexivity|lia]. Qed.

(** ** One call of [addString] *)

Lemma load_exceeds_spec ht :
  0 <= ht_count ht -> ht_count ht + 1 < 2 ^ 24 ->
  0 < ht_size ht <= TABLE_SIZE_MAX ->
  load_exceeds ht = (3 * ht_size ht <? 4 * (ht_count ht + 1)).
Proof.
  unfold TABLE_SIZE_MAX. intros Hc Hc' Hs.
  unfold load_exceeds, recalcLoadFactor, HASH_LOAD_FACTOR. cbn [fst].
  rewrite add_small by (unfold Int.in_range, Int.MIN, Int.MAX; lia).
  apply load_test; lia.
Qed.

Lemma add_loop_ok size0 seen ht d s :
  table_ok size0 seen ht d -> is_text s = true ->
  4 * (ht_count ht + 1) <= 3 * ht_size ht ->
  ht_size ht <= HASH_SIZE_MAX -> Z.of_nat (length seen) < Int.MAX ->
  exists ht' d',
    add_loop (probe_fuel (ht_size ht)) heap_ok ht s
             (poly_hash s (ht_size ht)) (poly_hash s (ht_size ht)) = Ret (ht', []) /\
    table_ok size0 (seen ++ [s]) ht' d' /\
    add_effect seen s ht ht' d.
Proof.
  intros Hok Hs Hload Hmax Hseen.
  pose proof (ok_size _ _ _ _ Hok) as Hsz.
  pose proof (ok_count _ _ _ _ Hok) as Hcnt.
  assert (Himax : ht_size ht <= Int.MAX)
    by (unfold HASH_SIZE_MAX, Int.MAX in *; lia).
  destruct (probe_stops size0 seen ht d s Hok) as (k & w & Hk & Hw & Hstop); [lia|].
  rewrite (add_loop_spec heap_ok ht d s _ k w (ok_dict _ _ _ _ Hok)
             (conj Hsz Himax) (poly_hash_range s _ Hsz) Hk Hw).
  destruct (in_dec string_dec s seen) as [Hin|Hnin].
  - pose proof (probe_finds size0 seen ht d s Hok Hs k w Hin Hk Hw) as ->.
    eexists _, _. split; [reflexivity|]. split.
    + apply update_keeps_ok; auto.
    + left. split; [assumption|]. eexists. split; [eassumption|].
      unfold place. cbn [w_str w_count].
      pose proof (multiplicity_le seen s).
      rewrite add_small by (unfold Int.in_range, Int.MIN, Int.MAX in *; lia).
      reflexivity.
  - pose proof (probe_misses size0 seen ht d s Hok Hs k w Hnin Hk Hw) as Hfree.
    eexists _, _. split; [reflexivity|]. split.
    + apply insert_keeps_ok; auto.
    + right. split; [assumption|]. eexists _, _.
      split; [eassumption|]. split; [assumption|].
      unfold place. rewrite Hfree. cbn [strdup strdup_ok heap_ok].
      rewrite cstr_text by assumption.
      rewrite add_small by (unfold Int.in_range, Int.MIN, Int.MAX in *; lia).
      reflexivity.
Qed.

Lemma grow_keeps_ok size0 seen ht d :
  table_ok size0 seen ht d -> 2 * ht_size ht <= HASH_SIZE_MAX ->
  3 * ht_size ht < 4 * (ht_count ht + 1) ->
  exists d',
    growHashTable heap_ok ht =
      Ret (0, mkHashTable (Some d') (2 * ht_size ht) (ht_count ht)) /\
    table_ok size0 seen (mkHashTable (Some d') (2 * ht_size ht) (ht_count ht)) d' /\
    entries d' ≡ₚ entries d.
Proof.
  intros Hok Hmax Hload.
  destruct (growHashTable_spec ht d (table_ok_shaped _ _ _ _ Hok) Hmax)
    as (d' & Hrun & Hre).
  pose proof (ok_size _ _ _ _ Hok) as Hpos.
  pose proof (rehash_length (2 * ht_size ht) _ _ ltac:(lia) Hre) as Hlen.
  pose proof (rehash_entries _ _ _ Hre) as Hperm.
  pose proof (rehash_chained (2 * ht_size ht) _ _ ltac:(lia) Hre) as Hch.
  exists d'. split; [assumption|]. split; [|assumption].
  destruct Hok as [Hd Hl Hsz Hcnt Hld Hgr Hsn Hnd Hmu Hme _].
  split; cbn [ht_dict ht_size ht_count]; auto; try lia.
  - rewrite (Permutation_length Hperm). assumption.
  - rewrite Hperm. assumption.
  - intros s c Hin. apply Hmu. rewrite <- Hperm. assumption.
  - intros s Hin. rewrite Hperm. auto.
Qed.

Lemma table_ok_bounds size0 seen ht d :
  table_ok size0 seen ht d ->
  0 < size0 <= TABLE_SIZE_MAX -> Z.of_nat (length seen) < INSERTIONS_MAX ->
  0 <= ht_count ht /\ ht_count ht + 1 < 2 ^ 24 /\ 0 < ht_size ht <= TABLE_SIZE_MAX.
Proof.
  unfold TABLE_SIZE_MAX, INSERTIONS_MAX.
  intros [_ _ Hsz Hcnt _ Hgr Hsn _ _ _ _] H0 Hn. lia.
Qed.

(** The two steps of [addString] on a table that satisfies the invariant:
    the table is grown exactly when one more entry would take the load factor
    over 0.75, and then the probe places the string; nothing is written to
    [stderr], and the invariant holds again. *)
Lemma addString_steps size0 seen ht d s :
  table_ok size0 seen ht d -> is_text s = true ->
  0 < size0 <= TABLE_SIZE_MAX -> Z.of_nat (length seen) < INSERTIONS_MAX ->
  exists ht1 d1 ht' d',
    (if 3 * ht_size ht <? 4 * (ht_count ht + 1)
     then growHashTable heap_ok ht = Ret (0, ht1) /\
          ht_size ht1 = 2 * ht_size ht /\ ht_count ht1 = ht_count ht
     else ht1 = ht) /\
    table_ok size0 seen ht1 d1 /\
    entries d1 ≡ₚ entries d /\
    addString heap_ok ht (Some s) =
      add_loop (probe_fuel (ht_size ht1)) heap_ok ht1 s
               (poly_hash s (ht_size ht1)) (poly_hash s (ht_size ht1)) /\
    addString heap_ok ht (Some s) = Ret (ht', []) /\
    table_ok size0 (seen ++ [s]) ht' d' /\
    add_effect seen s ht1 ht' d1.
Proof.
  intros Hok Hs H0 Hn.
  destruct (table_ok_bounds _ _ _ _ Hok H0 Hn) as (Hc0 & Hc1 & Hsz).
  pose proof (ok_load _ _ _ _ Hok) as Hld.
  unfold addString. rewrite load_exceeds_spec by assumption.
  unfold TABLE_SIZE_MAX, INSERTIONS_MAX in *.
  destruct (Z.ltb_spec (3 * ht_size ht) (4 * (ht_count ht + 1))) as [Hgrow|Hstay].
  - destruct (grow_keeps_ok size0 seen ht d Hok) as (d1 & Hrun & Hok1 & Hperm);
      [unfold HASH_SIZE_MAX; lia|assumption|].
    rewrite Hrun. cbn [bind snd deref ht_size].
    rewrite hash_text by (unfold HASH_SIZE_MAX; auto; lia). cbn [bind].
    destruct (add_loop_ok size0 seen _ d1 s Hok1 Hs) as (ht' & d' & Hadd & Hok' & Heff);
      cbn [ht_size ht_count]; try (unfold HASH_SIZE_MAX, Int.MAX; lia).
    cbn [ht_size] in Hadd.
    exists (mkHashTable (Some d1) (2 * ht_size ht) (ht_count ht)), d1, ht', d'.
    cbn [ht_size ht_count]. rewrite Hadd. auto 10.
  - cbn [bind deref].
    rewrite hash_text by (unfold HASH_SIZE_MAX; auto; lia). cbn [bind].
    destruct (add_loop_ok size0 seen ht d s Hok Hs) as (ht' & d' & Hadd & Hok' & Heff);
      try (unfold HASH_SIZE_MAX, Int.MAX; lia).
    exists ht, d, ht', d'. rewrite Hadd. auto 10.
Qed.

Lemma addString_ok size0 seen ht d s :
  table_ok size0 seen ht d -> is_text s = true ->
  0 < size0 <= TABLE_SIZE_MAX -> Z.of_nat (length seen) < INSERTIONS_MAX ->
  exists ht' d',
    addString heap_ok ht (Some s) = Ret (ht', []) /\
    table_ok size0 (seen ++ [s]) ht' d'.
Proof.
  intros Hok Hs H0 Hn.
  destruct (addString_steps size0 seen ht d s Hok Hs H0 Hn)
    as (ht1 & d1 & ht' & d' & _ & _ & _ & _ & Hrun & Hok' & _).
  eauto.
Qed.

(** ** Sequences of insertions *)

Lemma addStrings_ok size0 : forall strs seen ht d,
  table_ok size0 seen ht d ->
  Forall (fun s => is_text s = true) strs ->
  0 < size0 <= TABLE_SIZE_MAX ->
  Z.of_nat (length seen + length strs) <= INSERTIONS_MAX ->
  exists ht' d',
    addStrings ht strs = Ret (ht', []) /\ table_ok size0 (seen ++ strs) ht' d'.
Proof.
  induction strs as [|s strs IH]; intros seen ht d Hok Htext H0 Hn.
  - exists ht, d. rewrite app_nil_r. auto.
  - apply Forall_cons_1 in Htext as [Hs Htext]. cbn [length] in Hn.
    destruct (addString_ok size0 seen ht d s Hok Hs H0) as (ht1 & d1 & Hrun & Hok1);
      [lia|].
    destruct (IH (seen ++ [s]) ht1 d1 Hok1 Htext H0) as (ht' & d' & Hrun' & Hok').
    { rewrite length_app. cbn [length]. lia. }
    exists ht', d'. cbn [addStrings]. rewrite Hrun. cbn [bind fst snd].
    rewrite Hrun'. cbn [bind fst snd app]. rewrite <- app_assoc in Hok'. auto.
Qed.

Lemma createHashTable_ok size0 :
  0 <= size0 ->
  createHashTable heap_ok size0 =
  (Some (mkHashTable (Some (repeat zero_word (Z.to_nat size0))) size0 0), []).
Proof.
  intros H. unfold createHashTable, calloc. cbn [malloc_ok calloc_ok heap_ok negb andb].
  destruct (Z.leb_spec 0 size0); [reflexivity|lia].
Qed.

Lemma reached_ok size0 seen ht :
  0 < size0 <= TABLE_SIZE_MAX -> Z.of_nat (length seen) <= INSERTIONS_MAX ->
  all_text seen -> reached size0 seen ht ->
  exists d, table_ok size0 seen ht d.
Proof.
  intros H0 Hn Htext (ht0 & Hcreate & Hrun).
  rewrite createHashTable_ok in Hcreate by lia. injection Hcreate as <-.
  destruct (addStrings_ok size0 seen [] _ _ (table_ok_new size0 ltac:(lia)) Htext H0)
    as (ht' & d' & Hrun' & Hok); [cbn [length]; lia|].
  rewrite Hrun in Hrun'. injection Hrun' as ->. eauto.
Qed.


(** ** Uniqueness and counts *)




(** ** The validator, the count query, a concrete run *)

Lemma strlen_nonneg s : 0 <= strlen s.
Proof. induction s as [|c s IH]; simpl; [lia|]. destruct (is_nul c); lia. Qed.



(** The first five insertions of the driver: three entries in a table that
    keeps its 11 slots. *)
Example five_insertions :
  let ht := built 11 ["hello"; "world"; "hello"; "world"; "aaaaa"]%string in
  entries (dict_of ht) = [("aaaaa", 1); ("hello", 2); ("world", 2)]%string /\
  ht_count ht = 3 /\ ht_size ht = 11.
Proof. vm_compute. repeat split; reflexivity. Qed.

(** Eight distinct words leave the table at 11 slots; the ninth makes it
    grow to 22 slots before it is placed. *)
Example growth_at_the_ninth :
  ht_size (built 11 eight_words) = 11 /\ ht_count (built 11 eight_words) = 8 /\
  ht_size (built 11 (eight_words ++ ["iiiii"%string])) = 22 /\
  ht_count (built 11 (eight_words ++ ["iiiii"%string])) = 9.
Proof. vm_compute. repeat split; reflexivity. Qed.

(** ** Indices below zero, lengths above [INT_MAX] *)

Lemma get_negative {A : Type} (d : list A) (i : Z) : i < 0 -> get d i = Fault.
Proof.
  intros Hi. unfold get, slot. destruct (Z.leb_spec 0 i); [lia|]. reflexivity.
Qed.

(** The probe of [addString] reads the slot at its index first. *)
Lemma add_loop_negative fuel m ht d s start i :
  ht_dict ht = Some d -> i < 0 -> add_loop (S fuel) m ht s start i = Fault.
Proof.
  intros Hd Hi. cbn [add_loop]. rewrite Hd. cbn [deref bind].
  rewrite get_negative by assumption. reflexivity.
Qed.

Lemma addString_negative m ht d s i :
  ht_dict ht = Some d -> load_exceeds ht = false ->
  hash s (ht_size ht) = Ret i -> i < 0 ->
  addString m ht (Some s) = Fault.
Proof.
  intros Hd Hload Hh Hi. unfold addString. rewrite Hload. cbn [bind deref].
  rewrite Hh. cbn [bind]. unfold probe_fuel.
  apply (add_loop_negative _ m ht d); assumption.
Qed.

Lemma strlen_letters n : strlen (letters n) = Z.of_nat n.
Proof.
  induction n as [|n IH]; [reflexivity|].
  cbn [letters strlen]. change (is_nul "a") with false. cbv iota. lia.
Qed.

Lemma strlen_long_string : strlen long_string = 2 ^ 32 + 5.
Proof.
  unfold long_string. rewrite strlen_letters. apply Z2Nat.id.
  vm_compute. discriminate.
Qed.

(** * The claims *)

(** C1, on the code: a string with a byte above 127 passes [checkString],
    [hash] returns -1 for it against 11 slots, and [addString] reads the
    slot at index -1, outside the array: the insertion into the table that
    [createHashTable] has just returned leaves no table at all. Plain ASCII
    meets the same end when the capacity is above [HASH_SIZE_MAX]: against
    60000000 slots the accumulator of [hash] leaves the range of [int] on
    "counter", the index is negative, and [addString] reads outside the
    array whatever the slots hold. *)
Theorem addString_high_byte :
  checkString (Some high_byte) = 0 /\
  createHashTable heap_ok 11 = (Some (built 11 []), []) /\
  hash high_byte 11 = Ret (-1) /\
  addString heap_ok (built 11 []) (Some high_byte) = Fault /\
  addStrings (built 11 []) [high_byte] = Fault /\
  checkString (Some "counter"%string) = 0 /\
  hash "counter" 60000000 = Ret (-5862256) /\
  forall d, addString heap_ok (mkHashTable (Some d) 60000000 0)
                      (Some "counter"%string) = Fault.
Proof.
  do 7 (split; [vm_compute; reflexivity|]).
  intros d. apply (addString_negative _ _ d _ (-5862256)).
  - reflexivity.
  - vm_compute. reflexivity.
  - vm_compute. reflexivity.
  - lia.
Qed.

(** C2, on the code: with 8388609 slots and 6291456 entries the quotient
    6291457 / 8388609 is above 0.75, but [recalcLoadFactor] rounds it to
    binary32, where it is 0.75, and the test of [addString] does not fire.
    Whatever the slots hold and whatever the string, [addString] goes
    straight to the probe in the table as it is; a string whose probe stops
    at a free slot at once is placed there, and the table is left with
    6291457 entries in 8388609 slots, a load above 0.75. *)
Theorem load_factor_exceeded (d : list Word) (s : string) :
  let ht := mkHashTable (Some d) (2 ^ 23 + 1) (3 * 2 ^ 21) in
  load_exceeds ht = false /\
  3 * ht_size ht < 4 * (ht_count ht + 1) /\
  addString heap_ok ht (Some s) =
    (index <- hash s (ht_size ht) ;;
     add_loop (probe_fuel (ht_size ht)) heap_ok ht s index index) /\
  (forall index w,
     hash s (ht_size ht) = Ret index -> slot d index = Some w -> w_str w = None ->
     exists ht',
       addString heap_ok ht (Some s) = Ret (ht', []) /\
       ht_size ht' = ht_size ht /\
       ht_count ht' = ht_count ht + 1 /\
       3 * ht_size ht' < 4 * ht_count ht').
Proof.
  intros ht.
  assert (Hload : load_exceeds ht = false).
  { change (load_exceeds ht)
      with (load_exceeds (mkHashTable None (2 ^ 23 + 1) (3 * 2 ^ 21))).
    apply load_test_rounds_down. }
  assert (Hadd : addString heap_ok ht (Some s) =
    (index <- hash s (ht_size ht) ;;
     add_loop (probe_fuel (ht_size ht)) heap_ok ht s index index)).
  { unfold addString. rewrite Hload. reflexivity. }
  split; [exact Hload|]. split; [vm_compute; reflexivity|]. split; [exact Hadd|].
  intros index w Hh Hw Hfree. rewrite Hadd, Hh. cbn [bind].
  unfold probe_fuel. cbn [add_loop]. subst ht. cbn [ht_dict ht_size ht_count deref bind].
  unfold get, set. rewrite Hw. cbn [deref bind]. rewrite Hfree. cbn [bind].
  eexists. split; [reflexivity|]. cbn [ht_size ht_count].
  split; [reflexivity|]. split; vm_compute; reflexivity.
Qed.

(** C3, on the code: the string [accented] passes [checkString] and hashes
    to 2 against 11 slots, so [addString] stores it; against 22 slots
    [hash] returns -20 for it. [growHashTable] on the table that holds it
    then looks at the slot of the new array at index -20, outside the array,
    and no grown table results. [addString] runs into this on its own: with
    [accented] and seven more words in 11 slots, the next insertion, of a
    new word or of one that is stored already, asks for the growth. *)
Theorem growHashTable_negative_index :
  checkString (Some accented) = 0 /\
  hash accented 11 = Ret 2 /\ hash accented 22 = Ret (-20) /\
  reached 11 [accented] (built 11 [accented]) /\
  growHashTable heap_ok (built 11 [accented]) = Fault /\
  reached 11 (accented :: seven_words) (built 11 (accented :: seven_words)) /\
  ht_size (built 11 (accented :: seven_words)) = 11 /\
  ht_count (built 11 (accented :: seven_words)) = 8 /\
  growHashTable heap_ok (built 11 (accented :: seven_words)) = Fault /\
  addString heap_ok (built 11 (accented :: seven_words)) (Some "hhhhh"%string) = Fault /\
  addString heap_ok (built 11 (accented :: seven_words)) (Some "aaaaa"%string) = Fault.
Proof.
  do 3 (split; [vm_compute; reflexivity|]).
  split; [eexists; split; [reflexivity|vm_compute; reflexivity]|].
  split; [vm_compute; reflexivity|].
  split; [eexists; split; [reflexivity|vm_compute; reflexivity]|].
  repeat split; vm_compute; reflexivity.
Qed.

(** C4, on the code: a byte above 127 is a negative [char], and the
    remainder of a negative accumulator is negative, so [hash] returns -1 for
    a capacity of 11 where the rolling hash of the specification gives 2; and
    for a capacity above [HASH_SIZE_MAX] the accumulator times 37 leaves the
    range of [int] even on 7-bit text. *)
Theorem hash_leaves_table :
  hash (String "233" EmptyString) 11 = Ret (-1) /\
  poly_hash (String "233" EmptyString) 11 = 2 /\
  hash "~~~~~~~~" 1000000000 = Ret (-158574064) /\
  poly_hash "~~~~~~~~" 1000000000 = 678088720.
Proof. repeat split; vm_compute; reflexivity. Qed.

(** C5, the claim as stated fails: [addString] does not validate. The empty
    string, which [checkString] rejects, is stored as a new entry without
    any message, and a null string makes [addString] read through NULL. *)
Lemma addString_does_not_validate :
  malformed (Some ""%string) /\ checkString (Some ""%string) = -1 /\
  addString heap_ok (built 11 []) (Some ""%string) =
    Ret (mkHashTable
           (Some (<[0%nat := mkWord (Some ""%string) 1]> (dict_of (built 11 []))))
           11 1, []) /\
  ht_count (built 11 []) = 0 /\
  malformed None /\
  addString heap_ok (built 11 []) None = Fault.
Proof.
  split; [left; vm_compute; reflexivity|]. repeat split; vm_compute; reflexivity.
Qed.

(** C5, amended. For every malformed insertion input whose length fits an
    [int] (a null string, or a string of at most [INT_MAX] characters whose
    length is outside [[MIN_STRING_SIZE, MAX_STRING_SIZE]]) the validator
    [checkString] signals the validation error: it returns -1. It is a
    function of the string alone, so it reads and changes no table. *)
Theorem checkString_rejects_malformed (str : option string) :
  length_fits str -> malformed str -> checkString str = -1.
Proof.
  intros Hfit Hbad. destruct str as [s|]; [|reflexivity].
  cbn [checkString length_fits malformed] in *.
  pose proof (strlen_nonneg s) as H0.
  rewrite wrap_small by (unfold Int.in_range, Int.MIN, Int.MAX in *; lia).
  destruct (Z.ltb_spec (strlen s) MIN_STRING_SIZE); [reflexivity|].
  destruct (Z.gtb_spec (strlen s) MAX_STRING_SIZE); [reflexivity|lia].
Qed.

Lemma checkString_rejects_malformed_witness :
  length_fits (Some ""%string) /\ malformed (Some ""%string) /\
  checkString (Some ""%string) = -1.
Proof.
  assert (Hf : length_fits (Some ""%string)) by (vm_compute; discriminate).
  assert (Hm : malformed (Some ""%string)) by (left; vm_compute; reflexivity).
  split; [exact Hf|]. split; [exact Hm|].
  exact (checkString_rejects_malformed (Some ""%string) Hf Hm).
Defined.

(** C6, on the code: [growHashTable] never looks at what [calloc] returned.
    When [calloc] fails on a table without entries, the call frees the old
    slot array, installs the null pointer as the new one, doubles the size
    and returns 0, and the insertion that asked for the growth then reads
    through that null pointer; on a table with entries the rehash itself
    reads through the null pointer. *)
Theorem growHashTable_unchecked_calloc :
  growHashTable calloc_fails (built 1 []) = Ret (0, mkHashTable None 2 0) /\
  ht_dict (built 1 []) = Some [zero_word] /\
  addString calloc_fails (built 1 []) (Some "a"%string) = Fault /\
  growHashTable calloc_fails (built 11 eight_words) = Fault /\
  addString calloc_fails (built 11 eight_words) (Some "iiiii"%string) = Fault.
Proof. repeat split; vm_compute; reflexivity. Qed.







(** C9, on the code: the loop of [createLookupTable] reads the 9 bytes at
    indices 0 to [sizeof(illegal)] = 8, whatever the size of the set. For the
    nine marks of the driver this marks each of them; for a set of ten
    characters the tenth stays marked as legal; for a set of two characters
    the loop reads past the end of the array. *)
Theorem createLookupTable_reads_nine :
  (exists t, createLookupTable heap_ok nine_marks = Ret (Some t, []) /\
             forall c, In c nine_marks -> slot t (uchar c) = Some 1) /\
  (exists t, createLookupTable heap_ok (nine_marks ++ ["!"%char]) = Ret (Some t, []) /\
             In "!"%char (nine_marks ++ ["!"%char]) /\
             slot t (uchar "!") = Some 0) /\
  createLookupTable heap_ok [","%char; "*"%char] = Fault.
Proof.
  split; [|split].
  - eexists. split; [vm_compute; reflexivity|].
    intros c Hc. unfold nine_marks in Hc.
    repeat (destruct Hc as [<-|Hc]; [vm_compute; reflexivity|]). destruct Hc.
  - eexists. split; [vm_compute; reflexivity|]. split.
    + apply in_or_app. right. left. reflexivity.
    + vm_compute. reflexivity.
  - vm_compute. reflexivity.
Qed.

(** C10, on the code: [checkString] stores the result of [strlen] in an
    [int]. A string of 2^32 + 5 characters, far longer than
    [MAX_STRING_SIZE], is measured as 5 and accepted. *)
Theorem checkString_long_string :
  strlen long_string = 2 ^ 32 + 5 /\
  MAX_STRING_SIZE < strlen long_string /\
  Int.wrap (strlen long_string) = 5 /\
  checkString (Some long_string) = 0.
Proof.
  split; [exact strlen_long_string|]. split; [|split].
  - rewrite strlen_long_string. vm_compute. reflexivity.
  - rewrite strlen_long_string. vm_compute. reflexivity.
  - unfold checkString. rewrite strlen_long_string. vm_compute. reflexivity.
Qed.

(** * Further properties *)

(** ** The order of the insertions *)






(** The capacity, however, depends on the order: the re-insertion of a
    string counts towards the load-factor test like a new one. *)
Example capacity_depends_on_order :
  Permutation (eight_words ++ ["aaaaa"%string]) ("aaaaa"%string :: eight_words) /\
  ht_size (built 11 (eight_words ++ ["aaaaa"%string])) = 22 /\
  ht_size (built 11 ("aaaaa"%string :: eight_words)) = 11.
Proof.
  split; [|split; vm_compute; reflexivity].
  symmetry. apply Permutation_cons_append.
Qed.

(** ** The capacity *)





(** ** The probe that finds no slot *)




(** ** [addString] and the allocator *)

Lemma growHashTable_calloc m ht :
  calloc_ok m = true -> growHashTable m ht = growHashTable heap_ok ht.
Proof. intros H. unfold growHashTable. rewrite H. reflexivity. Qed.

(** One call of [addString], whatever [strdup] answers: the table is grown
    when the load-factor test fires, and the probe then stops at a slot
    [w], where the string is placed. *)
Lemma addString_probe size0 seen ht d s :
  table_ok size0 seen ht d -> is_text s = true ->
  0 < size0 <= TABLE_SIZE_MAX -> Z.of_nat (length seen) < INSERTIONS_MAX ->
  exists ht1 d1 k w,
    (if load_exceeds ht
     then ht_size ht1 = 2 * ht_size ht /\ ht_count ht1 = ht_count ht
     else ht1 = ht /\ d1 = d) /\
    table_ok size0 seen ht1 d1 /\
    entries d1 ≡ₚ entries d /\
    stops_at (stops_probe s) d1 (ht_size ht1) (poly_hash s (ht_size ht1)) k /\
    slot d1 ((poly_hash s (ht_size ht1) + k) mod ht_size ht1) = Some w /\
    0 <= ht_count ht1 < Int.MAX /\
    forall m, calloc_ok m = true \/ load_exceeds ht = false ->
      addString m ht (Some s) =
      Ret (place m ht1 d1 s ((poly_hash s (ht_size ht1) + k) mod ht_size ht1) w, []).
Proof.
  intros Hok Hs H0 Hn.
  destruct (table_ok_bounds _ _ _ _ Hok H0 Hn) as (Hc0 & Hc1 & Hsz).
  pose proof (ok_load _ _ _ _ Hok) as Hld.
  rewrite load_exceeds_spec by assumption.
  unfold TABLE_SIZE_MAX, INSERTIONS_MAX in *.
  destruct (Z.ltb_spec (3 * ht_size ht) (4 * (ht_count ht + 1))) as [Hgrow|Hstay].
  - destruct (grow_keeps_ok size0 seen ht d Hok) as (d1 & Hrun & Hok1 & Hperm);
      [unfold HASH_SIZE_MAX; lia|assumption|].
    destruct (probe_stops size0 seen _ d1 s Hok1) as (k & w & Hk & Hw & _);
      [cbn [ht_size ht_count]; lia|].
    exists (mkHashTable (Some d1) (2 * ht_size ht) (ht_count ht)), d1, k, w.
    cbn [ht_size ht_count] in *.
    split; [split; reflexivity|]. split; [assumption|]. split; [assumption|].
    split; [assumption|]. split; [assumption|]. split; [unfold Int.MAX; lia|].
    intros m [Hm|Hf]; [|discriminate Hf].
    unfold addString. rewrite load_exceeds_spec by (unfold TABLE_SIZE_MAX; assumption).
    destruct (Z.ltb_spec (3 * ht_size ht) (4 * (ht_count ht + 1))); [|lia].
    rewrite growHashTable_calloc, Hrun by assumption. cbn [bind snd deref ht_size].
    rewrite hash_text by (unfold HASH_SIZE_MAX; auto; lia). cbn [bind].
    apply (add_loop_spec m (mkHashTable (Some d1) (2 * ht_size ht) (ht_count ht))
             d1 s _ k w); cbn [ht_dict ht_size]; auto.
    + unfold Int.MAX. lia.
    + apply poly_hash_range. lia.
  - destruct (probe_stops size0 seen ht d s Hok) as (k & w & Hk & Hw & _); [lia|].
    exists ht, d, k, w.
    split; [split; reflexivity|]. split; [assumption|]. split; [reflexivity|].
    split; [assumption|]. split; [assumption|]. split; [unfold Int.MAX; lia|].
    intros m _.
    unfold addString. rewrite load_exceeds_spec by (unfold TABLE_SIZE_MAX; assumption).
    destruct (Z.ltb_spec (3 * ht_size ht) (4 * (ht_count ht + 1))); [lia|].
    cbn [bind deref].
    rewrite hash_text by (unfold HASH_SIZE_MAX; auto; lia). cbn [bind].
    apply (add_loop_spec m ht d s _ k w); auto.
    + apply Hok.
    + unfold Int.MAX. lia.
    + apply poly_hash_range. lia.
Qed.

(** X4. Counting a string that is already stored needs no memory. For every
    table reached by [createHashTable] with a capacity from 1 to 2^23 and
    fewer than 3 * 2^20 calls of [addString] on strings of 7-bit characters
    (every byte in 1..127), with memory for every allocation so far, and for
    every string present in it: unless the call has to grow the table with a
    [calloc] that fails, [addString] does what it does with an allocator
    that always finds memory, returns without a message and leaves the live
    count as it was; the result does not depend on what [malloc] and
    [strdup] would answer. *)
Theorem update_needs_no_memory (size0 : Z) (seen : list string) (s : string)
    (ht : HashTable) (m : allocator) :
  within_limits size0 (S (length seen)) -> all_text seen ->
  reached size0 seen ht -> In s seen ->
  calloc_ok m = true \/ load_exceeds ht = false ->
  addString m ht (Some s) = addString heap_ok ht (Some s) /\
  exists ht', addString m ht (Some s) = Ret (ht', []) /\ ht_count ht' = ht_count ht.
Proof.
  intros [H0 Hn] Hseen Hreach Hin Hm.
  assert (Hs : is_text s = true).
  { apply (proj1 (List.Forall_forall _ _) Hseen). assumption. }
  destruct (reached_ok size0 seen ht H0 ltac:(lia) Hseen Hreach) as [d Hok].
  assert (Hlen : Z.of_nat (length seen) < INSERTIONS_MAX) by lia.
  destruct (addString_probe size0 seen ht d s Hok Hs H0 Hlen)
    as (ht1 & d1 & k & w & Hgrow & Hok1 & _ & Hk & Hw & _ & Hrun).
  rewrite (probe_finds size0 seen ht1 d1 s Hok1 Hs k w Hin Hk Hw) in Hrun.
  rewrite (Hrun m Hm), (Hrun heap_ok (or_introl eq_refl)).
  unfold place. cbn [w_str w_count]. split; [reflexivity|].
  eexists. split; [reflexivity|]. cbn [ht_count].
  destruct (load_exceeds ht); [apply Hgrow|]. destruct Hgrow as [-> _]. reflexivity.
Qed.

Lemma update_needs_no_memory_witness :
  let m := mkAllocator false false false in
  within_limits 11 (S (length ["hello"%string])) /\ all_text ["hello"%string] /\
  reached 11 ["hello"%string] (built 11 ["hello"%string]) /\
  In "hello"%string ["hello"%string] /\
  (calloc_ok m = true \/ load_exceeds (built 11 ["hello"%string]) = false) /\
  addString m (built 11 ["hello"%string]) (Some "hello"%string) =
    addString heap_ok (built 11 ["hello"%string]) (Some "hello"%string) /\
  exists ht', addString m (built 11 ["hello"%string]) (Some "hello"%string) = Ret (ht', []) /\
              ht_count ht' = ht_count (built 11 ["hello"%string]).
Proof.
  intros m.
  assert (Hl : within_limits 11 (S (length ["hello"%string])))
    by (unfold within_limits, TABLE_SIZE_MAX, INSERTIONS_MAX; simpl; lia).
  assert (Ht : all_text ["hello"%string]) by (repeat constructor).
  assert (Hr : reached 11 ["hello"%string] (built 11 ["hello"%string])).
  { eexists. split; [reflexivity|]. vm_compute. reflexivity. }
  assert (Hin : In "hello"%string ["hello"%string]) by (left; reflexivity).
  assert (Hm : calloc_ok m = true \/ load_exceeds (built 11 ["hello"%string]) = false)
    by (right; vm_compute; reflexivity).
  split; [exact Hl|]. split; [exact Ht|]. split; [exact Hr|]. split; [exact Hin|].
  split; [exact Hm|].
  exact (update_needs_no_memory 11 ["hello"%string] "hello" _ m Hl Ht Hr Hin Hm).
Defined.






(** ** [hash] on any string *)





(** ** Sizes that [checkSize] rejects *)

Lemma hash_zero s : hash s 0 = Fault \/ hash s 0 = Ret 0.
Proof.
  unfold hash. destruct s as [|c s]; cbn [hash_loop]; [auto|].
  destruct (is_nul c); [auto|]. left. reflexivity.
Qed.

Lemma grow_empty m ht :
  ht_size ht = 0 ->
  exists nd, growHashTable m ht = Ret (0, mkHashTable nd 0 (ht_count ht)) /\
             (nd = None \/ nd = Some []).
Proof.
  intros E. unfold growHashTable. rewrite E. cbn [Z.to_nat grow_loop bind].
  eexists. split; [reflexivity|].
  unfold calloc. destruct (calloc_ok m); cbn; auto.
Qed.

Lemma add_loop_empty fuel m ht s i :
  ht_dict ht = None \/ ht_dict ht = Some [] -> fuel <> O ->
  add_loop fuel m ht s i i = Fault.
Proof.
  intros Hd Hf. destruct fuel as [|fuel]; [congruence|]. cbn [add_loop].
  destruct Hd as [-> | ->]; cbn [deref bind]; [reflexivity|].
  unfold get, slot. destruct (0 <=? i); reflexivity.
Qed.

Lemma addString_empty m ht str :
  ht_size ht = 0 -> ht_dict ht = None \/ ht_dict ht = Some [] ->
  addString m ht str = Fault.
Proof.
  intros E Hd. unfold addString.
  assert (Hstep : exists ht1,
             (if load_exceeds ht then r <- growHashTable m ht ;; Ret (snd r) else Ret ht)
             = Ret ht1 /\ ht_size ht1 = 0 /\
             (ht_dict ht1 = None \/ ht_dict ht1 = Some [])).
  { destruct (load_exceeds ht); [|eauto].
    destruct (grow_empty m ht E) as (nd & -> & Hnd). cbn [bind snd]. eauto. }
  destruct Hstep as (ht1 & -> & E1 & Hd1). cbn [bind].
  destruct str as [s|]; [|reflexivity]. cbn [deref bind]. rewrite E1.
  destruct (hash_zero s) as [-> | ->]; [reflexivity|]. cbn [bind].
  apply add_loop_empty; [assumption|]. unfold probe_fuel. lia.
Qed.

(** X8. [createHashTable] does not call [checkSize], and a size that
    [checkSize] rejects gives no usable table. For a negative size [calloc]
    cannot serve the request and [createHashTable] returns NULL with its
    message; for size 0 it returns a table without slots, and on that table
    every call of [addString] ends in undefined behaviour (a division by
    zero in [hash], or a read from the array of no slots), whatever the
    string and the allocator. *)
Theorem createHashTable_rejected_size (size : Z) (m : allocator) (str : option string) :
  checkSize size = -1 ->
  (size < 0 /\
   createHashTable heap_ok size =
     (None, ["Error: Could not allocate memory for dictionary."%string])) \/
  (size = 0 /\
   exists ht, createHashTable heap_ok size = (Some ht, []) /\
              addString m ht str = Fault).
Proof.
  unfold checkSize. intros H.
  destruct (Z.ltb_spec size 1) as [Hlt|Hge]; [|lia].
  destruct (Z.eq_dec size 0) as [->|Hne].
  - right. split; [reflexivity|]. eexists. split; [reflexivity|].
    apply addString_empty; cbn; auto.
  - left. split; [lia|]. unfold createHashTable, calloc.
    cbn [malloc_ok calloc_ok heap_ok negb andb].
    destruct (Z.leb_spec 0 size); [lia|reflexivity].
Qed.

Lemma createHashTable_rejected_size_witness :
  checkSize 0 = -1 /\
  ((0 < 0 /\
    createHashTable heap_ok 0 =
      (None, ["Error: Could not allocate memory for dictionary."%string])) \/
   (0 = 0 /\
    exists ht, createHashTable heap_ok 0 = (Some ht, []) /\
               addString heap_ok ht (Some "hello"%string) = Fault)).
Proof.
  split; [reflexivity|].
  exact (createHashTable_rejected_size 0 heap_ok (Some "hello"%string) eq_refl).
Defined.

(** ** [createLookupTable] on any array *)

Lemma lookup_loop_marks illegal : forall (n i : nat) l,
  (i + n <= length illegal)%nat -> length l = 128%nat ->
  (forall c, In c (take n (drop i illegal)) -> uchar c < 128) ->
  exists t,
    lookup_loop n (Z.of_nat i) illegal l = Ret t /\ length t = 128%nat /\
    forall x, 0 <= x ->
      slot t x = if existsb (fun c => uchar c =? x) (take n (drop i illegal))
                 then Some 1 else slot l x.
Proof.
  induction n as [|n IH]; intros i l Hlen Hl Hc.
  - exists l. rewrite take_0. cbn [lookup_loop existsb]. auto.
  - destruct (lookup_lt_is_Some_2 illegal i ltac:(lia)) as [c Hi].
    rewrite (drop_S _ _ _ Hi) in *. cbn [take] in *.
    change (firstn n (drop (S i) illegal)) with (take n (drop (S i) illegal)) in *.
    cbn [lookup_loop].
    assert (Hget : get illegal (Z.of_nat i) = Ret c).
    { apply get_Some. rewrite slot_of_nat. assumption. }
    rewrite Hget. cbn [bind].
    pose proof (uchar_range c) as Hr.
    assert (Hu : uchar c < 128) by (apply Hc; left; reflexivity).
    destruct (slot_in_range l (uchar c) ltac:(lia)) as [y Hy].
    rewrite (set_Some _ _ _ _ Hy). cbn [bind].
    replace (Z.of_nat i + 1) with (Z.of_nat (S i)) by lia.
    destruct (IH (S i) (<[Z.to_nat (uchar c) := 1]> l)) as (t & Hrun & Ht & Hslot).
    + lia.
    + rewrite length_insert. assumption.
    + intros c' Hc'. apply Hc. right. assumption.
    + exists t. split; [assumption|]. split; [assumption|].
      intros x Hx. rewrite (Hslot x Hx). cbn [existsb].
      destruct (existsb (fun c0 => uchar c0 =? x) (take n (drop (S i) illegal)));
        [rewrite orb_true_r; reflexivity|]. rewrite orb_false_r.
      destruct (Z.eqb_spec (uchar c) x) as [<-|Hne].
      * eapply slot_insert_eq; eauto.
      * apply slot_insert_ne; lia.
Qed.

Lemma lookup_loop_short illegal : forall (n i : nat) l,
  (length illegal < i + n)%nat -> (i <= length illegal)%nat ->
  lookup_loop n (Z.of_nat i) illegal l = Fault.
Proof.
  induction n as [|n IH]; intros i l Hlen Hi; [lia|].
  cbn [lookup_loop]. unfold get. rewrite slot_of_nat.
  destruct (illegal !! i) as [c|] eqn:E; cbn [deref bind]; [|reflexivity].
  unfold set. destruct (slot l (uchar c)); cbn [bind]; [|reflexivity].
  replace (Z.of_nat i + 1) with (Z.of_nat (S i)) by lia.
  apply lookup_lt_Some in E. apply IH; lia.
Qed.

Lemma lookup_loop_high illegal : forall (n i : nat) l c,
  length l = 128%nat -> In c (take n (drop i illegal)) -> 128 <= uchar c ->
  lookup_loop n (Z.of_nat i) illegal l = Fault.
Proof.
  induction n as [|n IH]; intros i l c Hl Hin Hc; [rewrite take_0 in Hin; destruct Hin|].
  cbn [lookup_loop]. unfold get. rewrite slot_of_nat.
  destruct (illegal !! i) as [c0|] eqn:E; cbn [deref bind]; [|reflexivity].
  rewrite (drop_S _ _ _ E) in Hin. cbn [take] in Hin.
  unfold set. destruct (slot l (uchar c0)) eqn:Hs; cbn [bind]; [|reflexivity].
  replace (Z.of_nat i + 1) with (Z.of_nat (S i)) by lia.
  destruct Hin as [->|Hin].
  - exfalso. apply slot_range in Hs. lia.
  - eapply IH; eauto. rewrite length_insert. assumption.
Qed.

(** X9. What [createLookupTable] marks. For every array of at least nine
    bytes whose first nine are below 128, [createLookupTable] returns a table
    of 128 entries without a message, in which the entry of a character code
    is 1 when the code is among the first nine bytes of the array and 0
    when it is not: the bytes of the array after the ninth are not
    marked. *)
Theorem createLookupTable_marks (illegal : list ascii) :
  (9 <= length illegal)%nat ->
  (forall c, In c (take 9 illegal) -> uchar c < 128) ->
  exists t,
    createLookupTable heap_ok illegal = Ret (Some t, []) /\
    length t = 128%nat /\
    forall x, 0 <= x < 128 ->
      slot t x = Some (if existsb (fun c => uchar c =? x) (take 9 illegal)
                       then 1 else 0).
Proof.
  intros Hlen Hc. unfold createLookupTable, calloc, ASCII_SIZE, SIZEOF_POINTER.
  cbn [calloc_ok heap_ok andb Z.leb Z.compare].
  change (Z.to_nat (8 + 1)) with 9%nat. change 0 with (Z.of_nat 0).
  destruct (lookup_loop_marks illegal 9 0 (repeat (Z.of_nat 0) (Z.to_nat 128)))
    as (t & Hrun & Ht & Hslot).
  - lia.
  - apply repeat_length.
  - rewrite drop_0. assumption.
  - rewrite Hrun. cbn [bind]. exists t. split; [reflexivity|]. split; [assumption|].
    intros x Hx. rewrite Hslot by lia. rewrite drop_0.
    destruct (existsb _ _); [reflexivity|]. apply slot_repeat. lia.
Qed.

Lemma createLookupTable_marks_witness :
  (9 <= length (nine_marks ++ ["!"%char]))%nat /\
  (forall c, In c (take 9 (nine_marks ++ ["!"%char])) -> uchar c < 128) /\
  exists t,
    createLookupTable heap_ok (nine_marks ++ ["!"%char]) = Ret (Some t, []) /\
    length t = 128%nat /\
    forall x, 0 <= x < 128 ->
      slot t x = Some (if existsb (fun c => uchar c =? x)
                                  (take 9 (nine_marks ++ ["!"%char]))
                       then 1 else 0).
Proof.
  assert (Hl : (9 <= length (nine_marks ++ ["!"%char]))%nat) by (simpl; lia).
  assert (Hc : forall c, In c (take 9 (nine_marks ++ ["!"%char])) -> uchar c < 128).
  { intros c Hin. simpl in Hin.
    repeat (destruct Hin as [<-|Hin]; [vm_compute; reflexivity|]). destruct Hin. }
  split; [exact Hl|]. split; [exact Hc|].
  exact (createLookupTable_marks (nine_marks ++ ["!"%char]) Hl Hc).
Defined.

(** X10. When [createLookupTable] runs into undefined behaviour. With memory
    for the table, the call reads outside its argument or writes outside
    the table exactly when the array has fewer than nine bytes or one of its
    first nine bytes is 128 or more; when [calloc] finds no memory, the call
    returns NULL with its message and reads nothing. *)
Theorem createLookupTable_faults (illegal : list ascii) :
  (createLookupTable heap_ok illegal = Fault <->
   (length illegal < 9)%nat \/ exists c, In c (take 9 illegal) /\ 128 <= uchar c) /\
  forall m, calloc_ok m = false ->
    createLookupTable m illegal =
    Ret (None, ["Error: Could not allocate memory for look-up table."%string]).
Proof.
  split.
  - split.
    + intros Hf.
      destruct (le_lt_dec 9 (length illegal)) as [Hlen|Hlen]; [|left; assumption].
      right.
      destruct (forallb (fun c => uchar c <? 128) (take 9 illegal)) eqn:Hall.
      * exfalso. rewrite forallb_forall in Hall.
        destruct (createLookupTable_marks illegal Hlen) as (t & Hrun & _).
        { intros c Hin. apply Z.ltb_lt. auto. }
        congruence.
      * assert (Hex : existsb (fun c => negb (uchar c <? 128)) (take 9 illegal) = true).
        { clear -Hall. induction (take 9 illegal) as [|c l IH]; [discriminate|].
          cbn [forallb existsb] in *.
          destruct (uchar c <? 128); cbn [negb andb orb] in *; auto. }
        apply existsb_exists in Hex as (c & Hin & Hc).
        exists c. split; [assumption|].
        destruct (Z.ltb_spec (uchar c) 128); [discriminate|lia].
    + unfold createLookupTable, calloc, ASCII_SIZE, SIZEOF_POINTER.
      cbn [calloc_ok heap_ok andb Z.leb Z.compare].
      change (Z.to_nat (8 + 1)) with 9%nat. change 0 with (Z.of_nat 0).
      intros [Hlen|(c & Hin & Hc)].
      * rewrite lookup_loop_short by lia. reflexivity.
      * rewrite (lookup_loop_high illegal 9 0 _ c); [reflexivity|apply repeat_length| |assumption].
        rewrite drop_0. assumption.
  - intros m Hm. unfold createLookupTable, calloc. rewrite Hm. reflexivity.
Qed.

(** ** The load-factor test *)

(** X11. The test [recalcLoadFactor(ht) > HASH_LOAD_FACTOR] of [addString]
    is exact on every table, reached or not, with a live count from 0 to
    [2^24 - 2] and a size from 1 to [TABLE_SIZE_MAX]: the binary32 quotient
    of [count + 1] by [size], promoted to [double], exceeds 0.75 exactly when
    [3 * size < 4 * (count + 1)], and nothing is written to [stderr]. For a
    null table the function writes its message and returns -1, which does
    not exceed 0.75. *)
Theorem recalcLoadFactor_test (ht : HashTable) :
  0 <= ht_count ht -> ht_count ht + 1 < 2 ^ 24 ->
  0 < ht_size ht <= TABLE_SIZE_MAX ->
  Float.gt (Float.to_double (fst (recalcLoadFactor (Some ht)))) HASH_LOAD_FACTOR
    = (3 * ht_size ht <? 4 * (ht_count ht + 1)) /\
  snd (recalcLoadFactor (Some ht)) = [] /\
  Float.gt (Float.to_double (fst (recalcLoadFactor None))) HASH_LOAD_FACTOR = false /\
  snd (recalcLoadFactor None) = ["Error: Null hash table."%string].
Proof.
  intros Hc Hc' Hs. split; [|repeat split].
  exact (load_exceeds_spec ht Hc Hc' Hs).
Qed.

Lemma recalcLoadFactor_test_witness :
  let ht := mkHashTable None 4 2 in
  0 <= ht_count ht /\ ht_count ht + 1 < 2 ^ 24 /\
  0 < ht_size ht <= TABLE_SIZE_MAX /\
  Float.gt (Float.to_double (fst (recalcLoadFactor (Some ht)))) HASH_LOAD_FACTOR
    = (3 * ht_size ht <? 4 * (ht_count ht + 1)) /\
  snd (recalcLoadFactor (Some ht)) = [] /\
  Float.gt (Float.to_double (fst (recalcLoadFactor None))) HASH_LOAD_FACTOR = false /\
  snd (recalcLoadFactor None) = ["Error: Null hash table."%string].
Proof.
  intros ht.
  assert (H1 : 0 <= ht_count ht) by (vm_compute; discriminate).
  assert (H2 : ht_count ht + 1 < 2 ^ 24) by (vm_compute; reflexivity).
  assert (H3 : 0 < ht_size ht <= TABLE_SIZE_MAX)
    by (vm_compute; split; [reflexivity|discriminate]).
  split; [exact H1|]. split; [exact H2|]. split; [exact H3|].
  exact (recalcLoadFactor_test ht H1 H2 H3).
Defined.

(** ** Blocks that are freed *)

Lemma release_app l k h : release (l ++ k) h = release k (release l h).
Proof. revert h. induction l as [|x l IH]; intros h; [reflexivity|]. apply IH. Qed.

Lemma length_release l : forall h, length (release l h) = length h.
Proof.
  induction l as [|x l IH]; intros h; [reflexivity|].
  cbn [release]. rewrite IH. apply length_insert.
Qed.

Lemma lookup_release_ne l : forall h x, x ∉ l -> release l h !! x = h !! x.
Proof.
  induction l as [|y l IH]; intros h x Hx; [reflexivity|].
  apply not_elem_of_cons in Hx as [Hne Hx]. cbn [release].
  rewrite IH by assumption. apply list_lookup_insert_ne. congruence.
Qed.

Lemma lookup_release_in l : forall h x,
  x ∈ l -> (x < length h)%nat -> release l h !! x = Some None.
Proof.
  induction l as [|y l IH]; intros h x Hx Hlen; [inversion Hx|].
  cbn [release]. destruct (decide (x ∈ l)) as [Hin|Hnin].
  - apply IH; [assumption|]. rewrite length_insert. assumption.
  - apply elem_of_cons in Hx as [->|Hx]; [|contradiction].
    rewrite lookup_release_ne by assumption. apply list_lookup_insert_eq. assumption.
Qed.

Lemma release_perm l k : l ≡ₚ k -> forall h, release l h = release k h.
Proof.
  induction 1 as [|x l k _ IH|x y l|l k j _ IH1 _ IH2]; intros h.
  - reflexivity.
  - apply IH.
  - cbn [release]. f_equal. destruct (decide (x = y)) as [->|Hne]; [reflexivity|].
    rewrite list_insert_insert. destruct (decide (x = y)); [contradiction|reflexivity].
  - rewrite IH1. apply IH2.
Qed.

Lemma load_live h a b : h !! a = Some (Some b) -> Mem.load h (Some a) = Ret b.
Proof. intros H. unfold Mem.load. rewrite H. reflexivity. Qed.

Lemma free_live h a b :
  h !! a = Some (Some b) -> Mem.free h (Some a) = Ret (<[a := None]> h).
Proof. intros H. unfold Mem.free. rewrite (load_live _ _ _ H). reflexivity. Qed.

Lemma store_live h a b b' :
  h !! a = Some (Some b) -> Mem.store h (Some a) b' = Ret (<[a := Some b']> h).
Proof. intros H. unfold Mem.store. rewrite (load_live _ _ _ H). reflexivity. Qed.

Lemma load_freed h a : h !! a = Some None -> Mem.load h (Some a) = Fault.
Proof. intros H. unfold Mem.load. rewrite H. reflexivity. Qed.

Lemma free_inv h a h' :
  Mem.free h (Some a) = Ret h' ->
  h' = <[a := None]> h /\ exists b, h !! a = Some (Some b).
Proof.
  unfold Mem.free, Mem.load. destruct (h !! a) as [[b|]|]; cbn [bind]; try discriminate.
  intros [= <-]. eauto.
Qed.

Lemma addrs_snoc ws w :
  addrs (ws ++ [w]) = addrs ws ++ match fst w with Some x => [x] | None => [] end.
Proof.
  unfold addrs. rewrite omap_app. f_equal; cbn; destruct (fst w); reflexivity.
Qed.

Lemma addrs_middle ws (i : nat) w :
  ws !! i = Some w ->
  addrs ws = addrs (take i ws) ++ match fst w with Some x => [x] | None => [] end
             ++ addrs (drop (S i) ws).
Proof.
  intros Hi. rewrite <- (take_drop_middle _ _ _ Hi) at 1.
  unfold addrs. rewrite omap_app. f_equal; cbn; destruct (fst w); reflexivity.
Qed.


Lemma elem_of_addrs ws x : x ∈ addrs ws <-> exists c, (Some x, c) ∈ ws.
Proof.
  unfold addrs. rewrite list_elem_of_omap. split.
  - intros ([p c] & Hin & Hp). cbn in Hp. subst p. eauto.
  - intros [c Hin]. exists (Some x, c). auto.
Qed.

(** The strings that the slots point to are live. *)
Lemma word_at_live h ws d x :
  Forall2 (word_at h) ws d -> x ∈ addrs ws ->
  exists s, h !! x = Some (Some (Mem.Chars s)).
Proof.
  intros Hall [c Hin]%elem_of_addrs.
  apply list_elem_of_lookup in Hin as [i Hi].
  destruct (Forall2_lookup_l _ _ _ _ _ Hall Hi) as (v & _ & _ & Hv).
  cbn [fst] in Hv. destruct Hv as (s & Hs & _). eauto.
Qed.

(** The loop of [freeHashTable] frees the strings in slot order. *)
Lemma free_loop_spec h a da ws size count :
  h !! a = Some (Some (Mem.Table (Some da) size count)) ->
  h !! da = Some (Some (Mem.Words ws)) ->
  NoDup (a :: da :: addrs ws) ->
  (forall x, x ∈ addrs ws -> exists b, h !! x = Some (Some b)) ->
  Z.of_nat (length ws) = size -> size <= Int.MAX ->
  forall fuel (i : nat),
    (i <= length ws)%nat -> (length ws - i < fuel)%nat ->
    Mem.free_loop fuel (release (addrs (take i ws)) h) (Some a) (Z.of_nat i)
    = Ret (release (addrs ws) h).
Proof.
  intros Ha Hda Hnd Hlive Hlen Hmax.
  apply NoDup_cons in Hnd as [Hna Hnd]. apply NoDup_cons in Hnd as [Hnda Hnd].
  apply not_elem_of_cons in Hna as [_ Hna].
  assert (Hsub : forall (i : nat) x, x ∈ addrs (take i ws) -> x ∈ addrs ws).
  { intros i x [c Hin]%elem_of_addrs. apply elem_of_addrs. exists c.
    apply list_elem_of_lookup in Hin as [j Hj]. rewrite lookup_take in Hj.
    destruct (decide (j < i)%nat); [|discriminate].
    apply list_elem_of_lookup. eauto. }
  induction fuel as [|fuel IH]; intros i Hi Hfuel; [lia|].
  cbn [Mem.free_loop]. unfold Mem.load_table, Mem.load_words.
  rewrite (load_live _ a (Mem.Table (Some da) size count)) by
    (rewrite lookup_release_ne by (intros Hin; apply Hna; eauto); assumption).
  cbn [bind fst snd].
  destruct (Z.ltb_spec (Z.of_nat i) size) as [Hlt|Hge].
  - rewrite (load_live _ da (Mem.Words ws)) by
      (rewrite lookup_release_ne by (intros Hin; apply Hnda; eauto); assumption).
    cbn [bind].
    destruct (lookup_lt_is_Some_2 ws i ltac:(lia)) as [w Hw].
    rewrite (get_Some ws (Z.of_nat i) w) by (rewrite slot_of_nat; assumption).
    cbn [bind].
    rewrite add_small by (unfold Int.in_range, Int.MIN, Int.MAX in *; lia).
    replace (Z.of_nat i + 1) with (Z.of_nat (S i)) by lia.
    assert (Hstep : Mem.free (release (addrs (take i ws)) h) (fst w)
                    = Ret (release (addrs (take (S i) ws)) h)).
    { rewrite (take_S_r _ _ _ Hw), addrs_snoc.
      destruct (fst w) as [x|] eqn:Hx.
      - rewrite release_app. cbn [release].
        assert (Hin : x ∈ addrs ws).
        { apply elem_of_addrs. exists (snd w). apply list_elem_of_lookup. exists i.
          rewrite Hw. f_equal. destruct w. cbn in *. congruence. }
        destruct (Hlive x Hin) as [b Hb].
        apply (free_live _ _ b). rewrite lookup_release_ne; [assumption|].
        rewrite (addrs_middle _ _ _ Hw), Hx in Hnd.
        apply NoDup_app in Hnd as (_ & Hdis & _).
        intros Hin'. apply (Hdis x Hin'). left.
      - rewrite app_nil_r. reflexivity. }
    rewrite Hstep. cbn [bind]. apply IH; lia.
  - rewrite take_ge by lia. reflexivity.
Qed.

(** The same for the loop of [freeDictionary]. *)
Lemma dict_loop_spec h da ws :
  h !! da = Some (Some (Mem.Words ws)) ->
  NoDup (da :: addrs ws) ->
  (forall x, x ∈ addrs ws -> exists b, h !! x = Some (Some b)) ->
  Z.of_nat (length ws) <= Int.MAX ->
  forall (n i : nat),
    (i + n = length ws)%nat ->
    Mem.dict_loop n (release (addrs (take i ws)) h) (Some da) (Z.of_nat i)
    = Ret (release (addrs ws) h).
Proof.
  intros Hda Hnd Hlive Hmax.
  apply NoDup_cons in Hnd as [Hnda Hnd].
  assert (Hsub : forall (i : nat) x, x ∈ addrs (take i ws) -> x ∈ addrs ws).
  { intros i x [c Hin]%elem_of_addrs. apply elem_of_addrs. exists c.
    apply list_elem_of_lookup in Hin as [j Hj]. rewrite lookup_take in Hj.
    destruct (decide (j < i)%nat); [|discriminate].
    apply list_elem_of_lookup. eauto. }
  induction n as [|n IH]; intros i Hi.
  - cbn [Mem.dict_loop]. rewrite take_ge by lia. reflexivity.
  - cbn [Mem.dict_loop]. unfold Mem.load_words.
    rewrite (load_live _ da (Mem.Words ws)) by
      (rewrite lookup_release_ne by (intros Hin; apply Hnda; eauto); assumption).
    cbn [bind].
    destruct (lookup_lt_is_Some_2 ws i ltac:(lia)) as [w Hw].
    rewrite (get_Some ws (Z.of_nat i) w) by (rewrite slot_of_nat; assumption).
    cbn [bind].
    rewrite add_small by (unfold Int.in_range, Int.MIN, Int.MAX in *; lia).
    replace (Z.of_nat i + 1) with (Z.of_nat (S i)) by lia.
    assert (Hstep : Mem.free (release (addrs (take i ws)) h) (fst w)
                    = Ret (release (addrs (take (S i) ws)) h)).
    { rewrite (take_S_r _ _ _ Hw), addrs_snoc.
      destruct (fst w) as [x|] eqn:Hx.
      - rewrite release_app. cbn [release].
        assert (Hin : x ∈ addrs ws).
        { apply elem_of_addrs. exists (snd w). apply list_elem_of_lookup. exists i.
          rewrite Hw. f_equal. destruct w. cbn in *. congruence. }
        destruct (Hlive x Hin) as [b Hb].
        apply (free_live _ _ b). rewrite lookup_release_ne; [assumption|].
        rewrite (addrs_middle _ _ _ Hw), Hx in Hnd.
        apply NoDup_app in Hnd as (_ & Hdis & _).
        intros Hin'. apply (Hdis x Hin'). left.
      - rewrite app_nil_r. reflexivity. }
    rewrite Hstep. cbn [bind]. apply IH; lia.
Qed.

(** What [table_at] gives for a table whose slot array is allocated. *)
Lemma table_at_dict h a ht owned d :
  table_at h a ht owned -> ht_dict ht = Some d ->
  exists da ws,
    h !! a = Some (Some (Mem.Table (Some da) (ht_size ht) (ht_count ht))) /\
    h !! da = Some (Some (Mem.Words ws)) /\
    Forall2 (word_at h) ws d /\ owned = a :: da :: addrs ws /\
    NoDup (a :: da :: addrs ws) /\ Z.of_nat (length d) = ht_size ht.
Proof.
  intros (dict & Ha & Hnd & Hdict) Hd. destruct dict as [da|].
  - destruct Hdict as (ws & d' & Hda & Hd' & Hlen & Hall & ->).
    assert (d' = d) as -> by congruence. eauto 10.
  - destruct Hdict as [Hnone _]. congruence.
Qed.

Lemma freeHashTable_spec h a ht owned d :
  table_at h a ht owned -> ht_dict ht = Some d -> ht_size ht <= Int.MAX ->
  Mem.freeHashTable h (Some a) = Ret (0, release owned h, []).
Proof.
  intros Hat Hd Hmax.
  destruct (table_at_dict _ _ _ _ _ Hat Hd)
    as (da & ws & Ha & Hda & Hall & -> & Hnd & Hlen).
  pose proof (Forall2_length _ _ _ Hall) as Hl.
  assert (Hlive : forall x, x ∈ addrs ws -> exists b, h !! x = Some (Some b)).
  { intros x Hx. destruct (word_at_live _ _ _ _ Hall Hx). eauto. }
  pose proof Hnd as Hnd'.
  apply NoDup_cons in Hnd' as [Hna Hnd']. apply NoDup_cons in Hnd' as [Hnda _].
  apply not_elem_of_cons in Hna as [Hne Hna].
  unfold Mem.freeHashTable, Mem.load_table.
  rewrite (load_live _ _ _ Ha). cbn [bind fst snd].
  pose proof (free_loop_spec h a da ws (ht_size ht) (ht_count ht) Ha Hda Hnd Hlive
                ltac:(lia) Hmax (S (Z.to_nat (ht_size ht))) 0%nat ltac:(lia) ltac:(lia))
    as Hloop.
  rewrite take_0 in Hloop. change (release (addrs []) h) with h in Hloop.
  change (Z.of_nat 0) with 0 in Hloop. rewrite Hloop. cbn [bind].
  rewrite (load_live _ a (Mem.Table (Some da) (ht_size ht) (ht_count ht))) by
    (rewrite lookup_release_ne by assumption; assumption).
  cbn [bind fst snd].
  rewrite (free_live _ da (Mem.Words ws)) by
    (rewrite lookup_release_ne by assumption; assumption).
  cbn [bind].
  rewrite (free_live _ a (Mem.Table (Some da) (ht_size ht) (ht_count ht))).
  - cbn [bind]. do 2 f_equal.
    change (<[a:=None]> (<[da:=None]> (release (addrs ws) h)))
      with (release [da; a] (release (addrs ws) h)).
    rewrite <- release_app. f_equal. apply release_perm.
    rewrite (Permutation_app_comm (addrs ws) [da; a]). cbn [app]. apply perm_swap.
  - rewrite list_lookup_insert_ne by congruence.
    rewrite lookup_release_ne by assumption. assumption.
Qed.

(** X13. [freeHashTable] frees the table and nothing else. For every heap
    that holds a table with its slot array, each string in a block of its
    own, [freeHashTable] returns 0 without a message, every block of the
    table (the [HashTable], the slot array, each string) is freed, and
    every other block of the heap is as it was. For a null pointer it
    returns -1 with its message and changes nothing. *)
Theorem freeHashTable_releases (h : Mem.heap) (a : nat) (ht : HashTable)
    (owned : list nat) (d : list Word) :
  table_at h a ht owned -> ht_dict ht = Some d -> ht_size ht <= Int.MAX ->
  exists h',
    Mem.freeHashTable h (Some a) = Ret (0, h', []) /\
    length h' = length h /\
    (forall x, x ∈ owned -> h' !! x = Some None) /\
    (forall x, x ∉ owned -> h' !! x = h !! x) /\
    Mem.freeHashTable h None = Ret (-1, h, ["Error: Null hash table."%string]).
Proof.
  intros Hat Hd Hmax. exists (release owned h).
  split; [eapply freeHashTable_spec; eauto|].
  split; [apply length_release|]. split; [|split; [|reflexivity]].
  - intros x Hx. apply lookup_release_in; [assumption|].
    destruct (table_at_dict _ _ _ _ _ Hat Hd) as (da & ws & Ha & Hda & Hall & -> & _ & _).
    apply elem_of_cons in Hx as [->|Hx]; [eapply lookup_lt_Some; eauto|].
    apply elem_of_cons in Hx as [->|Hx]; [eapply lookup_lt_Some; eauto|].
    destruct (word_at_live _ _ _ _ Hall Hx) as [s Hs]. eapply lookup_lt_Some; eauto.
  - intros x Hx. apply lookup_release_ne. assumption.
Qed.

Lemma freeHashTable_releases_witness :
  let h := [Some (Mem.Table (Some 1%nat) 2 1);
            Some (Mem.Words [(Some 2%nat, 1); (None, 0)]);
            Some (Mem.Chars "a")] in
  let d := [mkWord (Some "a"%string) 1; zero_word] in
  let ht := mkHashTable (Some d) 2 1 in
  table_at h 0 ht [0; 1; 2]%nat /\ ht_dict ht = Some d /\ ht_size ht <= Int.MAX /\
  exists h',
    Mem.freeHashTable h (Some 0%nat) = Ret (0, h', []) /\
    length h' = length h /\
    (forall x, x ∈ [0; 1; 2]%nat -> h' !! x = Some None) /\
    (forall x, x ∉ [0; 1; 2]%nat -> h' !! x = h !! x) /\
    Mem.freeHashTable h None = Ret (-1, h, ["Error: Null hash table."%string]).
Proof.
  intros h d ht.
  assert (Hat : table_at h 0 ht [0; 1; 2]%nat).
  { exists (Some 1%nat). split; [reflexivity|]. split.
    - compute_done.
    - exists [(Some 2%nat, 1); (None, 0)], d.
      split; [reflexivity|]. split; [reflexivity|]. split; [reflexivity|].
      split; [|reflexivity].
      repeat constructor. exists "a"%string. split; reflexivity. }
  assert (Hmax : ht_size ht <= Int.MAX) by (vm_compute; discriminate).
  split; [exact Hat|]. split; [reflexivity|]. split; [exact Hmax|].
  exact (freeHashTable_releases h 0 ht [0; 1; 2]%nat d Hat eq_refl Hmax).
Defined.

Lemma free_table_dangles h h' a r log :
  Mem.freeHashTable h (Some a) = Ret (r, h', log) ->
  r = 0 /\ log = [] /\ h' !! a = Some None /\
  Mem.load_table h' (Some a) = Fault.
Proof.
  unfold Mem.freeHashTable. intros Hrun.
  destruct (Mem.load_table h (Some a)) as [t| |]; cbn [bind] in Hrun; try discriminate.
  destruct (Mem.free_loop _ h (Some a) 0) as [h1| |]; cbn [bind] in Hrun;
    try discriminate.
  destruct (Mem.load_table h1 (Some a)) as [t1| |]; cbn [bind] in Hrun; try discriminate.
  destruct (Mem.free h1 (fst (fst t1))) as [h2| |]; cbn [bind] in Hrun; try discriminate.
  destruct (Mem.free h2 (Some a)) as [h3| |] eqn:Hfree; cbn [bind] in Hrun;
    try discriminate.
  injection Hrun as <- <- <-.
  apply free_inv in Hfree as (-> & b & Hb).
  assert (Hfreed : <[a := None]> h2 !! a = Some None).
  { apply list_lookup_insert_eq. eapply lookup_lt_Some; eauto. }
  split; [reflexivity|]. split; [reflexivity|]. split; [assumption|].
  unfold Mem.load_table. rewrite (load_freed _ _ Hfreed). reflexivity.
Qed.

(** X14. After [freeHashTable] the pointer dangles. Whatever the heap and
    the table: when [freeHashTable] returns for a pointer that is not null,
    it returns 0 without a message, the [HashTable] is freed, and every
    further use of the pointer is undefined behaviour: a read of a field
    through it, as the driver does, and a second call of [freeHashTable],
    which does not signal an error. *)
Theorem freeHashTable_dangling (h h' : Mem.heap) (a : nat) (r : Z)
    (log : list string) :
  Mem.freeHashTable h (Some a) = Ret (r, h', log) ->
  r = 0 /\ log = [] /\ h' !! a = Some None /\
  Mem.load_table h' (Some a) = Fault /\
  Mem.freeHashTable h' (Some a) = Fault.
Proof.
  intros Hrun.
  destruct (free_table_dangles _ _ _ _ _ Hrun) as (Hr & Hlog & Hfreed & Hload).
  repeat (split; [assumption|]).
  unfold Mem.freeHashTable. rewrite Hload. reflexivity.
Qed.

Lemma freeHashTable_dangling_witness :
  let h := [Some (Mem.Table (Some 1%nat) 2 1);
            Some (Mem.Words [(Some 2%nat, 1); (None, 0)]);
            Some (Mem.Chars "a")] in
  let h' := [None; None; None] in
  Mem.freeHashTable h (Some 0%nat) = Ret (0, h', []) /\
  0 = 0 /\ @nil string = [] /\ h' !! 0%nat = Some None /\
  Mem.load_table h' (Some 0%nat) = Fault /\
  Mem.freeHashTable h' (Some 0%nat) = Fault.
Proof.
  intros h h'.
  assert (Hrun : Mem.freeHashTable h (Some 0%nat) = Ret (0, h', []))
    by (vm_compute; reflexivity).
  split; [exact Hrun|].
  exact (freeHashTable_dangling h h' 0 0 [] Hrun).
Defined.

(** X15. [freeDictionary] frees the slot array and its strings and leaves
    the [HashTable]. For every heap that holds a table with its slot array,
    [freeDictionary] on the array and the size returns 0 without a message
    and frees every string and the array; freeing the [HashTable] next
    leaves the heap as [freeHashTable] leaves it, whereas [freeHashTable]
    on the table, whose array is gone, is undefined behaviour. For a null
    pointer [freeDictionary] returns -1 with its message and changes
    nothing. *)
Theorem freeDictionary_releases (h : Mem.heap) (a : nat) (ht : HashTable)
    (owned : list nat) (d : list Word) :
  table_at h a ht owned -> ht_dict ht = Some d -> ht_size ht <= Int.MAX ->
  exists da h1 h2,
    h !! a = Some (Some (Mem.Table (Some da) (ht_size ht) (ht_count ht))) /\
    Mem.freeDictionary h (Some da) (ht_size ht) = Ret (0, h1, []) /\
    h1 !! a = h !! a /\
    Mem.free h1 (Some a) = Ret h2 /\
    Mem.freeHashTable h (Some a) = Ret (0, h2, []) /\
    Mem.freeHashTable h1 (Some a) = Fault /\
    Mem.freeDictionary h None (ht_size ht) =
      Ret (-1, h, ["Error: Null dictionary."%string]).
Proof.
  intros Hat Hd Hmax.
  pose proof (freeHashTable_spec _ _ _ _ _ Hat Hd Hmax) as Hfree.
  destruct (table_at_dict _ _ _ _ _ Hat Hd)
    as (da & ws & Ha & Hda & Hall & -> & Hnd & Hlen).
  pose proof (Forall2_length _ _ _ Hall) as Hl.
  assert (Hlive : forall x, x ∈ addrs ws -> exists b, h !! x = Some (Some b)).
  { intros x Hx. destruct (word_at_live _ _ _ _ Hall Hx). eauto. }
  pose proof Hnd as Hnd'.
  apply NoDup_cons in Hnd' as [Hna Hnd']. pose proof Hnd' as Hnd2.
  apply NoDup_cons in Hnd' as [Hnda _].
  apply not_elem_of_cons in Hna as [Hne Hna].
  assert (Hd1 : Mem.freeDictionary h (Some da) (ht_size ht)
                = Ret (0, release (addrs ws ++ [da]) h, [])).
  { unfold Mem.freeDictionary.
    pose proof (dict_loop_spec h da ws Hda Hnd2 Hlive ltac:(lia)
                  (Z.to_nat (ht_size ht)) 0%nat ltac:(lia)) as Hloop.
    rewrite take_0 in Hloop. change (release (addrs []) h) with h in Hloop.
    change (Z.of_nat 0) with 0 in Hloop. rewrite Hloop. cbn [bind].
    rewrite (free_live _ da (Mem.Words ws)) by
      (rewrite lookup_release_ne by assumption; assumption).
    cbn [bind]. rewrite release_app. reflexivity. }
  assert (Ha1 : release (addrs ws ++ [da]) h !! a = h !! a).
  { apply lookup_release_ne. intros [Hin|Hin]%elem_of_app; [contradiction|].
    apply list_elem_of_singleton in Hin. congruence. }
  assert (Hda1 : release (addrs ws ++ [da]) h !! da = Some None).
  { apply lookup_release_in; [|eapply lookup_lt_Some; eauto].
    apply elem_of_app. right. left. }
  exists da, (release (addrs ws ++ [da]) h), (release (a :: da :: addrs ws) h).
  split; [assumption|]. split; [assumption|]. split; [assumption|].
  split; [|split; [assumption|split; [|reflexivity]]].
  - rewrite (free_live _ a (Mem.Table (Some da) (ht_size ht) (ht_count ht)))
      by (rewrite Ha1; assumption).
    f_equal.
    change (<[a:=None]> (release (addrs ws ++ [da]) h))
      with (release [a] (release (addrs ws ++ [da]) h)).
    rewrite <- release_app. apply release_perm.
    rewrite <- app_assoc. rewrite (Permutation_app_comm (addrs ws) ([da] ++ [a])).
    cbn [app]. apply perm_swap.
  - unfold Mem.freeHashTable, Mem.load_table.
    rewrite (load_live _ a (Mem.Table (Some da) (ht_size ht) (ht_count ht)))
      by (rewrite Ha1; assumption).
    cbn [bind fst snd Mem.free_loop]. unfold Mem.load_table.
    rewrite (load_live _ a (Mem.Table (Some da) (ht_size ht) (ht_count ht)))
      by (rewrite Ha1; assumption).
    cbn [bind fst snd]. unfold Mem.load_words.
    rewrite (load_freed _ _ Hda1). cbn [bind].
    destruct (0 <? ht_size ht); [reflexivity|]. cbn [bind].
    rewrite (load_live _ a (Mem.Table (Some da) (ht_size ht) (ht_count ht)))
      by (rewrite Ha1; assumption).
    cbn [bind fst snd]. unfold Mem.free. rewrite (load_freed _ _ Hda1). reflexivity.
Qed.

Lemma freeDictionary_releases_witness :
  let h := [Some (Mem.Table (Some 1%nat) 2 1);
            Some (Mem.Words [(Some 2%nat, 1); (None, 0)]);
            Some (Mem.Chars "a")] in
  let d := [mkWord (Some "a"%string) 1; zero_word] in
  let ht := mkHashTable (Some d) 2 1 in
  table_at h 0 ht [0; 1; 2]%nat /\ ht_dict ht = Some d /\ ht_size ht <= Int.MAX /\
  exists da h1 h2,
    h !! 0%nat = Some (Some (Mem.Table (Some da) (ht_size ht) (ht_count ht))) /\
    Mem.freeDictionary h (Some da) (ht_size ht) = Ret (0, h1, []) /\
    h1 !! 0%nat = h !! 0%nat /\
    Mem.free h1 (Some 0%nat) = Ret h2 /\
    Mem.freeHashTable h (Some 0%nat) = Ret (0, h2, []) /\
    Mem.freeHashTable h1 (Some 0%nat) = Fault /\
    Mem.freeDictionary h None (ht_size ht) =
      Ret (-1, h, ["Error: Null dictionary."%string]).
Proof.
  intros h d ht.
  assert (Hat : table_at h 0 ht [0; 1; 2]%nat).
  { exists (Some 1%nat). split; [reflexivity|]. split.
    - compute_done.
    - exists [(Some 2%nat, 1); (None, 0)], d.
      split; [reflexivity|]. split; [reflexivity|]. split; [reflexivity|].
      split; [|reflexivity].
      repeat constructor. exists "a"%string. split; reflexivity. }
  assert (Hmax : ht_size ht <= Int.MAX) by (vm_compute; discriminate).
  split; [exact Hat|]. split; [reflexivity|]. split; [exact Hmax|].
  exact (freeDictionary_releases h 0 ht [0; 1; 2]%nat d Hat eq_refl Hmax).
Defined.

(** ** The look-up table in memory *)

(** The loop of [createLookupTable] in memory writes what the loop on the
    array writes. *)
Lemma lookup_loop_mem illegal a : forall (n : nat) i h l,
  h !! a = Some (Some (Mem.Ints l)) ->
  Mem.lookup_loop n i illegal h (Some a) =
  (t <- lookup_loop n i illegal l ;; Ret (<[a := Some (Mem.Ints t)]> h)).
Proof.
  induction n as [|n IH]; intros i h l Ha.
  - cbn [Mem.lookup_loop lookup_loop bind]. f_equal. symmetry.
    apply list_insert_id. assumption.
  - cbn [Mem.lookup_loop lookup_loop].
    destruct (get illegal i) as [c| |]; cbn [bind]; try reflexivity.
    unfold Mem.load_ints. rewrite (load_live _ _ _ Ha). cbn [bind].
    destruct (set l (uchar c) 1) as [l'| |]; cbn [bind]; try reflexivity.
    rewrite (store_live _ _ _ _ Ha). cbn [bind].
    rewrite (IH _ _ l') by (apply list_lookup_insert_eq; eapply lookup_lt_Some; eauto).
    destruct (lookup_loop n (i + 1) illegal l') as [t| |]; cbn [bind]; try reflexivity.
    f_equal. rewrite list_insert_insert. destruct (decide (a = a)); [reflexivity|congruence].
Qed.

Lemma createLookupTable_mem m h illegal :
  Mem.createLookupTable m h illegal =
  (r <- createLookupTable m illegal ;;
   match fst r with
   | Some t => Ret (Some (length h), h ++ [Some (Mem.Ints t)], snd r)
   | None => Ret (None, h, snd r)
   end).
Proof.
  unfold Mem.createLookupTable, createLookupTable.
  destruct (calloc (calloc_ok m) 0 ASCII_SIZE) as [l|]; [|reflexivity].
  cbn [Mem.alloc fst snd].
  rewrite (lookup_loop_mem illegal (length h) _ _ _ l) by (apply list_lookup_middle; reflexivity).
  destruct (lookup_loop _ 0 illegal l) as [t| |]; cbn [bind fst snd]; try reflexivity.
  do 2 f_equal. f_equal.
  rewrite (insert_app_r_alt h [Some (Mem.Ints l)]) by lia.
  rewrite Nat.sub_diag. reflexivity.
Qed.

(** X16. The look-up table, from [createLookupTable] to [freeLookupTable].
    When [createLookupTable] returns a table, it has allocated one block,
    which holds the marks, and changed nothing else; [freeLookupTable]
    then returns 0 and frees that block, so that the heap has no more live
    blocks than before; and after that a read of an entry of the table, as
    the driver does, and a second [freeLookupTable] are undefined
    behaviour. When [calloc] finds no memory, nothing is allocated, and
    [freeLookupTable] on the null pointer returns -1 with its message. *)
Theorem lookup_table_lifetime (m : allocator) (h h1 : Mem.heap)
    (illegal : list ascii) (p : Mem.ptr) (log : list string) :
  Mem.createLookupTable m h illegal = Ret (p, h1, log) ->
  match p with
  | Some a =>
      exists t,
        createLookupTable m illegal = Ret (Some t, []) /\
        a = length h /\ h1 = h ++ [Some (Mem.Ints t)] /\
        Mem.freeLookupTable h1 p = Ret (0, h ++ [None], []) /\
        Mem.load_ints (h ++ [None]) p = Fault /\
        Mem.freeLookupTable (h ++ [None]) p = Fault
  | None =>
      h1 = h /\
      log = ["Error: Could not allocate memory for look-up table."%string] /\
      Mem.freeLookupTable h1 p = Ret (-1, h1, ["Error: Null look-up table."%string])
  end.
Proof.
  rewrite createLookupTable_mem. unfold createLookupTable.
  destruct (calloc (calloc_ok m) 0 ASCII_SIZE) as [l|]; cbn [bind fst snd].
  - destruct (lookup_loop _ 0 illegal l) as [t| |]; cbn [bind fst snd];
      try discriminate.
    intros [= <- <- <-]. exists t. split; [reflexivity|]. split; [reflexivity|].
    split; [reflexivity|].
    assert (Hfreed : (h ++ [None]) !! length h = Some (@None Mem.block))
      by (apply list_lookup_middle; reflexivity).
    split; [|split].
    + unfold Mem.freeLookupTable.
      rewrite (free_live _ _ (Mem.Ints t)) by (apply list_lookup_middle; reflexivity).
      cbn [bind]. do 2 f_equal. f_equal.
      rewrite (insert_app_r_alt h [Some (Mem.Ints t)]) by lia.
      rewrite Nat.sub_diag. reflexivity.
    + unfold Mem.load_ints. rewrite (load_freed _ _ Hfreed). reflexivity.
    + unfold Mem.freeLookupTable, Mem.free. rewrite (load_freed _ _ Hfreed). reflexivity.
  - intros [= <- <- <-]. repeat split.
Qed.

Lemma lookup_table_lifetime_witness :
  exists h1, 
  Mem.createLookupTable heap_ok [] nine_marks = Ret (Some 0%nat, h1, []) /\
  exists t,
    createLookupTable heap_ok nine_marks = Ret (Some t, []) /\
    0%nat = length (@nil (option Mem.block)) /\ h1 = [] ++ [Some (Mem.Ints t)] /\
    Mem.freeLookupTable h1 (Some 0%nat) = Ret (0, [] ++ [None], []) /\
    Mem.load_ints ([] ++ [None]) (Some 0%nat) = Fault /\
    Mem.freeLookupTable ([] ++ [None]) (Some 0%nat) = Fault.
Proof.
  eexists.
  assert (Hrun : Mem.createLookupTable heap_ok [] nine_marks = Ret (Some 0%nat, _, []))
    by (vm_compute; reflexivity).
  split; [exact Hrun|].
  exact (lookup_table_lifetime heap_ok [] _ nine_marks (Some 0%nat) [] Hrun).
Defined.

(** ** The table in memory *)

Lemma addrs_cons w ws :
  addrs (w :: ws) = match fst w with Some x => [x] | None => [] end ++ addrs ws.
Proof. unfold addrs. cbn. destruct (fst w); reflexivity. Qed.

Lemma addrs_repeat n : addrs (repeat (@None nat, 0) n) = [].
Proof. induction n as [|n IH]; [reflexivity|]. cbn [repeat]. rewrite addrs_cons. exact IH. Qed.



Lemma words_at_repeat h n :
  Forall2 (word_at h) (repeat (None, 0) n) (repeat zero_word n).
Proof. induction n as [|n IH]; constructor; [split; reflexivity|assumption]. Qed.








(** ** Growth in memory *)


Lemma grow_probe_free : forall fuel nd n i idx,
  grow_probe fuel nd n i = Ret idx -> exists v, slot nd idx = Some v /\ w_str v = None.
Proof.
  induction fuel as [|fuel IH]; intros nd n i idx Hrun; [discriminate|].
  cbn [grow_probe] in Hrun. unfold get in Hrun.
  destruct (slot nd i) as [v|] eqn:Hv; cbn [deref bind] in Hrun; [|discriminate].
  destruct (w_str v) eqn:Hs.
  - destruct (Int.rem (Int.add i 1) n); cbn [bind] in Hrun; try discriminate. eauto.
  - injection Hrun as <-. eauto.
Qed.








Lemma createHashTable_mem h size :
  0 <= size ->
  let h1 := h ++ [Some (Mem.Table (Some (S (length h))) size 0);
                  Some (Mem.Words (repeat (None, 0) (Z.to_nat size)))] in
  Mem.createHashTable heap_ok h size = Ret (Some (length h), h1, []) /\
  table_at h1 (length h)
           (mkHashTable (Some (repeat zero_word (Z.to_nat size))) size 0)
           [length h; S (length h)] /\
  tidy h h1 [length h; S (length h)].
Proof.
  intros Hsize h1. split; [|split].
  - unfold Mem.createHashTable, Mem.calloc_words, calloc.
    cbn [malloc_ok calloc_ok heap_ok Mem.alloc andb fst snd].
    destruct (Z.leb_spec 0 size) as [_|]; [|lia]. cbn [fst snd].
    rewrite (store_live _ (length h) (Mem.Table None size 0)).
    2:{ rewrite lookup_app_l by (rewrite length_app; cbn [length]; lia).
        apply list_lookup_middle. reflexivity. }
    cbn [bind]. do 2 f_equal. f_equal. unfold h1.
    rewrite length_app. cbn [length]. rewrite Nat.add_1_r.
    rewrite <- app_assoc. cbn [app].
    rewrite (insert_app_r_alt h) by lia. rewrite Nat.sub_diag. reflexivity.
  - exists (Some (S (length h))). cbn [ht_size ht_count ht_dict]. split.
    { unfold h1. apply list_lookup_middle. reflexivity. }
    split.
    { apply NoDup_cons. split; [|apply NoDup_singleton].
      intros Hx%list_elem_of_singleton. lia. }
    eexists _, _. split.
    { unfold h1. rewrite lookup_app_r by lia.
      replace (S (length h) - length h)%nat with 1%nat by lia. reflexivity. }
    split; [reflexivity|]. split; [rewrite repeat_length; lia|].
    split; [apply words_at_repeat|]. rewrite addrs_repeat. reflexivity.
  - split; [|split].
    + unfold h1. rewrite take_app_length. reflexivity.
    + intros x [->|Hx]%elem_of_cons; [lia|].
      apply list_elem_of_singleton in Hx. lia.
    + intros x b Hx Hb. apply lookup_lt_Some in Hb. unfold h1 in Hb.
      rewrite length_app in Hb. cbn [length] in Hb.
      assert (x = length h \/ x = S (length h)) as [->| ->] by lia;
        [left|right; left].
Qed.

(** ** From [createHashTable] to [freeHashTable] *)











(** X20. [createHashTable] in memory. With memory for both allocations and
    a size that is not negative, [createHashTable] allocates two blocks, the
    [HashTable] and its slot array, and the heap then holds the table that
    [createHashTable] returns, without entries. When [malloc] succeeds and
    [calloc] fails, the function returns NULL with its message, and the
    [HashTable] that it has allocated stays allocated: the block is live
    and the caller has no pointer to it. When [malloc] fails nothing is
    allocated. *)
Theorem createHashTable_in_memory (m : allocator) (h : Mem.heap) (size : Z) :
  0 <= size ->
  (exists h1 ht,
     Mem.createHashTable heap_ok h size = Ret (Some (length h), h1, []) /\
     createHashTable heap_ok size = (Some ht, []) /\
     length h1 = (length h + 2)%nat /\
     table_at h1 (length h) ht [length h; S (length h)] /\
     tidy h h1 [length h; S (length h)]) /\
  (malloc_ok m = true -> calloc_ok m = false ->
   Mem.createHashTable m h size =
     Ret (None, h ++ [Some (Mem.Table None size 0)],
          ["Error: Could not allocate memory for dictionary."%string])) /\
  (malloc_ok m = false ->
   Mem.createHashTable m h size =
     Ret (None, h, ["Error: Could not allocate memory for hash table."%string])).
Proof.
  intros Hsize. split; [|split].
  - destruct (createHashTable_mem h size Hsize) as (Hc & Hat & Htidy).
    eexists _, _. split; [exact Hc|]. split; [apply createHashTable_ok; assumption|].
    split; [rewrite length_app; reflexivity|]. auto.
  - intros Hm Hc. unfold Mem.createHashTable, Mem.calloc_words, calloc.
    rewrite Hm, Hc. cbn [Mem.alloc andb fst snd].
    rewrite (store_live _ (length h) (Mem.Table None size 0))
      by (apply list_lookup_middle; reflexivity).
    cbn [bind]. do 2 f_equal. f_equal.
    rewrite (insert_app_r_alt h) by lia. rewrite Nat.sub_diag. reflexivity.
  - intros Hm. unfold Mem.createHashTable. rewrite Hm. reflexivity.
Qed.

Lemma createHashTable_in_memory_witness :
  0 <= 11 /\
  (exists h1 ht,
     Mem.createHashTable heap_ok [] 11 = Ret (Some (length (@nil (option Mem.block))), h1, []) /\
     createHashTable heap_ok 11 = (Some ht, []) /\
     length h1 = (length (@nil (option Mem.block)) + 2)%nat /\
     table_at h1 (length (@nil (option Mem.block))) ht
              [length (@nil (option Mem.block)); S (length (@nil (option Mem.block)))] /\
     tidy [] h1 [length (@nil (option Mem.block)); S (length (@nil (option Mem.block)))]) /\
  (malloc_ok calloc_fails = true -> calloc_ok calloc_fails = false ->
   Mem.createHashTable calloc_fails [] 11 =
     Ret (None, [] ++ [Some (Mem.Table None 11 0)],
          ["Error: Could not allocate memory for dictionary."%string])) /\
  (malloc_ok calloc_fails = false ->
   Mem.createHashTable calloc_fails [] 11 =
     Ret (None, [], ["Error: Could not allocate memory for hash table."%string])).
Proof.
  assert (H : 0 <= 11) by lia.
  split; [exact H|]. exact (createHashTable_in_memory calloc_fails [] 11 H).
Defined.

(** ** The driver *)

Lemma bind_Ret {A B} (e : result A) (k : A -> result B) b :
  bind e k = Ret b -> exists x, e = Ret x /\ k x = Ret b.
Proof. destruct e as [x| |]; cbn [bind]; [eauto|discriminate|discriminate]. Qed.

(** X21. The driver does not reach its [return]. Whatever the allocator
    answers during each call: [main] reads [ht->size] after
    [freeHashTable(ht)] has freed the table (or, when [createHashTable] has
    returned NULL, reads [ht->count] through the null pointer), so that no
    run of the driver ends with an exit status. *)
Theorem main_never_returns (ms : nat -> allocator) (r : Z * list Mem.printed) :
  Mem.main ms <> Ret r.
Proof.
  unfold Mem.main. intros Hrun.
  apply bind_Ret in Hrun as ([[ht h] log] & _ & Hrun). cbn [fst snd] in Hrun.
  apply bind_Ret in Hrun as (t & Ht & Hrun).
  destruct ht as [a|]; [|discriminate Ht].
  apply bind_Ret in Hrun as (h1 & _ & Hrun).
  apply bind_Ret in Hrun as (t1 & _ & Hrun).
  apply bind_Ret in Hrun as (out2 & _ & Hrun).
  apply bind_Ret in Hrun as ([[r1 h2] log1] & Hfree & Hrun). cbn [fst snd] in Hrun.
  apply bind_Ret in Hrun as (t2 & Ht2 & _).
  destruct (free_table_dangles _ _ _ _ _ Hfree) as (_ & _ & _ & Hload).
  congruence.
Qed.

(** The run of the driver up to the point where it frees the table, with
    memory for every allocation: the capacity, the live count and the
    entries that it prints, in slot order. *)
Example driver_table :
  (r <- Mem.createHashTable heap_ok [] HASH_SIZE ;;
   h1 <- Mem.add_all (fun _ => heap_ok) 1 (snd (fst r)) (fst (fst r)) Mem.driver_words ;;
   t1 <- Mem.load_table h1 (fst (fst r)) ;;
   out <- Mem.print_table (S (Z.to_nat (snd (fst t1)))) h1 (fst (fst r)) 0 ;;
   Ret (snd (fst t1), snd t1, out))
  = Ret (22, 12,
         [Mem.OutEntry "bbbbb" 1; Mem.OutEntry "ddddd" 1; Mem.OutEntry "fffff" 1;
          Mem.OutEntry "hhhhh" 1; Mem.OutEntry "jjjjj" 1; Mem.OutEntry "aaaaa" 1;
          Mem.OutEntry "ccccc" 1; Mem.OutEntry "eeeee" 1; Mem.OutEntry "ggggg" 1;
          Mem.OutEntry "iiiii" 1; Mem.OutEntry "hello" 2; Mem.OutEntry "world" 2]).
Proof. vm_compute. reflexivity. Qed.

(** ** Termination *)

Lemma rem_total a b : Int.rem a b <> Diverge.
Proof.
  unfold Int.rem. destruct (b =? 0); [discriminate|].
  destruct ((a =? Int.MIN) && (b =? -1)); discriminate.
Qed.

Lemma rem_bound a b r : 0 < b -> Int.rem a b = Ret r -> - b < r < b.
Proof.
  unfold Int.rem. intros Hb. destruct (b =? 0); [discriminate|].
  destruct ((a =? Int.MIN) && (b =? -1)); [discriminate|]. intros [= <-].
  pose proof (Z.rem_bound_abs a b ltac:(lia)). lia.
Qed.

Lemma hash_loop_total s : forall n h, hash_loop s n h <> Diverge.
Proof.
  induction s as [|c s IH]; intros n h; cbn [hash_loop]; [discriminate|].
  destruct (is_nul c); [discriminate|].
  pose proof (rem_total (Int.add (Int.mul h HASH_MAGIC) (char_val c)) n) as Hr.
  destruct (Int.rem _ n); cbn [bind]; [apply IH|discriminate|congruence].
Qed.

Lemma hash_loop_index s : forall n h r,
  0 < n -> - n < h < n -> hash_loop s n h = Ret r -> - n < r < n.
Proof.
  induction s as [|c s IH]; intros n h r Hn Hh; cbn [hash_loop].
  - intros [= <-]. assumption.
  - destruct (is_nul c); [intros [= <-]; assumption|].
    destruct (Int.rem _ n) as [h'| |] eqn:E; cbn [bind]; try discriminate.
    apply IH; [assumption|]. eapply rem_bound; eauto.
Qed.

(** The probe of [addString] is back at its start after at most [size]
    slots. *)
Lemma add_loop_total m ht s h : forall fuel j,
  0 < ht_size ht <= Int.MAX -> 0 <= h < ht_size ht ->
  0 <= j < ht_size ht -> (Z.to_nat (ht_size ht - 1 - j) < fuel)%nat ->
  add_loop fuel m ht s h ((h + j) mod ht_size ht) <> Diverge.
Proof.
  induction fuel as [|fuel IH]; intros j Hn Hh Hj Hfuel; [lia|].
  cbn [add_loop].
  destruct (ht_dict ht) as [d|]; cbn [deref bind]; [|discriminate].
  unfold get. destruct (slot d _) as [w|]; cbn [deref bind]; [|discriminate].
  destruct (w_str w) as [t|].
  - destruct (strcmp t s =? 0).
    + unfold set. destruct (slot d _); cbn [bind]; discriminate.
    + rewrite step_index by lia. cbn [bind].
      destruct (Z.eqb_spec ((h + (j + 1)) mod ht_size ht) h) as [E|Hne];
        [discriminate|].
      assert (Hlt : j + 1 < ht_size ht).
      { destruct (Z.eq_dec (j + 1) (ht_size ht)) as [E|]; [|lia].
        exfalso. apply Hne. rewrite E.
        replace (h + ht_size ht) with (h + 1 * ht_size ht) by lia.
        rewrite Z.mod_add, Z.mod_small by lia. reflexivity. }
      apply IH; auto; lia.
  - unfold set. destruct (slot d _); cbn [bind]; discriminate.
Qed.

Lemma grow_probe_total nd n idx :
  0 < n <= Int.MAX -> Z.of_nat (length nd) = n ->
  (length (entries nd) < length nd)%nat ->
  grow_probe (probe_fuel n) nd n idx <> Diverge.
Proof.
  intros Hn Hlen Hfree.
  destruct (Z.lt_ge_cases idx 0) as [Hneg|Hpos].
  - unfold probe_fuel. cbn [grow_probe]. unfold get, slot.
    destruct (Z.leb_spec 0 idx); [lia|]. discriminate.
  - destruct (Z.lt_ge_cases idx n) as [Hlt|Hge].
    + destruct (free_slot_exists nd Hfree) as (i & w & Hi & Hw).
      destruct (stops_exists is_free nd n ltac:(lia) Hlen idx ltac:(lia)) as [k Hk];
        [eauto|].
      rewrite (grow_probe_spec nd n idx k) by (auto; lia). discriminate.
    + unfold probe_fuel. cbn [grow_probe]. unfold get.
      destruct (slot nd idx) as [w|] eqn:Hw; [|discriminate].
      apply slot_range in Hw. lia.
Qed.

(** The rehash always finds a free slot: the new array has more slots than
    there are old slots left to move. *)
Lemma grow_loop_total dict new_size : forall (n : nat) i nd,
  0 < new_size <= Int.MAX -> Z.of_nat (length nd) = new_size ->
  (length (entries nd) + n < length nd)%nat ->
  grow_loop n i dict new_size (Some nd) <> Diverge.
Proof.
  induction n as [|n IH]; intros i nd Hn Hlen Hroom; cbn [grow_loop]; [discriminate|].
  destruct dict as [d|]; cbn [deref bind]; [|discriminate].
  unfold get. destruct (slot d i) as [w|]; cbn [deref bind]; [|discriminate].
  destruct (w_str w) as [s|]; [|apply IH; auto; lia].
  pose proof (hash_loop_total s new_size 0) as Hh. unfold hash.
  destruct (hash_loop s new_size 0) as [idx0| |]; cbn [bind]; [|discriminate|congruence].
  pose proof (grow_probe_total nd new_size idx0 Hn Hlen ltac:(lia)) as Hp.
  destruct (grow_probe (probe_fuel new_size) nd new_size idx0) as [idx| |] eqn:Hprobe;
    cbn [bind]; [|discriminate|congruence].
  destruct (grow_probe_free _ _ _ _ _ Hprobe) as (v & Hv & Hfree).
  rewrite (set_Some _ _ _ _ Hv). cbn [bind].
  apply slot_Some in Hv as [_ Hv].
  pose proof (entries_fill nd _ v s (w_count w) Hv Hfree) as Hperm.
  apply Permutation_length in Hperm. cbn [length] in Hperm.
  apply IH; auto.
  - rewrite length_insert. assumption.
  - rewrite length_insert. lia.
Qed.

Lemma grow_loop_null_total dict new_size : forall (n : nat) i,
  grow_loop n i dict new_size None <> Diverge.
Proof.
  induction n as [|n IH]; intros i; cbn [grow_loop]; [discriminate|].
  destruct dict as [d|]; cbn [deref bind]; [|discriminate].
  unfold get. destruct (slot d i) as [w|]; cbn [deref bind]; [|discriminate].
  destruct (w_str w) as [s|]; [|apply IH].
  pose proof (hash_loop_total s new_size 0) as Hh. unfold hash.
  destruct (hash_loop s new_size 0); cbn [bind deref]; [discriminate|discriminate|congruence].
Qed.

Lemma growHashTable_total m ht :
  0 < ht_size ht <= Int.MAX ->
  growHashTable m ht <> Diverge /\
  forall r ht', growHashTable m ht = Ret (r, ht') ->
    ht_dict ht' = None \/ 0 < ht_size ht' <= Int.MAX.
Proof.
  intros Hn. unfold growHashTable, calloc, HASH_GROWTH_FACTOR.
  set (new_size := Int.mul (ht_size ht) 2).
  assert (Hns : new_size = 2 * ht_size ht /\ 2 * ht_size ht <= Int.MAX \/ new_size < 0).
  { unfold new_size, Int.mul, Int.wrap, Int.MAX in *.
    destruct (Z.le_gt_cases (2 * ht_size ht) (2 ^ 31 - 1)) as [Hle|Hgt].
    - left. split; [|assumption]. rewrite Z.mod_small by lia. lia.
    - right. replace (ht_size ht * 2 + 2 ^ 31) with (ht_size ht * 2 - 2 ^ 31 + 1 * 2 ^ 32) by lia.
      rewrite Z.mod_add, Z.mod_small by lia. lia. }
  destruct (calloc_ok m && (0 <=? new_size)) eqn:Hok.
  - apply andb_true_iff in Hok as [_ Hpos]. apply Z.leb_le in Hpos.
    destruct Hns as [[Hns Hle]|Hneg]; [|lia].
    pose proof (grow_loop_total (ht_dict ht) new_size (Z.to_nat (ht_size ht)) 0
                  (repeat zero_word (Z.to_nat new_size))) as Ht.
    rewrite repeat_length, entries_repeat in Ht. cbn [length] in Ht.
    specialize (Ht ltac:(lia) ltac:(lia) ltac:(lia)).
    destruct (grow_loop _ 0 (ht_dict ht) new_size _) as [nd| |]; cbn [bind];
      [|split; [discriminate|intros; discriminate]|congruence].
    split; [discriminate|]. intros r ht' [= <- <-]. right. cbn [ht_size]. lia.
  - pose proof (grow_loop_null_total (ht_dict ht) new_size (Z.to_nat (ht_size ht)) 0) as Ht.
    destruct (grow_loop _ 0 (ht_dict ht) new_size None) as [nd| |] eqn:Hloop; cbn [bind];
      [|split; [discriminate|intros; discriminate]|congruence].
    split; [discriminate|]. intros r ht' [= <- <-]. left. cbn [ht_dict].
    clear -Hloop. revert Hloop. generalize 0 at 1. generalize (Z.to_nat (ht_size ht)).
    induction n as [|n IH]; intros i; cbn [grow_loop]; [intros [= <-]; reflexivity|].
    destruct (ht_dict ht) as [d|]; cbn [deref bind]; [|discriminate].
    unfold get. destruct (slot d i) as [w|]; cbn [deref bind]; [|discriminate].
    destruct (w_str w) as [s|]; [|apply IH].
    destruct (hash s new_size); cbn [bind deref]; discriminate.
Qed.

(** X22. [addString] terminates. On every table with a size from 1 to
    [INT_MAX], whatever its slots hold, for every string and whatever the
    allocator answers, [addString] returns or runs into undefined
    behaviour; it does not loop for ever: the [while] loop of the rehash,
    which has no bound, always meets a free slot of the new array, and the
    probe of [addString] is back at its start index after at most [size]
    slots. *)
Theorem addString_terminates (m : allocator) (ht : HashTable) (str : option string) :
  0 < ht_size ht <= Int.MAX ->
  addString m ht str <> Diverge /\ growHashTable m ht <> Diverge.
Proof.
  intros Hn. destruct (growHashTable_total m ht Hn) as [Hg Hsize].
  split; [|assumption]. unfold addString.
  assert (Hstep : forall ht1,
             (if load_exceeds ht then r <- growHashTable m ht ;; Ret (snd r) else Ret ht)
             = Ret ht1 ->
             ht_dict ht1 = None \/ 0 < ht_size ht1 <= Int.MAX).
  { intros ht1. destruct (load_exceeds ht).
    - destruct (growHashTable m ht) as [[r ht']| |] eqn:E; cbn [bind]; try discriminate.
      intros [= <-]. eapply Hsize; eauto.
    - intros [= <-]. auto. }
  destruct (if load_exceeds ht then _ else _) as [ht1| |] eqn:E1; cbn [bind];
    [|discriminate|].
  2:{ exfalso. destruct (load_exceeds ht); [|discriminate].
      destruct (growHashTable m ht) as [[r ht']| |]; cbn [bind] in E1; congruence. }
  destruct str as [s|]; cbn [deref bind]; [|discriminate].
  pose proof (hash_loop_total s (ht_size ht1) 0) as Hh. unfold hash.
  destruct (hash_loop s (ht_size ht1) 0) as [h| |] eqn:Eh; cbn [bind];
    [|discriminate|congruence].
  destruct (Hstep ht1 eq_refl) as [Hnone|Hn1].
  - unfold probe_fuel. cbn [add_loop]. rewrite Hnone. discriminate.
  - pose proof (hash_loop_index s (ht_size ht1) 0 h ltac:(lia) ltac:(lia) Eh) as Hr.
    destruct (Z.lt_ge_cases h 0) as [Hneg|Hpos].
    + unfold probe_fuel. cbn [add_loop].
      destruct (ht_dict ht1); cbn [deref bind]; [|discriminate].
      unfold get, slot. destruct (Z.leb_spec 0 h); [lia|]. discriminate.
    + rewrite <- (index_zero h (ht_size ht1)) at 2 by lia.
      apply add_loop_total; try lia. unfold probe_fuel. lia.
Qed.

Lemma addString_terminates_witness :
  0 < ht_size (built 11 eight_words) <= Int.MAX /\
  addString calloc_fails (built 11 eight_words) (Some "iiiii"%string) <> Diverge /\
  growHashTable calloc_fails (built 11 eight_words) <> Diverge.
Proof.
  assert (Hn : 0 < ht_size (built 11 eight_words) <= Int.MAX)
    by (vm_compute; split; [reflexivity|discriminate]).
  split; [exact Hn|].
  exact (addString_terminates calloc_fails (built 11 eight_words) (Some "iiiii"%string) Hn).
Defined.

(** ** Nothing is ever removed *)




(** ** Within the limits *)







(** X27. The legal lengths, for lengths that fit an [int]. For a null
    pointer and for every string of at most [INT_MAX] = 2^31 - 1
    characters: [MIN_STRING_SIZE] is 1 and [MAX_STRING_SIZE] is 64;
    [checkString] returns 0 exactly for the non-null strings whose length
    is at least 1 and at most 64, and -1 otherwise. *)
Theorem checkString_range (str : option string) :
  length_fits str ->
  MIN_STRING_SIZE = 1 /\ MAX_STRING_SIZE = 64 /\
  (checkString str = 0 <-> exists s, str = Some s /\ 1 <= strlen s <= 64) /\
  (checkString str = 0 \/ checkString str = -1).
Proof.
  intros Hfit. split; [reflexivity|]. split; [reflexivity|].
  destruct str as [s|]; cbn [checkString length_fits] in *.
  - pose proof (strlen_nonneg s) as H0.
    rewrite wrap_small by (unfold Int.in_range, Int.MIN, Int.MAX in *; lia).
    unfold MIN_STRING_SIZE, MAX_STRING_SIZE.
    destruct (Z.ltb_spec (strlen s) 1); cbn [orb].
    + split; [|auto]. split; [lia|]. intros (t & [= <-] & Ht). lia.
    + destruct (Z.gtb_spec (strlen s) 64).
      * split; [|auto]. split; [lia|]. intros (t & [= <-] & Ht). lia.
      * split; [|auto]. split; [|reflexivity]. intros _. exists s. split; [reflexivity|lia].
  - split; [|auto]. split; [lia|]. intros (t & Ht & _). discriminate.
Qed.

Lemma checkString_range_witness :
  length_fits (Some "hello"%string) /\
  MIN_STRING_SIZE = 1 /\ MAX_STRING_SIZE = 64 /\
  (checkString (Some "hello"%string) = 0 <->
   exists s, Some "hello"%string = Some s /\ 1 <= strlen s <= 64) /\
  (checkString (Some "hello"%string) = 0 \/ checkString (Some "hello"%string) = -1).
Proof.
  assert (Hf : length_fits (Some "hello"%string)) by (vm_compute; discriminate).
  split; [exact Hf|]. exact (checkString_range (Some "hello"%string) Hf).
Defined.
